(** * chatbot_web: a retrieval-augmented chat pipeline over scraped web pages

    The repository holds three versions of one Node.js program:
    - [src/index.js] (headless-browser scraper, chunk size 500),
    - [src/unnamed/part_000] (HTTP scraper, chunk ids, chunk size 1000),
    - [src/unnamed/part_001] (HTTP scraper, one id per URL, chunk size 1000).

    Each version is embedded in a module of its own ([IndexJs], [Part000],
    [Part001]); what they share (JavaScript strings and arrays, the loop of
    [chunkText], the world the program acts on) comes first.  The modules
    [Bounded] and [Rejecting] take up [chunkText] with the limit on the
    length of an array, and [ingest] of [index.js] over a store that may
    reject a write. *)

From Stdlib Require Import ZArith NArith Lia String Ascii DecimalString DecimalNat PrimFloat.
From stdpp Require Import gmap list.

Local Open Scope Z_scope.

(** ** JavaScript strings

    A JavaScript string is a sequence of UTF-16 code units. *)

Abbreviation jsstring := (list N).

(** A literal of the source, read code unit by code unit. *)
Definition str (s : string) : jsstring := N_of_ascii <$> list_ascii_of_string s.

Definition SPACE : N := 32%N.
Definition LF : N := 10%N.

(** The class [\s] of ECMAScript regular expressions (WhiteSpace and
    LineTerminator); [String.prototype.trim] strips the same code units. *)
Definition is_ws (c : N) : bool :=
  ((9 <=? c) && (c <=? 13) || (c =? 32) || (c =? 160) || (c =? 5760)
   || (8192 <=? c) && (c <=? 8202) || (c =? 8232) || (c =? 8233)
   || (c =? 8239) || (c =? 8287) || (c =? 12288) || (c =? 65279))%N.

(** [text.split(/\s+/)]: the pieces between maximal runs of white space.
    [in_sep] says that the previous code unit belonged to a separator, [acc]
    is the piece being read.  A separator at the very start or the very end
    of the text leaves an empty piece there, and the empty text splits into
    one empty piece. *)
Fixpoint split_go (in_sep : bool) (acc : jsstring) (s : jsstring) : list jsstring :=
  match s with
  | [] => [acc]
  | c :: s' =>
      if is_ws c
      then if in_sep then split_go true acc s' else acc :: split_go true [] s'
      else split_go false (acc ++ [c]) s'
  end.

Definition split_ws (text : jsstring) : list jsstring := split_go false [] text.

(** [s.replace(/\s+/g, " ")]: every maximal run of white space becomes one
    space. *)
Fixpoint replace_go (in_run : bool) (s : jsstring) : jsstring :=
  match s with
  | [] => []
  | c :: s' =>
      if is_ws c
      then if in_run then replace_go true s' else SPACE :: replace_go true s'
      else c :: replace_go false s'
  end.

Definition replace_ws (s : jsstring) : jsstring := replace_go false s.

(** [String.prototype.trim]. *)
Fixpoint trimStart (s : jsstring) : jsstring :=
  match s with
  | [] => []
  | c :: s' => if is_ws c then trimStart s' else s
  end.

Definition trimEnd (s : jsstring) : jsstring := reverse (trimStart (reverse s)).

Definition trim (s : jsstring) : jsstring := trimEnd (trimStart s).

(** [Array.prototype.join] on an array of strings. *)
Fixpoint join (sep : jsstring) (l : list jsstring) : jsstring :=
  match l with
  | [] => []
  | x :: rest =>
      match rest with
      | [] => x
      | _ :: _ => x ++ sep ++ join sep rest
      end
  end.

(** [Array.prototype.slice(start, end)]: a negative argument counts from the
    end of the array, and both are clamped to the array. *)
Definition rel_index (len k : Z) : Z :=
  if k <? 0 then Z.max (len + k) 0 else Z.min k len.

Definition slice {A} (l : list A) (start end_ : Z) : list A :=
  let len := Z.of_nat (length l) in
  let k := rel_index len start in
  let final := rel_index len end_ in
  take (Z.to_nat (final - k)) (drop (Z.to_nat k) l).

(** [Number.prototype.toString] on an array index. *)
Definition number_toString (n : nat) : jsstring :=
  str (NilEmpty.string_of_uint (Nat.to_uint n)).

(** [Boolean(s)] for a string: only the empty string is falsy. *)
Definition truthy (s : jsstring) : Prop := s ≠ [].

#[global] Instance truthy_dec (s : jsstring) : Decision (truthy s).
Proof. unfold truthy. apply _. Defined.

(** [[...new Set(l)]]: a [Set] keeps its elements in insertion order and
    ignores the insertion of a member. *)
Definition Set_add (s : list jsstring) (x : jsstring) : list jsstring :=
  if bool_decide (x ∈ s) then s else s ++ [x].

Definition new_Set (l : list jsstring) : list jsstring := foldl Set_add [] l.

(** ** Outcomes

    A call returns, throws, or is still running when the fuel of the model is
    spent. *)

Inductive exn :=
| Error (message : jsstring)
| TypeError
| RangeError.

Inductive outcome (A : Type) :=
| Ok (a : A)
| Throw (e : exn)
| OutOfFuel.

Arguments Ok {A} a.
Arguments Throw {A} e.
Arguments OutOfFuel {A}.

(** ** The chunker

    The [for] loop of [chunkText], shared by the three versions:
    [for (let i = 0; i < words.length; i += chunkSize)
       chunks.push(words.slice(i, i + chunkSize).join(" "))].
    The array [chunks] is taken here to grow as far as the loop asks, which
    is as the loop runs with a positive chunk size (one chunk per window of
    words); [Bounded.chunkText_loop] below is the loop with the limit on the
    length of an array, which decides how it ends otherwise. *)
Fixpoint chunkText_loop (fuel : nat) (words : list jsstring) (chunkSize i : Z)
    (chunks : list jsstring) : outcome (list jsstring) :=
  match fuel with
  | O => OutOfFuel
  | S fuel' =>
      if i <? Z.of_nat (length words)
      then chunkText_loop fuel' words chunkSize (i + chunkSize)
             (chunks ++ [join [SPACE] (slice words i (i + chunkSize))])
      else Ok chunks
  end.

(** The number of words of a text, as the chunker counts them: the length of
    [text.split(/\s+/)]. *)
Definition wordCount (text : jsstring) : Z := Z.of_nat (length (split_ws text)).

(** The ceiling of [a / b] for a positive [b]. *)
Definition ceil_div (a b : Z) : Z := (a + b - 1) / b.

(** ** The world of the program

    The vector store, and the calls the program makes to its collaborators
    (page loader, embedding model, vector store, generative model, console)
    in the order it makes them. *)

Record metadata := {
  md_url : jsstring;
  md_head : jsstring;
  md_body : jsstring;
}.

Record stored := {
  st_embedding : list float;
  st_metadata : metadata;
}.

(** What [model.generateContent] is given: one prompt string ([index.js],
    [part_000]) or a list of messages, each a role and a text ([part_001]). *)
Inductive prompt :=
| PromptText (text : jsstring)
| PromptMessages (messages : list (jsstring * jsstring)).

(** The lines the program writes to the console, by what they report. *)
Inductive console_line :=
| LogScraping (url : jsstring)
| LogScrapeSuccess
| LogScrapeError (e : exn)
| LogEmbeddingError
| LogSkippedEmpty (id : jsstring)
| LogIngesting (url : jsstring)
| LogFoundChunks (n : nat)
| LogEmbeddingChunk (i n : nat)
| LogIngested (url : jsstring)
| LogIngestFailed (url : jsstring)
| LogQuery (question : jsstring)
| LogNoContext
| LogTopUrls (urls : list jsstring)
| LogAnswer (text : jsstring).

Inductive event :=
| PageLoad (url : jsstring)
| EmbedContent (text : jsstring)
| CollectionAdd (id : jsstring) (embedding : list float) (md : metadata)
| CollectionQuery (nResults : Z) (queryEmbedding : list float)
| GenerateContent (p : prompt)
| Console (line : console_line).

Record world := {
  store : gmap jsstring stored;
  trace : list event;
}.

(** What loading a page gives: an error (navigation or HTTP failure), or the
    head text (the title, in [index.js]) and the body text the scraper's DOM
    traversal extracts. *)
Inductive loaded :=
| LoadError (e : exn)
| Loaded (head body : jsstring).

(** The collaborators, as substitutable functions.  [embedContent] answers
    [None] when the embedding call throws; [query] answers [None] when the
    reply holds no [metadatas[0]]. *)
Record Env := {
  load : jsstring -> loaded;
  embedContent : jsstring -> option (list float);
  query : gmap jsstring stored -> Z -> list float -> option (list metadata);
  generateContent : prompt -> jsstring;
}.

(** ** A monad for state and exceptions *)

Definition M (A : Type) : Type := world -> outcome A * world.

Definition ret {A} (a : A) : M A := fun w => (Ok a, w).

Definition bind {A B} (m : M A) (k : A -> M B) : M B :=
  fun w =>
    match m w with
    | (Ok a, w') => k a w'
    | (Throw e, w') => (Throw e, w')
    | (OutOfFuel, w') => (OutOfFuel, w')
    end.

Definition throw {A} (e : exn) : M A := fun w => (Throw e, w).

Definition lift {A} (o : outcome A) : M A := fun w => (o, w).

(** [try { body } catch (e) { handler }]. *)
Definition try_catch {A} (body : M A) (handler : exn -> M A) : M A :=
  fun w =>
    match body w with
    | (Throw e, w') => handler e w'
    | r => r
    end.

Definition emit (e : event) : M unit :=
  fun w => (Ok tt, {| store := store w; trace := trace w ++ [e] |}).

Notation "x <- c ;; k" := (bind c (fun x => k))
  (at level 100, c at next level, right associativity).
Notation "c ;;; k" := (bind c (fun _ => k))
  (at level 100, right associativity).

(** The calls to the collaborators. *)

Definition page_load (env : Env) (url : jsstring) : M (jsstring * jsstring) :=
  emit (PageLoad url) ;;;
  match load env url with
  | LoadError e => throw e
  | Loaded head body => ret (head, body)
  end.

(** Modelled from the spec: the vector store is the external chromadb
    service, reached through [collection.add]; the specification gives it as
    [upsert(id, embedding, metadata)], where a write to an id already stored
    overwrites the record.  This is the store that takes every write;
    [collection_add_or_reject] below is the store that may reject one. *)
Definition collection_add (id : jsstring) (embedding : list float) (md : metadata) : M unit :=
  fun w =>
    (Ok tt,
     {| store := <[id := {| st_embedding := embedding; st_metadata := md |}]> (store w);
        trace := trace w ++ [CollectionAdd id embedding md] |}).

Definition collection_query (env : Env) (nResults : Z) (queryEmbedding : list float)
    : M (option (list metadata)) :=
  fun w =>
    (Ok (query env (store w) nResults queryEmbedding),
     {| store := store w; trace := trace w ++ [CollectionQuery nResults queryEmbedding] |}).

Definition model_generateContent (env : Env) (p : prompt) : M jsstring :=
  emit (GenerateContent p) ;;; ret (generateContent env p).

(** The storage id of the chunk of index [i]: [`${url}-chunk-${i}`]. *)
Definition chunkId (url : jsstring) (i : nat) : jsstring :=
  url ++ str "-chunk-" ++ number_toString i.

(** What the trace says. *)

Definition is_generate (e : event) : bool :=
  match e with GenerateContent _ => true | _ => false end.

Definition is_query (e : event) : bool :=
  match e with CollectionQuery _ _ => true | _ => false end.

Definition is_add (e : event) : bool :=
  match e with CollectionAdd _ _ _ => true | _ => false end.

Definition model_calls (t : list event) : nat := length (List.filter is_generate t).
Definition store_queries (t : list event) : nat := length (List.filter is_query t).
Definition store_writes (t : list event) : nat := length (List.filter is_add t).

(** No stored record has an empty embedding. *)
Definition no_empty_embedding (s : gmap jsstring stored) : Prop :=
  ∀ id r, s !! id = Some r → st_embedding r ≠ [].

(** What [scrapeWebPage] returns to [ingest]. *)
Record page := {
  pg_head : jsstring;
  pg_body : jsstring;
}.

(** [!text] for an argument that is a string or absent ([None]). *)
Definition falsy_text (text : option jsstring) : bool :=
  match text with
  | None => true
  | Some [] => true
  | Some (_ :: _) => false
  end.

(** [!embedding || embedding.length === 0]. *)
Definition empty_embedding (embedding : list float) : bool :=
  match embedding with
  | [] => true
  | _ :: _ => false
  end.

(** [results?.metadatas?.[0] || []]. *)
Definition metadatas_or_empty (results : option (list metadata)) : list metadata :=
  match results with
  | Some l => l
  | None => []
  end.

(** The filter of [part_001]: [e.trim() !== '' && !!e]. *)
Definition nonblank (e : jsstring) : Prop := trim e ≠ [] ∧ truthy e.

#[global] Instance nonblank_dec (e : jsstring) : Decision (nonblank e).
Proof. unfold nonblank. apply _. Defined.

(** ** [src/index.js] *)

Module IndexJs.

Definition scrapeWebPage (env : Env) (url : jsstring) : M page :=
  try_catch
    (emit (Console (LogScraping url)) ;;;
     r <- page_load env url ;;
     let '(head, body) := r in
     if bool_decide (body = []) || (length (trim body) <? 50)%nat
     then throw (Error (str "Scraped content is too short or empty."))
     else
       emit (Console LogScrapeSuccess) ;;;
       ret {| pg_head := head; pg_body := trim (replace_ws body) |})
    (fun error => emit (Console (LogScrapeError error)) ;;; throw error).

Definition generateVectorEmbeddings (env : Env) (text : jsstring) : M (list float) :=
  emit (EmbedContent text) ;;;
  match embedContent env text with
  | Some values => ret values
  | None => emit (Console LogEmbeddingError) ;;; ret []
  end.

Definition insertIntoDB (id : jsstring) (embedding : list float)
    (url body head : jsstring) : M unit :=
  if empty_embedding embedding then ret tt
  else collection_add id embedding {| md_url := url; md_head := head; md_body := body |}.

(** [chunkSize] defaults to 500 when the argument is left out; [ingest], the
    only caller, passes 500.  There is no check of the arguments. *)
Definition chunkText (fuel : nat) (text : option jsstring) (chunkSize : Z)
    : outcome (list jsstring) :=
  match text with
  | None => Throw TypeError
  | Some t => chunkText_loop fuel (split_ws t) chunkSize 0 []
  end.

(** The loop of [ingest] from index [i] on; [rest] holds [bodyChunks[i]],
    [bodyChunks[i+1]], ... *)
Fixpoint ingest_loop (env : Env) (url head : jsstring) (i : nat) (rest : list jsstring)
    : M unit :=
  match rest with
  | [] => ret tt
  | chunk :: rest' =>
      let chunkId := chunkId url i in
      bodyEmbedding <- generateVectorEmbeddings env chunk ;;
      insertIntoDB chunkId bodyEmbedding url chunk head ;;;
      ingest_loop env url head (S i) rest'
  end.

Definition ingest (fuel : nat) (env : Env) (url : jsstring) : M unit :=
  emit (Console (LogIngesting url)) ;;;
  try_catch
    (p <- scrapeWebPage env url ;;
     bodyChunks <- lift (chunkText fuel (Some (pg_body p)) 500) ;;
     ingest_loop env url (pg_head p) 0 bodyChunks ;;;
     emit (Console (LogIngested url)))
    (fun _ => emit (Console (LogIngestFailed url))).

Definition build_prompt (question : jsstring) (urls bodies : list jsstring) : jsstring :=
  [LF] ++ str "You are an AI agent." ++ [LF]
  ++ str "Based on the context, answer the user." ++ [LF] ++ [LF]
  ++ str "Query: " ++ question ++ [LF]
  ++ str "URL(s): " ++ join (str ", ") urls ++ [LF]
  ++ str "Context:" ++ [LF]
  ++ str "---" ++ [LF]
  ++ join ([LF] ++ str "---" ++ [LF]) bodies ++ [LF]
  ++ str "---" ++ [LF]
  ++ str "Answer:".

Definition extract_bodies (metadatas : list metadata) : list jsstring :=
  filter truthy (md_body <$> metadatas).

Definition extract_urls (metadatas : list metadata) : list jsstring :=
  new_Set (md_url <$> metadatas).

Definition chat (env : Env) (question : jsstring) : M unit :=
  emit (Console (LogQuery question)) ;;;
  questionEmbedding <- generateVectorEmbeddings env question ;;
  results <- collection_query env 3 questionEmbedding ;;
  let metadatas := metadatas_or_empty results in
  if (length metadatas =? 0)%nat
  then emit (Console LogNoContext)
  else
    let bodies := extract_bodies metadatas in
    let urls := extract_urls metadatas in
    response <- model_generateContent env (PromptText (build_prompt question urls bodies)) ;;
    emit (Console (LogAnswer response)).

End IndexJs.

(** ** [src/unnamed/part_000] *)

Module Part000.

(** No check of the length of the body here. *)
Definition scrapeWebPage (env : Env) (url : jsstring) : M page :=
  r <- page_load env url ;;
  let '(pageHead, pageBody) := r in
  ret {| pg_head := pageHead; pg_body := trim (replace_ws pageBody) |}.

Definition generateVectorEmbeddings (env : Env) (text : jsstring) : M (list float) :=
  emit (EmbedContent text) ;;;
  match embedContent env text with
  | Some values => ret values
  | None => emit (Console LogEmbeddingError) ;;; ret []
  end.

Definition insertIntoDB (id : jsstring) (embedding : list float)
    (url body head : jsstring) : M unit :=
  if empty_embedding embedding then emit (Console (LogSkippedEmpty id))
  else collection_add id embedding {| md_url := url; md_head := head; md_body := body |}.

Definition chunkText (fuel : nat) (text : option jsstring) (chunkSize : Z)
    : outcome (list jsstring) :=
  if falsy_text text || (chunkSize <=? 0)
  then Throw (Error (str "Invalid input text"))
  else
    match text with
    | None => Throw TypeError
    | Some t => chunkText_loop fuel (split_ws t) chunkSize 0 []
    end.

Fixpoint ingest_loop (env : Env) (url head : jsstring) (n i : nat) (rest : list jsstring)
    : M unit :=
  match rest with
  | [] => ret tt
  | chunk :: rest' =>
      let chunkId := chunkId url i in
      emit (Console (LogEmbeddingChunk (i + 1) n)) ;;;
      bodyEmbedding <- generateVectorEmbeddings env chunk ;;
      insertIntoDB chunkId bodyEmbedding url chunk head ;;;
      ingest_loop env url head n (S i) rest'
  end.

Definition ingest (fuel : nat) (env : Env) (url : jsstring) : M unit :=
  emit (Console (LogIngesting url)) ;;;
  try_catch
    (p <- scrapeWebPage env url ;;
     bodyChunks <- lift (chunkText fuel (Some (pg_body p)) 1000) ;;
     emit (Console (LogFoundChunks (length bodyChunks))) ;;;
     ingest_loop env url (pg_head p) (length bodyChunks) 0 bodyChunks ;;;
     emit (Console (LogIngested url)))
    (fun _ => emit (Console (LogIngestFailed url))).

Definition build_prompt (question : jsstring) (urls bodies : list jsstring) : jsstring :=
  [LF]
  ++ str "You are an AI agent expert in providing support to users on behalf of a webpage."
  ++ [LF]
  ++ str "Given the page content, reply accordingly. Answer the user's query based *only* on the retrieved context."
  ++ [LF]
  ++ str "If the context is not sufficient to answer, say so." ++ [LF] ++ [LF]
  ++ str "Query: " ++ question ++ [LF]
  ++ str "URL(s): " ++ join (str ", ") urls ++ [LF]
  ++ str "Retrieved Context:" ++ [LF]
  ++ str "---" ++ [LF]
  ++ join ([LF] ++ str "---" ++ [LF]) bodies ++ [LF]
  ++ str "---" ++ [LF]
  ++ str "Answer:".

Definition extract_bodies (metadatas : list metadata) : list jsstring :=
  filter truthy (md_body <$> metadatas).

Definition extract_urls (metadatas : list metadata) : list jsstring :=
  new_Set (md_url <$> metadatas).

Definition chat (env : Env) (question : jsstring) : M unit :=
  emit (Console (LogQuery question)) ;;;
  questionEmbedding <- generateVectorEmbeddings env question ;;
  results <- collection_query env 3 questionEmbedding ;;
  let metadatas := metadatas_or_empty results in
  if (length metadatas =? 0)%nat
  then emit (Console LogNoContext)
  else
    let Bodyresponse := extract_bodies metadatas in
    let urlresponse := extract_urls metadatas in
    emit (Console (LogTopUrls urlresponse)) ;;;
    response <- model_generateContent env (PromptText (build_prompt question urlresponse Bodyresponse)) ;;
    emit (Console (LogAnswer response)).

End Part000.

(** ** [src/unnamed/part_001] *)

Module Part001.

Definition scrapeWebPage (env : Env) (url : jsstring) : M page :=
  r <- page_load env url ;;
  let '(pageHead, pageBody) := r in
  ret {| pg_head := pageHead; pg_body := pageBody |}.

Definition generateVectorEmbeddings (env : Env) (text : jsstring) : M (list float) :=
  emit (EmbedContent text) ;;;
  match embedContent env text with
  | Some values => ret values
  | None => emit (Console LogEmbeddingError) ;;; ret []
  end.

(** The record's id is the URL itself. *)
Definition insertIntoDB (embedding : list float) (url body head : jsstring) : M unit :=
  if empty_embedding embedding then emit (Console (LogSkippedEmpty url))
  else collection_add url embedding {| md_url := url; md_head := head; md_body := body |}.

Definition chunkText (fuel : nat) (text : option jsstring) (chunkSize : Z)
    : outcome (list jsstring) :=
  if falsy_text text || (chunkSize <=? 0)
  then Throw (Error (str "Invalid input text"))
  else
    match text with
    | None => Throw TypeError
    | Some t => chunkText_loop fuel (split_ws t) chunkSize 0 []
    end.

Fixpoint ingest_loop (env : Env) (url head : jsstring) (bodyChunks : list jsstring) : M unit :=
  match bodyChunks with
  | [] => ret tt
  | chunk :: rest =>
      bodyEmbedding <- generateVectorEmbeddings env chunk ;;
      insertIntoDB bodyEmbedding url chunk head ;;;
      ingest_loop env url head rest
  end.

(** No [try]: what [scrapeWebPage] or [chunkText] throws leaves [ingest]. *)
Definition ingest (fuel : nat) (env : Env) (url : jsstring) : M unit :=
  emit (Console (LogIngesting url)) ;;;
  p <- scrapeWebPage env url ;;
  bodyChunks <- lift (chunkText fuel (Some (pg_body p)) 1000) ;;
  ingest_loop env url (pg_head p) bodyChunks ;;;
  emit (Console (LogIngested url)).

Definition extract_bodies (metadatas : list metadata) : list jsstring :=
  filter nonblank (md_body <$> metadatas).

Definition extract_urls (metadatas : list metadata) : list jsstring :=
  filter nonblank (md_url <$> metadatas).

Definition build_messages (question : jsstring) (urls bodies : list jsstring)
    : list (jsstring * jsstring) :=
  [ (str "system",
     str "You are an AI agent expert in providing support to users on behalf of a webpage. Given the page content, reply accordingly.");
    (str "user",
     str "Query: " ++ question ++ [LF] ++ [LF]
     ++ str "URL: " ++ join (str ", ") urls ++ [LF] ++ [LF]
     ++ str "Retrieved Context: " ++ join (str ", ") bodies) ].

(** No check of an empty result: [results.metadatas[0].map] throws a
    [TypeError] when the reply holds no [metadatas[0]], and an empty list
    goes on to the model. *)
Definition chat (env : Env) (question : jsstring) : M unit :=
  emit (Console (LogQuery question)) ;;;
  questionEmbedding <- generateVectorEmbeddings env question ;;
  results <- collection_query env 3 questionEmbedding ;;
  match results with
  | None => throw TypeError
  | Some metadatas =>
      let Bodyresponse := extract_bodies metadatas in
      let urlresponse := extract_urls metadatas in
      emit (Console (LogTopUrls urlresponse)) ;;;
      response <- model_generateContent env
                    (PromptMessages (build_messages question urlresponse Bodyresponse)) ;;
      emit (Console (LogAnswer response))
  end.

End Part001.

(** ** Readings of the program, for its properties *)

(** A piece without white space. *)
Definition ws_free (s : jsstring) : Prop := Forall (λ c, is_ws c = false) s.

(** The world [w] after the events [t]. *)
Definition log (w : world) (t : list event) : world :=
  {| store := store w; trace := trace w ++ t |}.

(** What [generateVectorEmbeddings] returns for a text, and the events of
    the call. *)
Definition embedding_of (env : Env) (text : jsstring) : list float :=
  match embedContent env text with
  | Some values => values
  | None => []
  end.

Definition embed_events (env : Env) (text : jsstring) : list event :=
  EmbedContent text ::
  match embedContent env text with
  | Some _ => []
  | None => [Console LogEmbeddingError]
  end.

(** The record [ingest] stores for a chunk, and the write it makes for the
    chunk of index [i]: none when the embedding is empty. *)
Definition chunk_metadata (url head chunk : jsstring) : metadata :=
  {| md_url := url; md_head := head; md_body := chunk |}.

Definition chunk_record (env : Env) (url head chunk : jsstring) : stored :=
  {| st_embedding := embedding_of env chunk;
     st_metadata := chunk_metadata url head chunk |}.

Definition chunk_write (env : Env) (url head : jsstring) (i : nat) (chunk : jsstring)
    : option event :=
  if empty_embedding (embedding_of env chunk) then None
  else Some (CollectionAdd (url ++ str "-chunk-" ++ number_toString i)
               (embedding_of env chunk) (chunk_metadata url head chunk)).

(** The records the loop of [ingest] writes from the index [i] on (a later
    write to an id wins), and its events, in [index.js]. *)
Fixpoint loop_writes (env : Env) (url head : jsstring) (i : nat) (rest : list jsstring)
    : gmap jsstring stored :=
  match rest with
  | [] => ∅
  | chunk :: rest' =>
      loop_writes env url head (S i) rest'
      ∪ (if empty_embedding (embedding_of env chunk) then ∅
         else {[ chunkId url i := chunk_record env url head chunk ]})
  end.

Fixpoint loop_events (env : Env) (url head : jsstring) (i : nat) (rest : list jsstring)
    : list event :=
  match rest with
  | [] => []
  | chunk :: rest' =>
      embed_events env chunk
      ++ option_list (chunk_write env url head i chunk)
      ++ loop_events env url head (S i) rest'
  end.

(** What [scrapeWebPage] of [index.js] makes of a loaded page. *)
Definition too_short (body : jsstring) : bool :=
  bool_decide (body = []) || (length (trim body) <? 50)%nat.

Definition scraped (env : Env) (url : jsstring) : exn + page :=
  match load env url with
  | LoadError e => inl e
  | Loaded head body =>
      if too_short body
      then inl (Error (str "Scraped content is too short or empty."))
      else inr {| pg_head := head; pg_body := trim (replace_ws body) |}
  end.

(** The URLs of a list in the order of their first occurrence. *)
Fixpoint first_seen (l : list jsstring) : list jsstring :=
  match l with
  | [] => []
  | x :: l' => x :: filter (λ y, y ≠ x) (first_seen l')
  end.

(** The events [t] happened between the worlds [w] and [w']. *)
Definition since (w w' : world) (t : list event) : Prop := trace w' = trace w ++ t.

(** The reports of [ingest] among the events: success or failure of a URL. *)
Definition is_report (e : event) : bool :=
  match e with
  | Console (LogIngested _) | Console (LogIngestFailed _) => true
  | _ => false
  end.

Definition reports (t : list event) : list event := List.filter is_report t.

Definition is_embed (e : event) : bool :=
  match e with EmbedContent _ => true | _ => false end.

Definition embed_calls (t : list event) : nat := length (List.filter is_embed t).

(** A computation keeps a property of the store. *)
Definition preserves {A : Type} (P : gmap jsstring stored → Prop) (m : M A) : Prop :=
  ∀ w, P (store w) → P (store (m w).2).

(** ** Collaborators to run the program with *)

Definition empty_world : world := {| store := ∅; trace := [] |}.

Definition sample_body : jsstring :=
  str "The quick brown fox jumps over the lazy dog near the river bank today".

(** Every page loads; the embedding model fails on texts that start with
    [!] and answers a vector for the others; the store answers with all its
    records' metadata, whatever the query. *)
Definition sample_env : Env :=
  {| load := λ url, Loaded (str "Title") sample_body;
     embedContent := λ text,
       match text with
       | 33%N :: _ => None
       | _ => Some [1%float; 0%float]
       end;
     query := λ s _ _, Some ((st_metadata ∘ snd) <$> map_to_list s);
     generateContent := λ _, str "answer" |}.

(** No page loads. *)
Definition offline_env : Env :=
  {| load := λ url, LoadError (Error (str "net::ERR_CONNECTION_REFUSED"));
     embedContent := λ _, Some [1%float];
     query := λ _ _ _, Some [];
     generateContent := λ _, str "answer" |}.

(** The embedding model is down. *)
Definition no_embedding_env : Env :=
  {| load := λ url, Loaded (str "Title") sample_body;
     embedContent := λ _, None;
     query := λ s _ _, Some ((st_metadata ∘ snd) <$> map_to_list s);
     generateContent := λ _, str "answer" |}.

(** A page whose body is a single word. *)
Definition short_page_env : Env :=
  {| load := λ url, Loaded (str "Title") (str "  Hello  ");
     embedContent := λ _, Some [1%float];
     query := λ _ _ _, Some [];
     generateContent := λ _, str "answer" |}.

(** A store with the one chunk of the sample page, and an empty trace. *)
Definition stocked_world : world :=
  {| store := store (IndexJs.ingest 20 sample_env (str "https://example.com") empty_world).2;
     trace := [] |}.

(** A record whose body is a single space. *)
Definition blank_metadata : metadata :=
  {| md_url := str "https://example.com"; md_head := str "Title"; md_body := [SPACE] |}.

(** Unfold the monad and flatten the traces. *)
Ltac run_monad :=
  unfold collection_add, collection_query, model_generateContent;
  unfold bind, ret, throw, lift, try_catch, emit, log;
  cbn [fst snd store trace];
  rewrite <- ?app_assoc; cbn [app].


(** ** Further readings of the program *)

(** A word: a piece that is not empty and holds no white space. *)
Definition is_word (piece : jsstring) : Prop := piece ≠ [] ∧ ws_free piece.

(** A text that neither starts nor ends with white space. *)
Definition starts_clean (s : jsstring) : Prop := ∀ c, head s = Some c → is_ws c = false.
Definition ends_clean (s : jsstring) : Prop := ∀ c, last s = Some c → is_ws c = false.

(** A text of white space only. *)
Definition all_ws (s : jsstring) : Prop := Forall (λ c, is_ws c = true) s.

(** Every white space of the text is a single space between two other code
    units, or a single space at its start or end. *)
Fixpoint spaced (after_ws : bool) (s : jsstring) : Prop :=
  match s with
  | [] => True
  | c :: s' =>
      if is_ws c then c = SPACE ∧ after_ws = false ∧ spaced true s'
      else spaced false s'
  end.

(** [String.prototype.startsWith]. *)
Fixpoint startsWith (s searchString : jsstring) {struct searchString} : bool :=
  match searchString with
  | [] => true
  | p :: searchString' =>
      match s with
      | [] => false
      | c :: s' => (c =? p)%N && startsWith s' searchString'
      end
  end.

(** The links [scrapeWebPage] of [part_000] and [part_001] collects from the
    [href] attributes of the anchors ([None]: an anchor without the
    attribute), in document order:
    [if (!link || link === "/") return;
     if (link.startsWith("http") || link.startsWith("https")) externalLinks.add(link);
     else internalLinks.add(link);]
    and [Array.from] of the two sets at the end. *)
Record links := {
  internalLinks : list jsstring;
  externalLinks : list jsstring;
}.

Definition add_link (acc : links) (href : option jsstring) : links :=
  match href with
  | None => acc
  | Some link =>
      if bool_decide (link = []) || bool_decide (link = str "/") then acc
      else if startsWith link (str "http") || startsWith link (str "https")
      then {| internalLinks := internalLinks acc;
              externalLinks := Set_add (externalLinks acc) link |}
      else {| internalLinks := Set_add (internalLinks acc) link;
              externalLinks := externalLinks acc |}
  end.

Definition collect_links (hrefs : list (option jsstring)) : links :=
  foldl add_link {| internalLinks := []; externalLinks := [] |} hrefs.

(** The chunks the embedding model answers a vector for. *)
Definition embedded (env : Env) (chunk : jsstring) : Prop := embedding_of env chunk ≠ [].

#[global] Instance embedded_dec (env : Env) (chunk : jsstring) : Decision (embedded env chunk).
Proof. unfold embedded. apply _. Defined.

(** The events of the loop of [ingest] in [part_000]. *)
Fixpoint Part000_loop_events (env : Env) (url head : jsstring) (n i : nat)
    (rest : list jsstring) : list event :=
  match rest with
  | [] => []
  | chunk :: rest' =>
      [Console (LogEmbeddingChunk (i + 1) n)]
      ++ embed_events env chunk
      ++ (if empty_embedding (embedding_of env chunk)
          then [Console (LogSkippedEmpty (chunkId url i))]
          else [CollectionAdd (chunkId url i) (embedding_of env chunk)
                  (chunk_metadata url head chunk)])
      ++ Part000_loop_events env url head n (S i) rest'
  end.

(** A page of three words, and a page of white space only. *)
Definition three_words : jsstring := str "alpha beta gamma".

Definition blank_page_env : Env :=
  {| load := λ url, Loaded (str "Title") (str "   ");
     embedContent := λ _, Some [1%float];
     query := λ _ _ _, Some [];
     generateContent := λ _, str "answer" |}.

(** The store replies nothing at all to a query. *)
Definition no_reply_env : Env :=
  {| load := λ url, Loaded (str "Title") sample_body;
     embedContent := λ _, Some [1%float];
     query := λ _ _ _, None;
     generateContent := λ _, str "answer" |}.

(** ** The limit on the length of an array

    An array holds at most [2^32 - 1] elements, and an engine may give up
    before; [capacity] is the length up to which [chunks] can grow.  A
    [push] onto an array of that length throws
    [RangeError: Invalid array length]. *)

Definition MAX_ARRAY_LENGTH : Z := 4294967295.

Module Bounded.

Fixpoint chunkText_loop (capacity : Z) (fuel : nat) (words : list jsstring)
    (chunkSize i : Z) (chunks : list jsstring) : outcome (list jsstring) :=
  match fuel with
  | O => OutOfFuel
  | S fuel' =>
      if i <? Z.of_nat (length words)
      then
        if Z.of_nat (length chunks) <? capacity
        then chunkText_loop capacity fuel' words chunkSize (i + chunkSize)
               (chunks ++ [join [SPACE] (slice words i (i + chunkSize))])
        else Throw RangeError
      else Ok chunks
  end.

(** [chunkText] of [index.js]. *)
Definition IndexJs_chunkText (capacity : Z) (fuel : nat) (text : option jsstring)
    (chunkSize : Z) : outcome (list jsstring) :=
  match text with
  | None => Throw TypeError
  | Some t => chunkText_loop capacity fuel (split_ws t) chunkSize 0 []
  end.

(** [chunkText] of [part_000] and [part_001]. *)
Definition Part000_chunkText (capacity : Z) (fuel : nat) (text : option jsstring)
    (chunkSize : Z) : outcome (list jsstring) :=
  if falsy_text text || (chunkSize <=? 0)
  then Throw (Error (str "Invalid input text"))
  else
    match text with
    | None => Throw TypeError
    | Some t => chunkText_loop capacity fuel (split_ws t) chunkSize 0 []
    end.

End Bounded.

(** The words of a text proper: the pieces of [text.split(/\s+/)] that are
    not empty. *)
Definition countWords (text : jsstring) : Z :=
  Z.of_nat (length (filter (λ piece : jsstring, piece ≠ []) (split_ws text))).

(** ** A store that may reject a write

    The calls [insertIntoDB] makes to the store, [getOrCreateCollection] and
    [collection.add], are awaited: the store may reject them (the service is
    down, or it refuses the record).  [rejects id] is the error a write under
    [id] is rejected with, if any; a rejected write throws it and leaves the
    store, and the list of the writes made, as they were. *)
Definition collection_add_or_reject (rejects : jsstring → option exn)
    (id : jsstring) (embedding : list float) (md : metadata) : M unit :=
  match rejects id with
  | Some e => throw e
  | None => collection_add id embedding md
  end.

(** [insertIntoDB] and [ingest] of [index.js] over such a store. *)
Module Rejecting.

Definition insertIntoDB (rejects : jsstring → option exn) (id : jsstring)
    (embedding : list float) (url body head : jsstring) : M unit :=
  if empty_embedding embedding then ret tt
  else collection_add_or_reject rejects id embedding
         {| md_url := url; md_head := head; md_body := body |}.

Fixpoint ingest_loop (rejects : jsstring → option exn) (env : Env) (url head : jsstring)
    (i : nat) (rest : list jsstring) : M unit :=
  match rest with
  | [] => ret tt
  | chunk :: rest' =>
      let chunkId := chunkId url i in
      bodyEmbedding <- IndexJs.generateVectorEmbeddings env chunk ;;
      insertIntoDB rejects chunkId bodyEmbedding url chunk head ;;;
      ingest_loop rejects env url head (S i) rest'
  end.

Definition ingest (rejects : jsstring → option exn) (fuel : nat) (env : Env)
    (url : jsstring) : M unit :=
  emit (Console (LogIngesting url)) ;;;
  try_catch
    (p <- IndexJs.scrapeWebPage env url ;;
     bodyChunks <- lift (IndexJs.chunkText fuel (Some (pg_body p)) 500) ;;
     ingest_loop rejects env url (pg_head p) 0 bodyChunks ;;;
     emit (Console (LogIngested url)))
    (fun _ => emit (Console (LogIngestFailed url))).

End Rejecting.

(** The first chunk, from the index [i] on, whose write the store rejects:
    how many chunks the loop handles before it, the chunk, and the error.
    A chunk with an empty embedding is not written, so not rejected. *)
Fixpoint first_rejected (rejects : jsstring → option exn) (env : Env) (url : jsstring)
    (i : nat) (rest : list jsstring) : option (nat * jsstring * exn) :=
  match rest with
  | [] => None
  | chunk :: rest' =>
      match (if empty_embedding (embedding_of env chunk) then None
             else rejects (chunkId url i)) with
      | Some e => Some (0%nat, chunk, e)
      | None =>
          match first_rejected rejects env url (S i) rest' with
          | Some (j, c, e) => Some (S j, c, e)
          | None => None
          end
      end
  end.

(** A store that takes every write, and a store that is down. *)
Definition accepts_all : jsstring → option exn := λ _, None.

Definition store_down : jsstring → option exn :=
  λ _, Some (Error (str "Failed to connect to chromadb")).

(** A store that kept the second chunk of a former, longer version of the
    page [u]. *)
Definition stale_record : stored :=
  {| st_embedding := [1%float; 0%float];
     st_metadata :=
       chunk_metadata (str "u") (str "Title") (str "the end of the former page") |}.

Definition stale_world : world :=
  {| store := {[ chunkId (str "u") 1 := stale_record ]}; trace := [] |}.
(** * Properties *)

(** ** Strings and arrays *)

Lemma split_go_length (b : bool) (acc s : jsstring) :
  (0 < length (split_go b acc s))%nat.
Proof.
  revert b acc. induction s as [|c s IH]; intros b acc; simpl; [lia|].
  destruct (is_ws c); [destruct b|]; simpl; auto with lia.
Qed.

Lemma split_ws_nonempty (text : jsstring) : split_ws text ≠ [].
Proof.
  unfold split_ws. pose proof (split_go_length false [] text) as H.
  destruct (split_go false [] text); simpl in H; [lia|discriminate].
Qed.

Lemma join_cons (sep x : jsstring) (rest : list jsstring) :
  rest ≠ [] → join sep (x :: rest) = x ++ sep ++ join sep rest.
Proof. destruct rest; [congruence|reflexivity]. Qed.

Lemma join_app (sep : jsstring) (l1 l2 : list jsstring) :
  l1 ≠ [] → l2 ≠ [] → join sep (l1 ++ l2) = join sep l1 ++ sep ++ join sep l2.
Proof.
  intros H1 H2. induction l1 as [|x l1 IH]; [congruence|].
  destruct l1 as [|y l1].
  - simpl app. rewrite join_cons by assumption. reflexivity.
  - change ((x :: y :: l1) ++ l2) with (x :: (y :: l1) ++ l2).
    rewrite join_cons by discriminate. rewrite IH by discriminate.
    rewrite (join_cons sep x (y :: l1)) by discriminate.
    rewrite <- !app_assoc. reflexivity.
Qed.

(** Joining the joined groups is joining all the words. *)
Lemma join_groups (sep : jsstring) (gs : list (list jsstring)) :
  Forall (λ g, g ≠ []) gs → join sep (join sep <$> gs) = join sep (concat gs).
Proof.
  induction 1 as [|g gs Hg Hgs IH]; [reflexivity|].
  destruct gs as [|g' gs].
  - simpl. rewrite app_nil_r. reflexivity.
  - change (join sep <$> g :: g' :: gs) with (join sep g :: (join sep <$> g' :: gs)).
    rewrite join_cons by discriminate. rewrite IH.
    change (concat (g :: g' :: gs)) with (g ++ concat (g' :: gs)).
    rewrite join_app; [reflexivity|assumption|].
    inversion Hgs as [|? ? Hg' _]; subst. simpl. destruct g'; [congruence|discriminate].
Qed.

(** Splitting on white space and joining with single spaces collapses every
    run of white space to one space, and changes nothing else. *)
Lemma join_split_go (b : bool) (acc s : jsstring) :
  join [SPACE] (split_go b acc s) = acc ++ replace_go b s.
Proof.
  revert b acc. induction s as [|c s IH]; intros b acc; simpl.
  - rewrite app_nil_r. reflexivity.
  - destruct (is_ws c).
    + destruct b; [apply IH|].
      rewrite join_cons.
      * rewrite IH. reflexivity.
      * pose proof (split_go_length true [] s) as H.
        destruct (split_go true [] s); simpl in H; [lia|discriminate].
    + rewrite IH. rewrite <- app_assoc. reflexivity.
Qed.

Lemma join_split_ws (text : jsstring) :
  join [SPACE] (split_ws text) = replace_ws text.
Proof. unfold split_ws, replace_ws. apply join_split_go. Qed.


Lemma split_go_ws_free (b : bool) (acc x r : jsstring) :
  ws_free x →
  split_go b acc (x ++ r) = split_go (b && bool_decide (x = [])) (acc ++ x) r.
Proof.
  intros Hx. revert b acc. induction Hx as [|c x Hc Hx IH]; intros b acc.
  - simpl. rewrite app_nil_r, andb_true_r. reflexivity.
  - simpl. rewrite Hc, IH. rewrite andb_false_r. simpl.
    rewrite <- app_assoc. reflexivity.
Qed.

Lemma split_go_pieces_ws_free (b : bool) (acc s : jsstring) :
  ws_free acc → Forall ws_free (split_go b acc s).
Proof.
  revert b acc. induction s as [|c s IH]; intros b acc Hacc; simpl.
  - repeat constructor. assumption.
  - destruct (is_ws c) eqn:Hc.
    + destruct b; [apply IH; assumption|].
      constructor; [assumption|]. apply IH. constructor.
    + apply IH. apply Forall_app. split; [assumption|]. repeat constructor. assumption.
Qed.

Lemma split_ws_pieces_ws_free (text : jsstring) : Forall ws_free (split_ws text).
Proof. apply split_go_pieces_ws_free. constructor. Qed.

Lemma is_ws_SPACE : is_ws SPACE = true.
Proof. reflexivity. Qed.

(** Reading back a joined group finds at most as many words as were joined. *)
Lemma split_go_join_length (g : list jsstring) :
  g ≠ [] → Forall ws_free g →
  ∀ b acc, (length (split_go b acc (join [SPACE] g)) ≤ length g)%nat.
Proof.
  intros Hne Hg. induction Hg as [|x g Hx Hg IH]; [congruence|].
  intros b acc. destruct g as [|y g].
  - simpl join. rewrite <- (app_nil_r x). rewrite split_go_ws_free by assumption.
    simpl. lia.
  - rewrite join_cons by discriminate.
    rewrite split_go_ws_free by assumption.
    change ([SPACE] ++ join [SPACE] (y :: g)) with (SPACE :: join [SPACE] (y :: g)).
    cbn [split_go]. rewrite is_ws_SPACE.
    destruct (b && bool_decide (x = [])).
    + specialize (IH ltac:(discriminate) true (acc ++ x)). simpl length in *. lia.
    + specialize (IH ltac:(discriminate) true []). simpl length in *. lia.
Qed.

(** [slice] between two indexes of the array, or past its end. *)
Lemma slice_take_drop {A} (l : list A) (k : nat) (n : Z) :
  0 < n → (k < length l)%nat →
  slice l (Z.of_nat k) (Z.of_nat k + n) = take (Z.to_nat n) (drop k l).
Proof.
  intros Hn Hk. unfold slice, rel_index.
  destruct (Z.ltb_spec (Z.of_nat k) 0); [lia|].
  destruct (Z.ltb_spec (Z.of_nat k + n) 0); [lia|].
  replace (Z.to_nat (Z.min (Z.of_nat k) (Z.of_nat (length l)))) with k by lia.
  destruct (Z.le_gt_cases (Z.of_nat k + n) (Z.of_nat (length l))).
  - f_equal. lia.
  - rewrite !take_ge; [reflexivity| |]; rewrite length_drop; lia.
Qed.

(** ** The chunker *)

Lemma ceil_div_spec (a b k : Z) :
  0 < b → (ceil_div a b = k ↔ b * (k - 1) < a ≤ b * k).
Proof.
  intros Hb. unfold ceil_div. split.
  - intros <-. pose proof (Z.div_mod (a + b - 1) b ltac:(lia)).
    pose proof (Z.mod_pos_bound (a + b - 1) b Hb). nia.
  - intros H. symmetry. apply (Z.div_unique _ _ _ (a + b - 1 - b * k)); lia.
Qed.

Lemma ceil_div_step (a b : Z) :
  0 < b → 0 < a → ceil_div a b = 1 + ceil_div (Z.max 0 (a - b)) b.
Proof.
  intros Hb Ha. apply ceil_div_spec; [assumption|].
  pose proof (proj1 (ceil_div_spec (Z.max 0 (a - b)) b _ Hb) eq_refl) as H.
  destruct (Z.le_gt_cases a b).
  - replace (Z.max 0 (a - b)) with 0 in * by lia.
    assert (ceil_div 0 b = 0) as ->; [|lia].
    apply ceil_div_spec; lia.
  - replace (Z.max 0 (a - b)) with (a - b) in * by lia. nia.
Qed.

(** From the index [k] on, with fuel for every window, the loop returns the
    chunks it was given followed by the joined windows of the words left;
    the windows have between 1 and [n] words each. *)
Lemma chunkText_loop_windows (words : list jsstring) (n : Z) :
  0 < n →
  ∀ (fuel k : nat) (chunks : list jsstring),
    (length (drop k words) < fuel)%nat →
    ∃ gs : list (list jsstring),
      chunkText_loop fuel words n (Z.of_nat k) chunks = Ok (chunks ++ (join [SPACE] <$> gs))
      ∧ concat gs = drop k words
      ∧ Forall (λ g, g ≠ [] ∧ Z.of_nat (length g) ≤ n) gs
      ∧ Z.of_nat (length gs) = ceil_div (Z.of_nat (length (drop k words))) n.
Proof.
  intros Hn. induction fuel as [|fuel IH]; intros k chunks Hfuel; [lia|].
  rewrite length_drop in Hfuel. cbn [chunkText_loop].
  destruct (Z.ltb_spec (Z.of_nat k) (Z.of_nat (length words))) as [Hk|Hk].
  - rewrite slice_take_drop by lia.
    replace (Z.of_nat k + n) with (Z.of_nat (k + Z.to_nat n)) by lia.
    destruct (IH (k + Z.to_nat n)%nat
                (chunks ++ [join [SPACE] (take (Z.to_nat n) (drop k words))]))
      as (gs & Hrun & Hcat & Hall & Hlen).
    { rewrite length_drop. lia. }
    exists (take (Z.to_nat n) (drop k words) :: gs). split; [|split; [|split]].
    + rewrite Hrun, <- app_assoc. reflexivity.
    + simpl. rewrite Hcat, <- drop_drop. apply take_drop.
    + constructor; [|assumption]. split.
      * intros Hnil. apply (f_equal length) in Hnil.
        rewrite length_take, length_drop in Hnil. simpl in Hnil. lia.
      * rewrite length_take. lia.
    + simpl length. rewrite Nat2Z.inj_succ, Hlen, !length_drop.
      rewrite (ceil_div_step (Z.of_nat (length words - k)) n) by lia.
      replace (Z.max 0 (Z.of_nat (length words - k) - n))
        with (Z.of_nat (length words - (k + Z.to_nat n))) by lia.
      lia.
  - exists []. rewrite drop_ge by lia. simpl. rewrite app_nil_r.
    repeat split; [constructor|]. symmetry. apply ceil_div_spec; lia.
Qed.

(** More fuel does not change what the loop returns. *)
Lemma chunkText_loop_fuel_mono (words : list jsstring) (n : Z) (fuel fuel' : nat) :
  (fuel ≤ fuel')%nat →
  ∀ i chunks r,
    chunkText_loop fuel words n i chunks = Ok r →
    chunkText_loop fuel' words n i chunks = Ok r.
Proof.
  revert fuel'. induction fuel as [|fuel IH]; intros fuel' Hle i chunks r; [discriminate|].
  destruct fuel' as [|fuel']; [lia|]. cbn [chunkText_loop].
  destruct (i <? Z.of_nat (length words)); [|auto]. apply IH. lia.
Qed.

Lemma chunkText_windows (text : jsstring) (n : Z) :
  0 < n →
  ∃ gs : list (list jsstring),
    (∀ fuel, (length (split_ws text) < fuel)%nat →
       chunkText_loop fuel (split_ws text) n 0 [] = Ok (join [SPACE] <$> gs))
    ∧ concat gs = split_ws text
    ∧ Forall (λ g, g ≠ [] ∧ Z.of_nat (length g) ≤ n) gs
    ∧ Z.of_nat (length gs) = ceil_div (wordCount text) n.
Proof.
  intros Hn.
  destruct (chunkText_loop_windows (split_ws text) n Hn (S (length (split_ws text))) 0 [])
    as (gs & Hrun & Hcat & Hall & Hlen); [rewrite length_drop; lia|].
  rewrite drop_0 in Hcat, Hlen.
  exists gs. split; [|auto].
  intros fuel Hfuel.
  apply (chunkText_loop_fuel_mono _ _ (S (length (split_ws text)))); [lia|exact Hrun].
Qed.

Lemma falsy_text_Some (text : jsstring) : text ≠ [] → falsy_text (Some text) = false.
Proof. destruct text; [congruence|reflexivity]. Qed.

(** With a text that is not empty and a positive chunk size the check of
    [part_000] and [part_001] passes, and the three versions run the same
    loop. *)
Lemma chunkText_versions_agree (fuel : nat) (text : jsstring) (n : Z) :
  text ≠ [] → 0 < n →
  Part000.chunkText fuel (Some text) n = IndexJs.chunkText fuel (Some text) n
  ∧ Part001.chunkText fuel (Some text) n = IndexJs.chunkText fuel (Some text) n.
Proof.
  intros Ht Hn. unfold Part000.chunkText, Part001.chunkText, IndexJs.chunkText.
  rewrite falsy_text_Some by assumption.
  destruct (Z.leb_spec n 0); [lia|]. split; reflexivity.
Qed.

Example chunkText_six_words :
  IndexJs.chunkText 7 (Some (str "to be  or not to be")) 4
  = Ok [str "to be or not"; str "to be"].
Proof. vm_compute. reflexivity. Qed.

(** A text that starts or ends with white space has an empty first or last
    piece, which takes a place in a window like any word. *)
Example chunkText_leading_space :
  IndexJs.chunkText 4 (Some (str " a b")) 2 = Ok [str " a"; str "b"]
  ∧ wordCount (str " a b") = 3
  ∧ replace_ws (str " a b") = str " a b".
Proof. vm_compute. repeat split; reflexivity. Qed.

(** The check of [part_000] and [part_001]: an empty or absent text, or a
    chunk size that is not positive, throws before the loop is entered. *)
Lemma Part000_chunkText_invalid_input (fuel : nat) (text : option jsstring) (chunkSize : Z) :
  falsy_text text = true ∨ chunkSize ≤ 0 →
  Part000.chunkText fuel text chunkSize = Throw (Error (str "Invalid input text"))
  ∧ Part001.chunkText fuel text chunkSize = Throw (Error (str "Invalid input text")).
Proof.
  intros H. unfold Part000.chunkText, Part001.chunkText.
  assert (falsy_text text || (chunkSize <=? 0) = true) as ->; [|auto].
  destruct H as [->|H]; [reflexivity|].
  apply orb_true_iff. right. apply Z.leb_le. exact H.
Qed.

(** ** Running the program *)

Lemma log_log (w : world) (t1 t2 : list event) : log (log w t1) t2 = log w (t1 ++ t2).
Proof. unfold log. simpl. rewrite <- app_assoc. reflexivity. Qed.

Lemma log_nil (w : world) : log w [] = w.
Proof. destruct w. unfold log. simpl. rewrite app_nil_r. reflexivity. Qed.

Lemma emit_run (e : event) (w : world) : emit e w = (Ok tt, log w [e]).
Proof. reflexivity. Qed.

Lemma since_log (w : world) (t : list event) : since w (log w t) t.
Proof. reflexivity. Qed.

Lemma generateVectorEmbeddings_run (env : Env) (text : jsstring) (w : world) :
  IndexJs.generateVectorEmbeddings env text w
  = (Ok (embedding_of env text), log w (embed_events env text))
  ∧ Part000.generateVectorEmbeddings env text w
    = (Ok (embedding_of env text), log w (embed_events env text))
  ∧ Part001.generateVectorEmbeddings env text w
    = (Ok (embedding_of env text), log w (embed_events env text)).
Proof.
  unfold IndexJs.generateVectorEmbeddings, Part000.generateVectorEmbeddings,
    Part001.generateVectorEmbeddings, embedding_of, embed_events.
  destruct (embedContent env text); run_monad; auto.
Qed.

Lemma empty_embedding_nil (embedding : list float) :
  empty_embedding embedding = true ↔ embedding = [].
Proof. destruct embedding; simpl; split; congruence. Qed.

Lemma scrapeWebPage_run (env : Env) (url : jsstring) (w : world) :
  IndexJs.scrapeWebPage env url w
  = match scraped env url with
    | inl e =>
        (Throw e,
         log w [Console (LogScraping url); PageLoad url; Console (LogScrapeError e)])
    | inr p =>
        (Ok p, log w [Console (LogScraping url); PageLoad url; Console LogScrapeSuccess])
    end.
Proof.
  unfold IndexJs.scrapeWebPage, scraped, too_short, page_load.
  destruct (load env url) as [e|head body]; run_monad.
  - reflexivity.
  - destruct (bool_decide (body = []) || (length (trim body) <? 50)%nat);
      run_monad; reflexivity.
Qed.

(** The loop of [ingest] returns; it leaves its writes over the store it
    found and its events after the trace it found. *)
Lemma ingest_loop_run (env : Env) (url head : jsstring) (rest : list jsstring) :
  ∀ (i : nat) (w : world),
    IndexJs.ingest_loop env url head i rest w
    = (Ok tt,
       {| store := loop_writes env url head i rest ∪ store w;
          trace := trace w ++ loop_events env url head i rest |}).
Proof.
  induction rest as [|chunk rest IH]; intros i w.
  - simpl. unfold ret. rewrite (left_id_L ∅ (∪)), app_nil_r. destruct w; reflexivity.
  - cbn [IndexJs.ingest_loop loop_writes loop_events]. unfold bind at 1.
    destruct (generateVectorEmbeddings_run env chunk w) as [-> _].
    unfold bind at 1. unfold IndexJs.insertIntoDB, chunk_write.
    destruct (empty_embedding (embedding_of env chunk)).
    + unfold ret. rewrite IH. simpl. rewrite (right_id_L ∅ (∪)), <- app_assoc.
      reflexivity.
    + unfold collection_add. rewrite IH. simpl.
      rewrite insert_union_singleton_l, (assoc_L (∪)), <- !app_assoc.
      reflexivity.
Qed.

(** ** What keeps a property of the store *)

Section Preserves.
Context (P : gmap jsstring stored → Prop).

Lemma preserves_ret {A} (a : A) : preserves P (ret a).
Proof. intros w H. exact H. Qed.

Lemma preserves_throw {A} (e : exn) : preserves P (@throw A e).
Proof. intros w H. exact H. Qed.

Lemma preserves_lift {A} (o : outcome A) : preserves P (lift o).
Proof. intros w H. exact H. Qed.

Lemma preserves_emit (e : event) : preserves P (emit e).
Proof. intros w H. exact H. Qed.

Lemma preserves_bind {A B} (m : M A) (k : A → M B) :
  preserves P m → (∀ a, preserves P (k a)) → preserves P (bind m k).
Proof.
  intros Hm Hk w H. unfold bind. specialize (Hm w H).
  destruct (m w) as [[a|e|] w']; simpl in *; [apply Hk|..]; assumption.
Qed.

Lemma preserves_try_catch {A} (body : M A) (handler : exn → M A) :
  preserves P body → (∀ e, preserves P (handler e)) → preserves P (try_catch body handler).
Proof.
  intros Hm Hk w H. unfold try_catch. specialize (Hm w H).
  destruct (body w) as [[a|e|] w']; simpl in *; [|apply Hk|]; assumption.
Qed.

Lemma preserves_page_load (env : Env) (url : jsstring) : preserves P (page_load env url).
Proof.
  unfold page_load. apply preserves_bind; [apply preserves_emit|]. intros _.
  destruct (load env url); [apply preserves_throw|apply preserves_ret].
Qed.

Lemma preserves_collection_query (env : Env) (n : Z) (e : list float) :
  preserves P (collection_query env n e).
Proof. intros w H. exact H. Qed.

Lemma preserves_model (env : Env) (p : prompt) : preserves P (model_generateContent env p).
Proof.
  unfold model_generateContent. apply preserves_bind; [apply preserves_emit|].
  intros _. apply preserves_ret.
Qed.

End Preserves.

Create HintDb preserves.

#[local] Hint Resolve preserves_ret preserves_throw preserves_lift preserves_emit
  preserves_page_load preserves_collection_query preserves_model : preserves.

(** ** The store holds no empty embedding *)

Lemma no_empty_embedding_insert (s : gmap jsstring stored) (id : jsstring) (r : stored) :
  st_embedding r ≠ [] → no_empty_embedding s → no_empty_embedding (<[id := r]> s).
Proof.
  intros Hr Hs id' r' Hlook. destruct (decide (id = id')) as [->|Hne].
  - rewrite lookup_insert_eq in Hlook. congruence.
  - rewrite lookup_insert_ne in Hlook by assumption. eauto.
Qed.

Lemma collection_add_keeps (id : jsstring) (embedding : list float) (md : metadata) :
  embedding ≠ [] → preserves no_empty_embedding (collection_add id embedding md).
Proof. intros He w H. simpl. apply no_empty_embedding_insert; assumption. Qed.

Lemma generateVectorEmbeddings_keeps (P : gmap jsstring stored → Prop)
    (env : Env) (text : jsstring) :
  preserves P (IndexJs.generateVectorEmbeddings env text)
  ∧ preserves P (Part000.generateVectorEmbeddings env text)
  ∧ preserves P (Part001.generateVectorEmbeddings env text).
Proof.
  unfold IndexJs.generateVectorEmbeddings, Part000.generateVectorEmbeddings,
    Part001.generateVectorEmbeddings.
  destruct (embedContent env text); repeat split;
    (apply preserves_bind; [auto with preserves|intros _]); auto with preserves;
    (apply preserves_bind; [auto with preserves|intros _]); auto with preserves.
Qed.

Lemma insertIntoDB_keeps (id url body head : jsstring) (embedding : list float) :
  preserves no_empty_embedding (IndexJs.insertIntoDB id embedding url body head)
  ∧ preserves no_empty_embedding (Part000.insertIntoDB id embedding url body head)
  ∧ preserves no_empty_embedding (Part001.insertIntoDB embedding url body head).
Proof.
  unfold IndexJs.insertIntoDB, Part000.insertIntoDB, Part001.insertIntoDB.
  destruct embedding as [|x embedding]; simpl.
  - repeat split; auto with preserves.
  - repeat split; apply collection_add_keeps; discriminate.
Qed.

Lemma IndexJs_scrapeWebPage_keeps (P : gmap jsstring stored → Prop)
    (env : Env) (url : jsstring) :
  preserves P (IndexJs.scrapeWebPage env url).
Proof.
  unfold IndexJs.scrapeWebPage.
  apply preserves_try_catch.
  - apply preserves_bind; [auto with preserves|intros _].
    apply preserves_bind; [auto with preserves|intros [head body]].
    destruct (_ || _); [auto with preserves|].
    apply preserves_bind; [auto with preserves|intros _]. auto with preserves.
  - intros e. apply preserves_bind; [auto with preserves|intros _]. auto with preserves.
Qed.

Lemma HttpScraper_keeps (P : gmap jsstring stored → Prop) (env : Env) (url : jsstring) :
  preserves P (Part000.scrapeWebPage env url)
  ∧ preserves P (Part001.scrapeWebPage env url).
Proof.
  unfold Part000.scrapeWebPage, Part001.scrapeWebPage.
  split; (apply preserves_bind; [auto with preserves|intros [head body]]);
    auto with preserves.
Qed.

Lemma IndexJs_ingest_loop_keeps (env : Env) (url head : jsstring) (rest : list jsstring) :
  ∀ i, preserves no_empty_embedding (IndexJs.ingest_loop env url head i rest).
Proof.
  induction rest as [|chunk rest IH]; intros i; simpl; [auto with preserves|].
  apply preserves_bind; [apply generateVectorEmbeddings_keeps|]. intros emb.
  apply preserves_bind; [apply insertIntoDB_keeps|]. intros _. apply IH.
Qed.

Lemma Part000_ingest_loop_keeps (env : Env) (url head : jsstring) (n : nat)
    (rest : list jsstring) :
  ∀ i, preserves no_empty_embedding (Part000.ingest_loop env url head n i rest).
Proof.
  induction rest as [|chunk rest IH]; intros i; simpl; [auto with preserves|].
  apply preserves_bind; [auto with preserves|intros _].
  apply preserves_bind; [apply generateVectorEmbeddings_keeps|]. intros emb.
  apply preserves_bind; [apply insertIntoDB_keeps|]. intros _. apply IH.
Qed.

Lemma Part001_ingest_loop_keeps (env : Env) (url head : jsstring) (rest : list jsstring) :
  preserves no_empty_embedding (Part001.ingest_loop env url head rest).
Proof.
  induction rest as [|chunk rest IH]; simpl; [auto with preserves|].
  apply preserves_bind; [apply generateVectorEmbeddings_keeps|]. intros emb.
  apply preserves_bind; [apply (insertIntoDB_keeps [] url chunk head emb)|].
  intros _. apply IH.
Qed.

Lemma ingest_keeps (fuel : nat) (env : Env) (url : jsstring) :
  preserves no_empty_embedding (IndexJs.ingest fuel env url)
  ∧ preserves no_empty_embedding (Part000.ingest fuel env url)
  ∧ preserves no_empty_embedding (Part001.ingest fuel env url).
Proof.
  unfold IndexJs.ingest, Part000.ingest, Part001.ingest. split; [|split].
  - apply preserves_bind; [auto with preserves|intros _].
    apply preserves_try_catch; [|auto with preserves].
    apply preserves_bind; [apply IndexJs_scrapeWebPage_keeps|intros p].
    apply preserves_bind; [auto with preserves|intros chunks].
    apply preserves_bind; [apply IndexJs_ingest_loop_keeps|intros _].
    auto with preserves.
  - apply preserves_bind; [auto with preserves|intros _].
    apply preserves_try_catch; [|auto with preserves].
    apply preserves_bind; [apply HttpScraper_keeps|intros p].
    apply preserves_bind; [auto with preserves|intros chunks].
    apply preserves_bind; [auto with preserves|intros _].
    apply preserves_bind; [apply Part000_ingest_loop_keeps|intros _].
    auto with preserves.
  - apply preserves_bind; [auto with preserves|intros _].
    apply preserves_bind; [apply HttpScraper_keeps|intros p].
    apply preserves_bind; [auto with preserves|intros chunks].
    apply preserves_bind; [apply Part001_ingest_loop_keeps|intros _].
    auto with preserves.
Qed.

(** [chat] writes nothing to the store. *)
Lemma chat_keeps (P : gmap jsstring stored → Prop) (env : Env) (question : jsstring) :
  preserves P (IndexJs.chat env question)
  ∧ preserves P (Part000.chat env question)
  ∧ preserves P (Part001.chat env question).
Proof.
  unfold IndexJs.chat, Part000.chat, Part001.chat. split; [|split].
  - apply preserves_bind; [auto with preserves|intros _].
    apply preserves_bind; [apply generateVectorEmbeddings_keeps|intros emb].
    apply preserves_bind; [auto with preserves|intros results].
    destruct (_ =? _)%nat; [auto with preserves|].
    apply preserves_bind; [auto with preserves|intros response]. auto with preserves.
  - apply preserves_bind; [auto with preserves|intros _].
    apply preserves_bind; [apply generateVectorEmbeddings_keeps|intros emb].
    apply preserves_bind; [auto with preserves|intros results].
    destruct (_ =? _)%nat; [auto with preserves|].
    apply preserves_bind; [auto with preserves|intros _].
    apply preserves_bind; [auto with preserves|intros response]. auto with preserves.
  - apply preserves_bind; [auto with preserves|intros _].
    apply preserves_bind; [apply generateVectorEmbeddings_keeps|intros emb].
    apply preserves_bind; [auto with preserves|intros results].
    destruct results; [|auto with preserves].
    apply preserves_bind; [auto with preserves|intros _].
    apply preserves_bind; [auto with preserves|intros response]. auto with preserves.
Qed.

Lemma no_empty_embedding_empty : no_empty_embedding ∅.
Proof. intros id r H. rewrite lookup_empty in H. discriminate. Qed.

Lemma embedding_of_empty (env : Env) (text : jsstring) :
  embedContent env text = None ∨ embedContent env text = Some [] →
  embedding_of env text = [].
Proof. unfold embedding_of. intros [-> | ->]; reflexivity. Qed.

Lemma store_writes_embed_events (env : Env) (text : jsstring) :
  store_writes (embed_events env text) = 0%nat.
Proof. unfold embed_events. destruct (embedContent env text); reflexivity. Qed.

(** C4: the store never comes to hold a record with an empty embedding.
    From a store without one, [ingest] (in [index.js] and in [part_000]) and
    [chat] leave a store without one; and for a chunk whose embedding call
    fails or returns an empty vector, the body of the loop of [ingest]
    returns with the store as it found it and without a write to the
    collection. *)
Theorem store_never_holds_empty_embedding (fuel : nat) (env : Env) (url : jsstring)
    (w : world) :
  no_empty_embedding (store w) →
  no_empty_embedding (store (IndexJs.ingest fuel env url w).2)
  ∧ no_empty_embedding (store (Part000.ingest fuel env url w).2)
  ∧ (∀ question, no_empty_embedding (store (IndexJs.chat env question w).2))
  ∧ (∀ (i : nat) (head chunk : jsstring),
       embedContent env chunk = None ∨ embedContent env chunk = Some [] →
       ∃ t t0 : list event,
         (bodyEmbedding <- IndexJs.generateVectorEmbeddings env chunk ;;
          IndexJs.insertIntoDB (chunkId url i) bodyEmbedding url chunk head) w
         = (Ok tt, log w t)
         ∧ store_writes t = 0%nat
         ∧ (bodyEmbedding <- Part000.generateVectorEmbeddings env chunk ;;
            Part000.insertIntoDB (chunkId url i) bodyEmbedding url chunk head) w
           = (Ok tt, log w t0)
         ∧ store_writes t0 = 0%nat).
Proof.
  intros Hw. split; [|split; [|split]].
  - apply ingest_keeps. exact Hw.
  - apply ingest_keeps. exact Hw.
  - intros question. apply chat_keeps. exact Hw.
  - intros i head chunk Hemb. apply embedding_of_empty in Hemb.
    exists (embed_events env chunk),
      (embed_events env chunk ++ [Console (LogSkippedEmpty (chunkId url i))]).
    unfold bind.
    destruct (generateVectorEmbeddings_run env chunk w) as (-> & -> & _).
    rewrite Hemb. unfold IndexJs.insertIntoDB, Part000.insertIntoDB.
    change (empty_embedding []) with true. cbv beta iota.
    rewrite emit_run, log_log.
    unfold store_writes. rewrite List.filter_app, length_app.
    fold (store_writes (embed_events env chunk)).
    rewrite store_writes_embed_events. auto.
Qed.

Lemma store_never_holds_empty_embedding_witness :
  no_empty_embedding
    (store (IndexJs.ingest 20 no_embedding_env (str "https://example.com") empty_world).2)
  ∧ no_empty_embedding
      (store (Part000.ingest 20 no_embedding_env (str "https://example.com") empty_world).2)
  ∧ (∀ question,
       no_empty_embedding (store (IndexJs.chat no_embedding_env question empty_world).2))
  ∧ (∀ (i : nat) (head chunk : jsstring),
       embedContent no_embedding_env chunk = None
       ∨ embedContent no_embedding_env chunk = Some [] →
       ∃ t t0 : list event,
         (bodyEmbedding <- IndexJs.generateVectorEmbeddings no_embedding_env chunk ;;
          IndexJs.insertIntoDB (chunkId (str "https://example.com") i) bodyEmbedding
            (str "https://example.com") chunk head) empty_world
         = (Ok tt, log empty_world t)
         ∧ store_writes t = 0%nat
         ∧ (bodyEmbedding <- Part000.generateVectorEmbeddings no_embedding_env chunk ;;
            Part000.insertIntoDB (chunkId (str "https://example.com") i) bodyEmbedding
              (str "https://example.com") chunk head) empty_world
           = (Ok tt, log empty_world t0)
         ∧ store_writes t0 = 0%nat).
Proof.
  apply (store_never_holds_empty_embedding 20 no_embedding_env
           (str "https://example.com") empty_world).
  exact no_empty_embedding_empty.
Defined.

(** With the embedding model down, [ingest] stores nothing. *)
Example ingest_skips_every_chunk :
  store (IndexJs.ingest 20 no_embedding_env (str "https://example.com") empty_world).2 = ∅
  ∧ (IndexJs.ingest 20 no_embedding_env (str "https://example.com") empty_world).1 = Ok tt.
Proof. vm_compute. split; reflexivity. Qed.

(** ** [ingest] in [index.js] *)

Lemma IndexJs_ingest_run (fuel : nat) (env : Env) (url : jsstring) (w : world) :
  IndexJs.ingest fuel env url w
  = match scraped env url with
    | inl e =>
        (Ok tt,
         log w [Console (LogIngesting url); Console (LogScraping url); PageLoad url;
                Console (LogScrapeError e); Console (LogIngestFailed url)])
    | inr p =>
        match IndexJs.chunkText fuel (Some (pg_body p)) 500 with
        | Ok chunks =>
            (Ok tt,
             {| store := loop_writes env url (pg_head p) 0 chunks ∪ store w;
                trace := trace w
                         ++ [Console (LogIngesting url); Console (LogScraping url);
                             PageLoad url; Console LogScrapeSuccess]
                         ++ loop_events env url (pg_head p) 0 chunks
                         ++ [Console (LogIngested url)] |})
        | Throw e =>
            (Ok tt,
             log w [Console (LogIngesting url); Console (LogScraping url); PageLoad url;
                    Console LogScrapeSuccess; Console (LogIngestFailed url)])
        | OutOfFuel =>
            (OutOfFuel,
             log w [Console (LogIngesting url); Console (LogScraping url); PageLoad url;
                    Console LogScrapeSuccess])
        end
    end.
Proof.
  unfold IndexJs.ingest. unfold bind at 1. rewrite emit_run.
  unfold try_catch. unfold bind at 1. rewrite scrapeWebPage_run.
  destruct (scraped env url) as [e|p].
  - rewrite emit_run, !log_log. reflexivity.
  - unfold bind at 1. unfold lift.
    destruct (IndexJs.chunkText fuel (Some (pg_body p)) 500) as [chunks|e|].
    + unfold bind at 1. rewrite ingest_loop_run. rewrite emit_run.
      unfold log. simpl. rewrite <- !app_assoc. reflexivity.
    + rewrite emit_run, !log_log. reflexivity.
    + rewrite !log_log. reflexivity.
Qed.

Lemma scrapeWebPage_outcome (env : Env) (url : jsstring) (w : world) :
  (IndexJs.scrapeWebPage env url w).1
  = match scraped env url with inl e => Throw e | inr p => Ok p end.
Proof. rewrite scrapeWebPage_run. destruct (scraped env url); reflexivity. Qed.

(** [ingest] passes 500 to [chunkText], which returns given fuel for its loop. *)
Lemma IndexJs_chunkText_returns (text : jsstring) (n : Z) :
  0 < n →
  ∃ chunks, ∀ fuel, (length (split_ws text) < fuel)%nat →
    IndexJs.chunkText fuel (Some text) n = Ok chunks.
Proof.
  intros Hn. destruct (chunkText_windows text n Hn) as (gs & Hrun & _).
  exists (join [SPACE] <$> gs). exact Hrun.
Qed.

Lemma reports_app (t1 t2 : list event) : reports (t1 ++ t2) = reports t1 ++ reports t2.
Proof. apply List.filter_app. Qed.

Lemma reports_embed_events (env : Env) (text : jsstring) : reports (embed_events env text) = [].
Proof. unfold embed_events. destruct (embedContent env text); reflexivity. Qed.

Lemma reports_loop_events (env : Env) (url head : jsstring) (rest : list jsstring) :
  ∀ i, reports (loop_events env url head i rest) = [].
Proof.
  induction rest as [|chunk rest IH]; intros i; [reflexivity|].
  cbn [loop_events]. rewrite !reports_app, reports_embed_events, IH.
  unfold chunk_write. destruct (empty_embedding _); reflexivity.
Qed.

(** A page that does not load: failure is reported, and the next URL is
    ingested all the same. *)
Example ingest_offline_then_next :
  reports (trace ((IndexJs.ingest 20 offline_env (str "a") ;;;
                   IndexJs.ingest 20 sample_env (str "b")) empty_world).2)
  = [Console (LogIngestFailed (str "a")); Console (LogIngested (str "b"))].
Proof. vm_compute. reflexivity. Qed.

(** In [part_001] there is no [try]: what the scraper throws leaves [ingest],
    and the [ingest] that follows does not run. *)
Example Part001_ingest_propagates :
  ((Part001.ingest 20 offline_env (str "a") ;;;
    Part001.ingest 20 sample_env (str "b")) empty_world).1
  = Throw (Error (str "net::ERR_CONNECTION_REFUSED"))
  ∧ reports (trace ((Part001.ingest 20 offline_env (str "a") ;;;
                     Part001.ingest 20 sample_env (str "b")) empty_world).2)
    = [].
Proof. vm_compute. split; reflexivity. Qed.

(** ** The scraper of [index.js] *)

Lemma length_trimStart (s : jsstring) : (length (trimStart s) ≤ length s)%nat.
Proof. induction s as [|c s IH]; simpl; [lia|]. destruct (is_ws c); simpl; lia. Qed.

Lemma length_trim (s : jsstring) : (length (trim s) ≤ length s)%nat.
Proof.
  unfold trim, trimEnd. rewrite length_reverse.
  etransitivity; [apply length_trimStart|]. rewrite length_reverse.
  apply length_trimStart.
Qed.

Lemma too_short_spec (body : jsstring) :
  (length body < 50)%nat ∨ (length (trim body) < 50)%nat → too_short body = true.
Proof.
  intros H. unfold too_short. apply orb_true_iff. right.
  apply Nat.ltb_lt. pose proof (length_trim body). lia.
Qed.

(** C9: whatever the URL, when the body of the loaded page has fewer than
    50 code units, or has fewer than 50 once trimmed, [scrapeWebPage] of
    [index.js] throws; [ingest] then reports the failure of that URL,
    without a call to the embedding model and with the store untouched. *)
Theorem scrapeWebPage_rejects_short_body (env : Env) (url head body : jsstring)
    (w : world) :
  load env url = Loaded head body →
  (length body < 50)%nat ∨ (length (trim body) < 50)%nat →
  (IndexJs.scrapeWebPage env url w).1
  = Throw (Error (str "Scraped content is too short or empty."))
  ∧ ∀ fuel, ∃ t : list event,
      IndexJs.ingest fuel env url w = (Ok tt, log w t)
      ∧ reports t = [Console (LogIngestFailed url)]
      ∧ embed_calls t = 0%nat
      ∧ store_writes t = 0%nat.
Proof.
  intros Hload Hshort. apply too_short_spec in Hshort.
  assert (scraped env url = inl (Error (str "Scraped content is too short or empty.")))
    as Hscr.
  { unfold scraped. rewrite Hload, Hshort. reflexivity. }
  split.
  - rewrite scrapeWebPage_outcome, Hscr. reflexivity.
  - intros fuel. eexists. rewrite IndexJs_ingest_run, Hscr. repeat split.
Qed.

Lemma scrapeWebPage_rejects_short_body_witness :
  (IndexJs.scrapeWebPage short_page_env (str "https://example.com") empty_world).1
  = Throw (Error (str "Scraped content is too short or empty."))
  ∧ ∀ fuel, ∃ t : list event,
      IndexJs.ingest fuel short_page_env (str "https://example.com") empty_world
      = (Ok tt, log empty_world t)
      ∧ reports t = [Console (LogIngestFailed (str "https://example.com"))]
      ∧ embed_calls t = 0%nat
      ∧ store_writes t = 0%nat.
Proof.
  apply (scrapeWebPage_rejects_short_body short_page_env (str "https://example.com")
           (str "Title") (str "  Hello  ") empty_world).
  - reflexivity.
  - left. vm_compute. lia.
Defined.

(** The scrapers of [part_000] and [part_001] have no such check: the same
    page is returned, and [part_000] ingests it. *)
Example HttpScraper_accepts_short_body :
  (Part000.scrapeWebPage short_page_env (str "u") empty_world).1
  = Ok {| pg_head := str "Title"; pg_body := str "Hello" |}
  ∧ (Part001.scrapeWebPage short_page_env (str "u") empty_world).1
    = Ok {| pg_head := str "Title"; pg_body := str "  Hello  " |}
  ∧ reports (trace (Part000.ingest 20 short_page_env (str "u") empty_world).2)
    = [Console (LogIngested (str "u"))].
Proof. vm_compute. repeat split; reflexivity. Qed.

(** ** Chunk ids and repeated ingestion *)

Lemma str_inj (s1 s2 : string) : str s1 = str s2 → s1 = s2.
Proof.
  unfold str. intros H.
  assert (Inj (=) (=) N_of_ascii) as Hinj.
  { intros a b Hab. rewrite <- (ascii_N_embedding a), <- (ascii_N_embedding b).
    congruence. }
  apply (inj (fmap N_of_ascii)) in H.
  rewrite <- (string_of_list_ascii_of_string s1), <- (string_of_list_ascii_of_string s2).
  congruence.
Qed.

Example number_toString_digits :
  number_toString 0 = str "0" ∧ number_toString 12 = str "12".
Proof. vm_compute. split; reflexivity. Qed.

Lemma number_toString_inj (i j : nat) : number_toString i = number_toString j → i = j.
Proof.
  unfold number_toString. intros H. apply str_inj in H.
  assert (Some (Nat.to_uint i) = Some (Nat.to_uint j)) as Hu.
  { rewrite <- (NilEmpty.usu (Nat.to_uint i)), <- (NilEmpty.usu (Nat.to_uint j)), H.
    reflexivity. }
  injection Hu as Hu. apply (f_equal Nat.of_uint) in Hu.
  rewrite !DecimalNat.Unsigned.of_to in Hu. exact Hu.
Qed.

(** The chunks of one URL have ids of their own. *)
Lemma chunkId_inj (url : jsstring) (i j : nat) : chunkId url i = chunkId url j → i = j.
Proof.
  unfold chunkId. intros H. apply app_inv_head in H. apply app_inv_head in H.
  apply number_toString_inj. exact H.
Qed.

Lemma loop_writes_lookup_before (env : Env) (url head : jsstring) (rest : list jsstring) :
  ∀ i k, (k < i)%nat → loop_writes env url head i rest !! chunkId url k = None.
Proof.
  induction rest as [|chunk rest IH]; intros i k Hk; cbn [loop_writes].
  - apply lookup_empty.
  - apply lookup_union_None. split; [apply IH; lia|].
    destruct (empty_embedding _); [apply lookup_empty|].
    apply lookup_singleton_ne. intros Heq. apply chunkId_inj in Heq. lia.
Qed.

Lemma loop_writes_lookup (env : Env) (url head : jsstring) (rest : list jsstring) :
  ∀ i j chunk,
    rest !! j = Some chunk → embedding_of env chunk ≠ [] →
    loop_writes env url head i rest !! chunkId url (i + j)
    = Some (chunk_record env url head chunk).
Proof.
  induction rest as [|c rest IH]; intros i j chunk Hj Hemb; [discriminate|].
  cbn [loop_writes]. destruct j as [|j].
  - injection Hj as ->. rewrite Nat.add_0_r.
    rewrite lookup_union_r by (apply loop_writes_lookup_before; lia).
    destruct (empty_embedding (embedding_of env chunk)) eqn:He.
    + apply empty_embedding_nil in He. congruence.
    + apply lookup_singleton_eq.
  - apply lookup_union_Some_l. replace (i + S j)%nat with (S i + j)%nat by lia.
    apply IH; assumption.
Qed.

Lemma adds_embed_events (env : Env) (text : jsstring) :
  List.filter is_add (embed_events env text) = [].
Proof. unfold embed_events. destruct (embedContent env text); reflexivity. Qed.

(** The writes of the loop, in order: one for each chunk with an embedding,
    under the id of the chunk's index. *)
Lemma adds_loop_events (env : Env) (url head : jsstring) (rest : list jsstring) :
  ∀ i, List.filter is_add (loop_events env url head i rest)
       = omap id (imap (λ j, chunk_write env url head (i + j)) rest).
Proof.
  induction rest as [|chunk rest IH]; intros i; [reflexivity|].
  cbn [loop_events imap omap]. rewrite !List.filter_app, adds_embed_events, IH.
  rewrite Nat.add_0_r. cbn [app id].
  assert (imap (λ j, chunk_write env url head (S i + j)) rest
          = imap ((λ j, chunk_write env url head (i + j)) ∘ S) rest) as ->.
  { apply imap_ext. intros j x _. simpl. f_equal. lia. }
  unfold chunk_write at 1 3. destruct (empty_embedding (embedding_of env chunk)); reflexivity.
Qed.

(** C5: in [index.js], when the scraper returns a page and the chunker its
    chunks, [ingest] returns, and the writes it makes to the collection are,
    in the order of the chunks, one for each chunk with an embedding, under
    the id [url + "-chunk-" + i] for the chunk of index [i] and with the
    metadata [{url, head, body: chunk}]; the store then holds that record
    under that id; and ingesting the same URL once more (same page, same
    answers of the embedding model) leaves the store as the first ingestion
    left it: the same ids with the same records, none added. *)
Theorem ingest_chunk_ids_idempotent (fuel : nat) (env : Env) (url : jsstring) (w : world)
    (p : page) (chunks : list jsstring) :
  (IndexJs.scrapeWebPage env url w).1 = Ok p →
  IndexJs.chunkText fuel (Some (pg_body p)) 500 = Ok chunks →
  let w1 := (IndexJs.ingest fuel env url w).2 in
  let w2 := (IndexJs.ingest fuel env url w1).2 in
  (IndexJs.ingest fuel env url w).1 = Ok tt
  ∧ List.filter is_add (trace w1)
    = List.filter is_add (trace w) ++ omap id (imap (chunk_write env url (pg_head p)) chunks)
  ∧ (∀ (i : nat) (chunk : jsstring),
       chunks !! i = Some chunk → embedding_of env chunk ≠ [] →
       store w1 !! (url ++ str "-chunk-" ++ number_toString i)
       = Some (chunk_record env url (pg_head p) chunk))
  ∧ store w2 = store w1
  ∧ size (store w2) = size (store w1).
Proof.
  intros Hscr Hchunks w1 w2. subst w1 w2.
  rewrite scrapeWebPage_outcome in Hscr.
  destruct (scraped env url) as [e|p'] eqn:Hp; [discriminate|]. injection Hscr as ->.
  assert (∀ w0, IndexJs.ingest fuel env url w0
            = (Ok tt,
               {| store := loop_writes env url (pg_head p) 0 chunks ∪ store w0;
                  trace := trace w0
                           ++ [Console (LogIngesting url); Console (LogScraping url);
                               PageLoad url; Console LogScrapeSuccess]
                           ++ loop_events env url (pg_head p) 0 chunks
                           ++ [Console (LogIngested url)] |})) as Hrun.
  { intros w0. rewrite IndexJs_ingest_run, Hp, Hchunks. reflexivity. }
  rewrite !Hrun. cbn [fst snd store trace].
  assert (loop_writes env url (pg_head p) 0 chunks
            ∪ (loop_writes env url (pg_head p) 0 chunks ∪ store w)
          = loop_writes env url (pg_head p) 0 chunks ∪ store w) as Hidem.
  { rewrite (assoc_L (∪)), (idemp_L (∪)). reflexivity. }
  split; [reflexivity|split; [|split; [|split]]].
  - rewrite !List.filter_app, adds_loop_events. cbn [List.filter is_add app].
    rewrite app_nil_r. reflexivity.
  - intros i chunk Hi Hemb. apply lookup_union_Some_l.
    apply (loop_writes_lookup env url (pg_head p) chunks 0 i chunk Hi Hemb).
  - exact Hidem.
  - rewrite Hidem. reflexivity.
Qed.

Lemma ingest_chunk_ids_idempotent_witness :
  let w1 := (IndexJs.ingest 20 sample_env (str "https://example.com") empty_world).2 in
  let w2 := (IndexJs.ingest 20 sample_env (str "https://example.com") w1).2 in
  (IndexJs.ingest 20 sample_env (str "https://example.com") empty_world).1 = Ok tt
  ∧ List.filter is_add (trace w1)
    = List.filter is_add (trace empty_world)
      ++ omap id (imap (chunk_write sample_env (str "https://example.com") (str "Title"))
                    [sample_body])
  ∧ (∀ (i : nat) (chunk : jsstring),
       [sample_body] !! i = Some chunk → embedding_of sample_env chunk ≠ [] →
       store w1 !! (str "https://example.com" ++ str "-chunk-" ++ number_toString i)
       = Some (chunk_record sample_env (str "https://example.com") (str "Title") chunk))
  ∧ store w2 = store w1
  ∧ size (store w2) = size (store w1).
Proof.
  apply (ingest_chunk_ids_idempotent 20 sample_env (str "https://example.com") empty_world
           {| pg_head := str "Title"; pg_body := sample_body |} [sample_body]).
  - vm_compute. reflexivity.
  - vm_compute. reflexivity.
Defined.

(** ** [chat] *)

Lemma model_calls_app (t1 t2 : list event) :
  model_calls (t1 ++ t2) = (model_calls t1 + model_calls t2)%nat.
Proof. unfold model_calls. rewrite List.filter_app, length_app. reflexivity. Qed.

Lemma model_calls_embed_events (env : Env) (text : jsstring) :
  model_calls (embed_events env text) = 0%nat.
Proof. unfold embed_events. destruct (embedContent env text); reflexivity. Qed.

Lemma queries_embed_events (env : Env) (text : jsstring) :
  List.filter is_query (embed_events env text) = [].
Proof. unfold embed_events. destruct (embedContent env text); reflexivity. Qed.

(** What [chat] does after the query, by the metadata the store replied. *)
Lemma IndexJs_chat_run (env : Env) (question : jsstring) (w : world) :
  IndexJs.chat env question w
  = (Ok tt,
     log w
       ([Console (LogQuery question)] ++ embed_events env question
        ++ [CollectionQuery 3 (embedding_of env question)]
        ++ match metadatas_or_empty (query env (store w) 3 (embedding_of env question)) with
           | [] => [Console LogNoContext]
           | metadatas =>
               let p := PromptText (IndexJs.build_prompt question
                                      (IndexJs.extract_urls metadatas)
                                      (IndexJs.extract_bodies metadatas)) in
               [GenerateContent p; Console (LogAnswer (generateContent env p))]
           end)).
Proof.
  unfold IndexJs.chat. unfold bind at 1. rewrite emit_run. unfold bind at 1.
  destruct (generateVectorEmbeddings_run env question (log w [Console (LogQuery question)]))
    as [-> _].
  unfold bind at 1. unfold collection_query. cbn [store log].
  destruct (metadatas_or_empty (query env (store w) 3 (embedding_of env question)))
    as [|md mds]; cbn [length Nat.eqb].
  - rewrite emit_run. unfold log. cbn [store trace]. rewrite <- !app_assoc. reflexivity.
  - run_monad. reflexivity.
Qed.

Lemma Part000_chat_run (env : Env) (question : jsstring) (w : world) :
  Part000.chat env question w
  = (Ok tt,
     log w
       ([Console (LogQuery question)] ++ embed_events env question
        ++ [CollectionQuery 3 (embedding_of env question)]
        ++ match metadatas_or_empty (query env (store w) 3 (embedding_of env question)) with
           | [] => [Console LogNoContext]
           | metadatas =>
               let p := PromptText (Part000.build_prompt question
                                      (Part000.extract_urls metadatas)
                                      (Part000.extract_bodies metadatas)) in
               [Console (LogTopUrls (Part000.extract_urls metadatas));
                GenerateContent p; Console (LogAnswer (generateContent env p))]
           end)).
Proof.
  unfold Part000.chat. unfold bind at 1. rewrite emit_run. unfold bind at 1.
  destruct (generateVectorEmbeddings_run env question (log w [Console (LogQuery question)]))
    as (_ & -> & _).
  unfold bind at 1. unfold collection_query. cbn [store log].
  destruct (metadatas_or_empty (query env (store w) 3 (embedding_of env question)))
    as [|md mds]; cbn [length Nat.eqb].
  - rewrite emit_run. unfold log. cbn [store trace]. rewrite <- !app_assoc. reflexivity.
  - run_monad. reflexivity.
Qed.

(** C3: when the query of the vector store returns no metadata, [chat] (in
    [index.js] and in [part_000]) logs that no context was found and
    returns; the events of the call hold the query and no call to the
    generative model. *)
Theorem chat_without_context_skips_model (env : Env) (question : jsstring) (w : world) :
  metadatas_or_empty (query env (store w) 3 (embedding_of env question)) = [] →
  ∃ t : list event,
    IndexJs.chat env question w = (Ok tt, log w t)
    ∧ Part000.chat env question w = (Ok tt, log w t)
    ∧ last t = Some (Console LogNoContext)
    ∧ store_queries t = 1%nat
    ∧ model_calls t = 0%nat.
Proof.
  intros Hempty.
  exists ([Console (LogQuery question)] ++ embed_events env question
          ++ [CollectionQuery 3 (embedding_of env question)] ++ [Console LogNoContext]).
  rewrite IndexJs_chat_run, Part000_chat_run, Hempty.
  split; [reflexivity|split; [reflexivity|split; [|split]]].
  - rewrite !app_assoc. apply last_snoc.
  - unfold store_queries. rewrite !List.filter_app, queries_embed_events. reflexivity.
  - rewrite !model_calls_app, model_calls_embed_events. reflexivity.
Qed.

Lemma chat_without_context_skips_model_witness :
  ∃ t : list event,
    IndexJs.chat sample_env (str "What is a fox?") empty_world = (Ok tt, log empty_world t)
    ∧ Part000.chat sample_env (str "What is a fox?") empty_world = (Ok tt, log empty_world t)
    ∧ last t = Some (Console LogNoContext)
    ∧ store_queries t = 1%nat
    ∧ model_calls t = 0%nat.
Proof.
  apply (chat_without_context_skips_model sample_env (str "What is a fox?") empty_world).
  vm_compute. reflexivity.
Defined.

(** [chat] of [part_001] has no such check: with an empty reply it goes on
    to the generative model. *)
Example Part001_chat_calls_model_without_context :
  query sample_env (store empty_world) 3 (embedding_of sample_env (str "What is a fox?"))
  = Some []
  ∧ (Part001.chat sample_env (str "What is a fox?") empty_world).1 = Ok tt
  ∧ model_calls (trace (Part001.chat sample_env (str "What is a fox?") empty_world).2)
    = 1%nat.
Proof. vm_compute. repeat split; reflexivity. Qed.

(** C6, as the program has it: when the embedding call for the question
    fails or returns an empty vector, [chat] (in [index.js] and in
    [part_000]) does not fail.  After the embedding call it queries the
    vector store once, for 3 results, with the empty embedding.  With an
    empty reply it logs that no context was found and returns, without a
    call to the model.  With a reply that holds context it calls the model
    once, with the prompt built from the question and the URLs and bodies of
    the reply, logs the answer of the model and returns.  These are all the
    events of the call, and the store is left as it was. *)
Theorem chat_queries_with_empty_embedding (env : Env) (question : jsstring) (w : world) :
  embedContent env question = None ∨ embedContent env question = Some [] →
  ∃ t t0 : list event,
    IndexJs.chat env question w = (Ok tt, log w t)
    ∧ Part000.chat env question w = (Ok tt, log w t0)
    ∧ List.filter is_query t = [CollectionQuery 3 []]
    ∧ List.filter is_query t0 = [CollectionQuery 3 []]
    ∧ match metadatas_or_empty (query env (store w) 3 []) with
      | [] =>
          t = [Console (LogQuery question)] ++ embed_events env question
              ++ [CollectionQuery 3 []; Console LogNoContext]
          ∧ t0 = t
          ∧ model_calls t = 0%nat
      | md :: mds =>
          let urls := IndexJs.extract_urls (md :: mds) in
          let bodies := IndexJs.extract_bodies (md :: mds) in
          let p := PromptText (IndexJs.build_prompt question urls bodies) in
          let p0 := PromptText (Part000.build_prompt question urls bodies) in
          t = [Console (LogQuery question)] ++ embed_events env question
              ++ [CollectionQuery 3 []; GenerateContent p;
                  Console (LogAnswer (generateContent env p))]
          ∧ t0 = [Console (LogQuery question)] ++ embed_events env question
                 ++ [CollectionQuery 3 []; Console (LogTopUrls urls); GenerateContent p0;
                     Console (LogAnswer (generateContent env p0))]
          ∧ model_calls t = 1%nat
          ∧ model_calls t0 = 1%nat
      end.
Proof.
  intros Hemb. apply embedding_of_empty in Hemb.
  eexists _, _. rewrite IndexJs_chat_run, Part000_chat_run, Hemb.
  split; [reflexivity|split; [reflexivity|]].
  rewrite !List.filter_app, queries_embed_events.
  rewrite !model_calls_app, model_calls_embed_events.
  destruct (metadatas_or_empty (query env (store w) 3 [])); repeat split.
Qed.

Lemma chat_queries_with_empty_embedding_witness :
  ∃ t t0 : list event,
    IndexJs.chat sample_env (str "!contact") stocked_world = (Ok tt, log stocked_world t)
    ∧ Part000.chat sample_env (str "!contact") stocked_world = (Ok tt, log stocked_world t0)
    ∧ List.filter is_query t = [CollectionQuery 3 []]
    ∧ List.filter is_query t0 = [CollectionQuery 3 []]
    ∧ match metadatas_or_empty (query sample_env (store stocked_world) 3 []) with
      | [] =>
          t = [Console (LogQuery (str "!contact"))]
              ++ embed_events sample_env (str "!contact")
              ++ [CollectionQuery 3 []; Console LogNoContext]
          ∧ t0 = t
          ∧ model_calls t = 0%nat
      | md :: mds =>
          let urls := IndexJs.extract_urls (md :: mds) in
          let bodies := IndexJs.extract_bodies (md :: mds) in
          let p := PromptText (IndexJs.build_prompt (str "!contact") urls bodies) in
          let p0 := PromptText (Part000.build_prompt (str "!contact") urls bodies) in
          t = [Console (LogQuery (str "!contact"))]
              ++ embed_events sample_env (str "!contact")
              ++ [CollectionQuery 3 []; GenerateContent p;
                  Console (LogAnswer (generateContent sample_env p))]
          ∧ t0 = [Console (LogQuery (str "!contact"))]
                 ++ embed_events sample_env (str "!contact")
                 ++ [CollectionQuery 3 []; Console (LogTopUrls urls); GenerateContent p0;
                     Console (LogAnswer (generateContent sample_env p0))]
          ∧ model_calls t = 1%nat
          ∧ model_calls t0 = 1%nat
      end.
Proof.
  apply (chat_queries_with_empty_embedding sample_env (str "!contact") stocked_world).
  left. reflexivity.
Defined.

(** C6, as the claim has it, fails: the embedding call for this question
    fails, and [chat] does not fail; it queries the store, with the empty
    embedding, and returns normally after the reply (here an empty one, so
    that it logs that no context was found). *)
Lemma chat_failed_embedding_still_queries :
  embedContent sample_env (str "!contact") = None
  ∧ (IndexJs.chat sample_env (str "!contact") empty_world).1 = Ok tt
  ∧ List.filter is_query (trace (IndexJs.chat sample_env (str "!contact") empty_world).2)
    = [CollectionQuery 3 []]
  ∧ last (trace (IndexJs.chat sample_env (str "!contact") empty_world).2)
    = Some (Console LogNoContext).
Proof. vm_compute. repeat split; reflexivity. Qed.

(** With a store that replies a record to that query, the model is called. *)
Example chat_failed_embedding_calls_model :
  (IndexJs.chat sample_env (str "!contact") stocked_world).1 = Ok tt
  ∧ List.filter is_query (trace (IndexJs.chat sample_env (str "!contact") stocked_world).2)
    = [CollectionQuery 3 []]
  ∧ model_calls (trace (IndexJs.chat sample_env (str "!contact") stocked_world).2) = 1%nat.
Proof. vm_compute. repeat split; reflexivity. Qed.

(** ** What [chat] extracts from the metadata *)

(** The bodies, in the order of the results, without the empty ones. *)
Lemma extract_bodies_spec (metadatas : list metadata) :
  IndexJs.extract_bodies metadatas = Part000.extract_bodies metadatas
  ∧ IndexJs.extract_bodies metadatas `sublist_of` (md_body <$> metadatas)
  ∧ ∀ b, b ∈ IndexJs.extract_bodies metadatas ↔ b ∈ md_body <$> metadatas ∧ b ≠ [].
Proof.
  unfold IndexJs.extract_bodies, Part000.extract_bodies.
  split; [reflexivity|split].
  - apply sublist_filter.
  - intros b. rewrite list_elem_of_filter. unfold truthy. tauto.
Qed.

Lemma foldl_Set_add (l : list jsstring) :
  ∀ seen, foldl Set_add seen l = seen ++ filter (λ y, y ∉ seen) (first_seen l).
Proof.
  induction l as [|x l IH]; intros seen; cbn [foldl first_seen].
  - rewrite filter_nil, app_nil_r. reflexivity.
  - rewrite IH. unfold Set_add. destruct (bool_decide_reflect (x ∈ seen)) as [Hin|Hnotin].
    + rewrite filter_cons_False by tauto. f_equal.
      rewrite list_filter_filter. apply list_filter_iff.
      intros y. split; [|tauto]. intros Hy. split; [assumption|congruence].
    + rewrite filter_cons_True by assumption. rewrite <- app_assoc. cbn [app].
      do 2 f_equal. rewrite list_filter_filter. apply list_filter_iff.
      intros y. rewrite not_elem_of_app, list_elem_of_singleton. tauto.
Qed.

(** [[...new Set(l)]] is [l] without the later occurrences of its elements. *)
Lemma new_Set_first_seen (l : list jsstring) : new_Set l = first_seen l.
Proof.
  unfold new_Set. rewrite foldl_Set_add. cbn [app].
  induction (first_seen l) as [|x l' IH]; [reflexivity|].
  rewrite filter_cons_True by apply not_elem_of_nil. f_equal. exact IH.
Qed.

Lemma first_seen_elem_of (l : list jsstring) (x : jsstring) : x ∈ first_seen l ↔ x ∈ l.
Proof.
  induction l as [|y l IH]; [reflexivity|]. cbn [first_seen].
  rewrite !elem_of_cons, list_elem_of_filter, IH.
  destruct (decide (x = y)); tauto.
Qed.

Lemma first_seen_NoDup (l : list jsstring) : NoDup (first_seen l).
Proof.
  induction l as [|y l IH]; cbn [first_seen]; constructor.
  - rewrite list_elem_of_filter. tauto.
  - apply NoDup_filter. exact IH.
Qed.

(** The URLs, each once, in the order of their first occurrence. *)
Lemma extract_urls_spec (metadatas : list metadata) :
  IndexJs.extract_urls metadatas = first_seen (md_url <$> metadatas)
  ∧ Part000.extract_urls metadatas = first_seen (md_url <$> metadatas)
  ∧ NoDup (IndexJs.extract_urls metadatas)
  ∧ ∀ u, u ∈ IndexJs.extract_urls metadatas ↔ u ∈ md_url <$> metadatas.
Proof.
  unfold IndexJs.extract_urls, Part000.extract_urls. rewrite new_Set_first_seen.
  repeat split; try apply first_seen_NoDup; apply first_seen_elem_of.
Qed.

Example extract_urls_twice :
  IndexJs.extract_urls
    [ {| md_url := str "b"; md_head := []; md_body := str "one" |};
      {| md_url := str "a"; md_head := []; md_body := [] |};
      {| md_url := str "b"; md_head := []; md_body := str "three" |} ]
  = [str "b"; str "a"]
  ∧ IndexJs.extract_bodies
      [ {| md_url := str "b"; md_head := []; md_body := str "one" |};
        {| md_url := str "a"; md_head := []; md_body := [] |};
        {| md_url := str "b"; md_head := []; md_body := str "three" |} ]
    = [str "one"; str "three"].
Proof. vm_compute. split; reflexivity. Qed.

(** C7, on [index.js] and [part_000]: a body of white space only is not
    empty, so [filter(Boolean)] keeps it among the bodies; the filter of
    [part_001], which trims first, drops it. *)
Theorem extract_bodies_keeps_blank :
  trim (md_body blank_metadata) = []
  ∧ IndexJs.extract_bodies [blank_metadata] = [[SPACE]]
  ∧ Part000.extract_bodies [blank_metadata] = [[SPACE]]
  ∧ Part001.extract_bodies [blank_metadata] = [].
Proof. vm_compute. repeat split; reflexivity. Qed.

(** [part_001] lists the URLs as they come, with their repetitions. *)
Example Part001_extract_urls_repeats :
  Part001.extract_urls [blank_metadata; blank_metadata]
  = [str "https://example.com"; str "https://example.com"].
Proof. vm_compute. reflexivity. Qed.

(** ** Words of a trimmed text *)

Lemma split_go_words (s : jsstring) :
  ∀ (b : bool) (acc : jsstring),
    (s = [] → acc ≠ [] ∧ b = false) →
    (∀ c, last s = Some c → is_ws c = false) →
    (b = false → acc = [] → ∃ c, head s = Some c ∧ is_ws c = false) →
    Forall (λ piece, piece ≠ []) (split_go b acc s).
Proof.
  induction s as [|c s IH]; intros b acc Hnil Hlast Hhead; cbn [split_go].
  - destruct Hnil as [Hacc _]; [reflexivity|]. repeat constructor. exact Hacc.
  - assert (is_ws c = true → s ≠ []) as Hmore.
    { intros Hc ->. specialize (Hlast c eq_refl). congruence. }
    assert (∀ c', last s = Some c' → is_ws c' = false) as Hlast'.
    { intros c' Hc'. apply Hlast. destruct s; [discriminate|exact Hc']. }
    destruct (is_ws c) eqn:Hc.
    + assert (Forall (λ piece, piece ≠ []) (split_go true [] s)) as Hrest.
      { apply IH; [intros ->; exfalso; apply Hmore; reflexivity|exact Hlast'|discriminate]. }
      destruct b.
      * apply IH; [intros ->; exfalso; apply Hmore; reflexivity|exact Hlast'|discriminate].
      * constructor; [|exact Hrest].
        intros ->. destruct (Hhead eq_refl eq_refl) as (c' & Hc' & Hws).
        injection Hc' as <-. congruence.
    + apply IH; [|exact Hlast'|].
      * intros _. split; [|reflexivity]. intros Heq. destruct acc; discriminate.
      * intros _ Heq. destruct acc; discriminate.
Qed.

(** A text that is not empty and neither starts nor ends with white space
    (as the scrapers of [index.js] and [part_000] return it, trimmed) splits
    into words that are not empty and hold no white space. *)
Lemma split_ws_trimmed (text : jsstring) :
  text ≠ [] →
  (∀ c, head text = Some c → is_ws c = false) →
  (∀ c, last text = Some c → is_ws c = false) →
  Forall (λ piece, piece ≠ [] ∧ ws_free piece) (split_ws text).
Proof.
  intros Hne Hhead Hlast. apply Forall_and. split.
  - apply split_go_words; [congruence|exact Hlast|].
    intros _ _. destruct text as [|c text]; [congruence|]. exists c. split; [reflexivity|].
    apply Hhead. reflexivity.
  - apply split_ws_pieces_ws_free.
Qed.

(** * Further properties *)

(** ** Trimming *)

Lemma trimStart_split (s : jsstring) : ∃ d, s = d ++ trimStart s ∧ all_ws d.
Proof.
  induction s as [|c s (d & Hd & Hws)]; [exists []; split; [reflexivity|constructor]|].
  simpl. destruct (is_ws c) eqn:Hc.
  - exists (c :: d). split; [simpl; congruence|constructor; assumption].
  - exists []. split; [reflexivity|constructor].
Qed.

Lemma trimStart_starts_clean (s : jsstring) : starts_clean (trimStart s).
Proof.
  induction s as [|c s IH]; intros c' Hc'; [discriminate|].
  simpl in Hc'. destruct (is_ws c) eqn:Hc; [apply IH; exact Hc'|].
  injection Hc' as <-. exact Hc.
Qed.

Lemma trimStart_id (s : jsstring) : starts_clean s → trimStart s = s.
Proof.
  destruct s as [|c s]; [reflexivity|]. intros H. simpl.
  rewrite (H c eq_refl). reflexivity.
Qed.

Lemma trimEnd_split (s : jsstring) : ∃ d, s = trimEnd s ++ d ∧ all_ws d.
Proof.
  unfold trimEnd. destruct (trimStart_split (reverse s)) as (d & Hd & Hws).
  exists (reverse d). split.
  - rewrite <- reverse_app, <- Hd, reverse_involutive. reflexivity.
  - unfold all_ws. apply Forall_reverse. exact Hws.
Qed.

Lemma trimEnd_ends_clean (s : jsstring) : ends_clean (trimEnd s).
Proof.
  unfold trimEnd. intros c Hc. rewrite last_reverse in Hc.
  exact (trimStart_starts_clean _ c Hc).
Qed.

Lemma trimEnd_id (s : jsstring) : ends_clean s → trimEnd s = s.
Proof.
  intros H. unfold trimEnd. rewrite trimStart_id; [apply reverse_involutive|].
  intros c Hc. apply H. rewrite <- (reverse_involutive s), last_reverse. exact Hc.
Qed.

Lemma all_ws_head (s : jsstring) : all_ws s → starts_clean s → s = [].
Proof.
  intros Hws Hclean. destruct s as [|c s]; [reflexivity|].
  inversion Hws as [|? ? Hc _]; subst. specialize (Hclean c eq_refl). congruence.
Qed.

Lemma trimEnd_starts_clean (s : jsstring) : starts_clean s → starts_clean (trimEnd s).
Proof.
  intros Hs. destruct (trimEnd_split s) as (d & Hd & _).
  destruct (trimEnd s) as [|c t] eqn:Ht; [intros c Hc; discriminate|].
  intros c' Hc'. apply Hs. rewrite Hd. exact Hc'.
Qed.

(** A trimmed text neither starts nor ends with white space, and it is empty
    exactly when the text is white space only. *)
Lemma trim_clean (s : jsstring) : starts_clean (trim s) ∧ ends_clean (trim s).
Proof.
  unfold trim. split; [|apply trimEnd_ends_clean].
  apply trimEnd_starts_clean, trimStart_starts_clean.
Qed.

Lemma trim_empty_iff (s : jsstring) : trim s = [] ↔ all_ws s.
Proof.
  unfold trim. split.
  - intros H. destruct (trimStart_split s) as (d & Hd & Hws).
    destruct (trimEnd_split (trimStart s)) as (d' & Hd' & Hws').
    rewrite H in Hd'. simpl in Hd'.
    rewrite Hd, Hd'. apply Forall_app. split; assumption.
  - intros H. destruct (trimStart_split s) as (d & Hd & _).
    assert (trimStart s = []) as ->.
    { apply all_ws_head; [|apply trimStart_starts_clean].
      rewrite Hd in H. apply Forall_app in H. apply H. }
    reflexivity.
Qed.

Lemma trim_id (s : jsstring) : starts_clean s → ends_clean s → trim s = s.
Proof.
  intros Hs He. unfold trim. rewrite (trimStart_id s Hs). apply trimEnd_id. exact He.
Qed.

(** ** Collapsing white space *)

Lemma spaced_weaken (s : jsstring) : spaced true s → spaced false s.
Proof. destruct s as [|c s]; [trivial|]. simpl. destruct (is_ws c); [|trivial]. intros (_ & ? & _). discriminate. Qed.

Lemma replace_go_spaced (s : jsstring) : ∀ b, spaced b (replace_go b s).
Proof.
  induction s as [|c s IH]; intros b; cbn [replace_go]; [exact I|].
  destruct (is_ws c) eqn:Hc.
  - destruct b; [apply IH|]. cbn [spaced]. rewrite is_ws_SPACE. auto.
  - cbn [spaced]. rewrite Hc. apply IH.
Qed.

Lemma replace_go_fixed (s : jsstring) : ∀ b, spaced b s → replace_go b s = s.
Proof.
  induction s as [|c s IH]; intros b; simpl; [reflexivity|].
  destruct (is_ws c).
  - intros (-> & -> & Hs). f_equal. apply IH. exact Hs.
  - intros Hs. f_equal. apply IH. exact Hs.
Qed.

Lemma spaced_app_l (s1 s2 : jsstring) : ∀ b, spaced b (s1 ++ s2) → spaced b s1.
Proof.
  induction s1 as [|c s1 IH]; intros b; simpl; [trivial|].
  destruct (is_ws c); [intros (? & ? & ?); eauto|apply IH].
Qed.

Lemma spaced_app_r (s1 s2 : jsstring) : ∀ b, spaced b (s1 ++ s2) → spaced false s2.
Proof.
  induction s1 as [|c s1 IH]; intros b; simpl.
  - destruct b; [apply spaced_weaken|trivial].
  - destruct (is_ws c); [intros (_ & _ & H); exact (IH _ H)|apply IH].
Qed.

Lemma trim_spaced (s : jsstring) (b : bool) : spaced b s → spaced false (trim s).
Proof.
  intros Hs. unfold trim.
  destruct (trimStart_split s) as (d & Hd & _).
  destruct (trimEnd_split (trimStart s)) as (d' & Hd' & _).
  rewrite Hd in Hs. apply spaced_app_r in Hs. rewrite Hd' in Hs.
  exact (spaced_app_l _ _ _ Hs).
Qed.

(** Collapsing the white space of a text and trimming it gives a text that
    neither operation changes any more. *)
Lemma normalize_fixed (body : jsstring) :
  replace_ws (trim (replace_ws body)) = trim (replace_ws body)
  ∧ trim (trim (replace_ws body)) = trim (replace_ws body).
Proof.
  split.
  - apply replace_go_fixed. apply (trim_spaced _ false). apply replace_go_spaced.
  - apply trim_id; apply trim_clean.
Qed.

Lemma replace_go_keeps_ink (s : jsstring) (c : N) :
  c ∈ s → is_ws c = false → ∀ b, c ∈ replace_go b s.
Proof.
  intros Hin Hc. induction s as [|x s IH]; intros b; [inversion Hin|].
  simpl. apply elem_of_cons in Hin as [<-|Hin].
  - rewrite Hc. left.
  - destruct (is_ws x); [destruct b|]; [auto|right; auto|right; auto].
Qed.

Lemma not_all_ws (s : jsstring) : ¬ all_ws s ↔ ∃ c, c ∈ s ∧ is_ws c = false.
Proof.
  unfold all_ws. rewrite <- Exists_Forall_neg by (intros c; destruct (is_ws c); auto).
  rewrite Exists_exists. split; intros (c & Hin & Hc); exists c; split; auto;
    destruct (is_ws c); congruence.
Qed.

(** A text with a code unit that is no white space keeps one through
    collapsing and trimming. *)
Lemma normalize_nonempty (body : jsstring) :
  trim body ≠ [] → trim (replace_ws body) ≠ [].
Proof.
  rewrite !trim_empty_iff, !not_all_ws. intros (c & Hin & Hc).
  exists c. split; [|exact Hc]. apply replace_go_keeps_ink; assumption.
Qed.

(** ** Splitting what was joined *)

(** Words joined with single spaces split into the same words. *)
Lemma split_go_join_words (g : list jsstring) :
  g ≠ [] → Forall is_word g → ∀ b, split_go b [] (join [SPACE] g) = g.
Proof.
  intros Hne Hg. induction Hg as [|x g [Hx Hfree] Hg IH]; [congruence|].
  intros b. destruct g as [|y g].
  - simpl join. rewrite <- (app_nil_r x) at 1. rewrite split_go_ws_free by assumption.
    reflexivity.
  - rewrite join_cons by discriminate. rewrite split_go_ws_free by assumption.
    rewrite bool_decide_eq_false_2 by assumption. rewrite andb_false_r.
    change ([SPACE] ++ join [SPACE] (y :: g)) with (SPACE :: join [SPACE] (y :: g)).
    cbn [split_go app]. rewrite is_ws_SPACE. f_equal. apply IH. discriminate.
Qed.

Lemma split_join_words (g : list jsstring) :
  g ≠ [] → Forall is_word g → split_ws (join [SPACE] g) = g.
Proof. intros Hne Hg. apply split_go_join_words; assumption. Qed.

(** A joined window of words holds a code unit that is no white space. *)
Lemma join_words_nonblank (g : list jsstring) :
  g ≠ [] → Forall is_word g → nonblank (join [SPACE] g).
Proof.
  intros Hne Hg. destruct g as [|x g]; [congruence|].
  inversion Hg as [|? ? [Hx Hfree] _]; subst.
  destruct x as [|c x]; [congruence|].
  assert (c ∈ join [SPACE] ((c :: x) :: g)) as Hin.
  { destruct g; simpl; left. }
  assert (is_ws c = false) as Hc by (inversion Hfree; assumption).
  split.
  - rewrite trim_empty_iff, not_all_ws. eauto.
  - unfold truthy. intros Heq. rewrite Heq in Hin. inversion Hin.
Qed.

(** ** Windows of exactly [n] words *)

Lemma concat_nil_nonempty {A} (gs : list (list A)) :
  Forall (λ g, g ≠ []) gs → concat gs = [] → gs = [].
Proof.
  intros Hall Hcat. destruct Hall as [|g gs Hg _]; [reflexivity|].
  simpl in Hcat. destruct g; [congruence|discriminate].
Qed.

(** As [chunkText_loop_windows], with the size of the windows: all but the
    last hold exactly [n] words. *)
Lemma chunkText_loop_exact (words : list jsstring) (n : Z) :
  0 < n →
  ∀ (fuel k : nat) (chunks : list jsstring),
    (length (drop k words) < fuel)%nat →
    ∃ gs : list (list jsstring),
      chunkText_loop fuel words n (Z.of_nat k) chunks = Ok (chunks ++ (join [SPACE] <$> gs))
      ∧ concat gs = drop k words
      ∧ Forall (λ g, g ≠ [] ∧ Z.of_nat (length g) ≤ n) gs
      ∧ (∀ j g, gs !! j = Some g → (S j < length gs)%nat → Z.of_nat (length g) = n).
Proof.
  intros Hn. induction fuel as [|fuel IH]; intros k chunks Hfuel; [lia|].
  rewrite length_drop in Hfuel. cbn [chunkText_loop].
  destruct (Z.ltb_spec (Z.of_nat k) (Z.of_nat (length words))) as [Hk|Hk].
  - rewrite slice_take_drop by lia.
    replace (Z.of_nat k + n) with (Z.of_nat (k + Z.to_nat n)) by lia.
    destruct (IH (k + Z.to_nat n)%nat
                (chunks ++ [join [SPACE] (take (Z.to_nat n) (drop k words))]))
      as (gs & Hrun & Hcat & Hall & Hexact).
    { rewrite length_drop. lia. }
    exists (take (Z.to_nat n) (drop k words) :: gs). split; [|split; [|split]].
    + rewrite Hrun, <- app_assoc. reflexivity.
    + simpl. rewrite Hcat, <- drop_drop. apply take_drop.
    + constructor; [|assumption]. split.
      * intros Hnil. apply (f_equal length) in Hnil.
        rewrite length_take, length_drop in Hnil. simpl in Hnil. lia.
      * rewrite length_take. lia.
    + intros [|j] g Hg Hj.
      * injection Hg as <-. rewrite length_take, length_drop.
        destruct (Nat.le_gt_cases (Z.to_nat n) (length words - k)); [lia|].
        assert (gs = []) as ->; [|simpl in Hj; lia].
        apply concat_nil_nonempty.
        { eapply Forall_impl; [exact Hall|]. intros ? [? _]. assumption. }
        rewrite Hcat. apply drop_ge. lia.
      * apply (Hexact j); [exact Hg|simpl in Hj; lia].
  - exists []. rewrite drop_ge by lia. simpl. rewrite app_nil_r.
    repeat split; [constructor|]. intros j g Hg. discriminate.
Qed.

Lemma Forall_concat_inv {A} (P : A → Prop) (gs : list (list A)) :
  Forall P (concat gs) → Forall (Forall P) gs.
Proof.
  induction gs as [|g gs IH]; simpl; [constructor|].
  intros H. apply Forall_app in H as [Hg Hgs]. constructor; auto.
Qed.

(** X1: On a text that neither starts nor ends with white space (what the
    scrapers of [index.js] and [part_000] return), [chunkText] cuts the
    words of the text into windows: splitting the chunks again gives back
    the words of the text, in order; every chunk holds between 1 and [n]
    words and is not blank; and every chunk but the last holds exactly [n]
    words. *)
Theorem chunkText_exact_windows (text : jsstring) (n : Z) :
  0 < n → text ≠ [] → starts_clean text → ends_clean text →
  ∃ chunks : list jsstring,
    (∀ fuel, (length (split_ws text) < fuel)%nat →
       IndexJs.chunkText fuel (Some text) n = Ok chunks
       ∧ Part000.chunkText fuel (Some text) n = Ok chunks)
    ∧ concat (split_ws <$> chunks) = split_ws text
    ∧ Forall nonblank chunks
    ∧ (∀ i chunk, chunks !! i = Some chunk →
         1 ≤ wordCount chunk ≤ n
         ∧ ((S i < length chunks)%nat → wordCount chunk = n)).
Proof.
  intros Hn Hne Hstart Hend.
  destruct (chunkText_loop_exact (split_ws text) n Hn (S (length (split_ws text))) 0 [])
    as (gs & Hrun & Hcat & Hall & Hexact); [rewrite length_drop; lia|].
  rewrite drop_0 in Hcat. change (Z.of_nat 0) with 0 in Hrun. cbn [app] in Hrun.
  assert (Forall (Forall is_word) gs) as Hwords.
  { apply Forall_concat_inv. rewrite Hcat.
    apply split_ws_trimmed; assumption. }
  assert (∀ g, g ∈ gs → split_ws (join [SPACE] g) = g ∧ nonblank (join [SPACE] g)) as Hback.
  { intros g Hg. rewrite Forall_forall in Hall, Hwords.
    destruct (Hall g Hg) as [Hgne _]. specialize (Hwords g Hg).
    split; [apply split_join_words|apply join_words_nonblank]; assumption. }
  exists (join [SPACE] <$> gs). split; [|split; [|split]].
  - intros fuel Hfuel.
    destruct (chunkText_versions_agree fuel text n Hne Hn) as [-> _].
    unfold IndexJs.chunkText.
    rewrite (chunkText_loop_fuel_mono _ _ (S (length (split_ws text))) fuel
               ltac:(lia) _ _ _ Hrun).
    auto.
  - rewrite <- list_fmap_compose, <- Hcat. f_equal.
    rewrite <- (list_fmap_id gs) at 2. apply list_fmap_ext.
    intros i g Hg. simpl. apply Hback. eapply list_elem_of_lookup_2. exact Hg.
  - apply Forall_fmap, Forall_forall. intros g Hg. apply Hback. exact Hg.
  - intros i chunk Hi. apply list_lookup_fmap_Some in Hi as (g & -> & Hg).
    assert (g ∈ gs) as Hin by (eapply list_elem_of_lookup_2; exact Hg).
    unfold wordCount. rewrite (proj1 (Hback g Hin)).
    rewrite Forall_forall in Hall. destruct (Hall g Hin) as [Hgne Hgn].
    split.
    + destruct g; [congruence|]. simpl length in *. lia.
    + rewrite length_fmap. intros Hi. apply (Hexact i g Hg Hi).
Qed.

Lemma chunkText_exact_windows_witness :
  ∃ chunks : list jsstring,
    (∀ fuel, (length (split_ws three_words) < fuel)%nat →
       IndexJs.chunkText fuel (Some three_words) 2 = Ok chunks
       ∧ Part000.chunkText fuel (Some three_words) 2 = Ok chunks)
    ∧ concat (split_ws <$> chunks) = split_ws three_words
    ∧ Forall nonblank chunks
    ∧ (∀ i chunk, chunks !! i = Some chunk →
         1 ≤ wordCount chunk ≤ 2
         ∧ ((S i < length chunks)%nat → wordCount chunk = 2)).
Proof.
  apply (chunkText_exact_windows three_words 2).
  - lia.
  - vm_compute. discriminate.
  - intros c Hc. vm_compute in Hc. injection Hc as <-. reflexivity.
  - intros c Hc. vm_compute in Hc. injection Hc as <-. reflexivity.
Defined.

(** X2: A text of at most [n] words (the empty text has one, empty, word) gives
    one chunk: the text with every run of white space collapsed to a space. *)
Theorem chunkText_short_text_one_chunk (text : jsstring) (n : Z) (fuel : nat) :
  wordCount text ≤ n → (length (split_ws text) < fuel)%nat →
  IndexJs.chunkText fuel (Some text) n = Ok [replace_ws text].
Proof.
  intros Hwc Hfuel.
  assert (0 < wordCount text) as Hpos.
  { unfold wordCount. pose proof (split_go_length false [] text). unfold split_ws. lia. }
  destruct (chunkText_windows text n ltac:(lia)) as (gs & Hrun & Hcat & Hall & Hlen).
  unfold IndexJs.chunkText. rewrite (Hrun fuel Hfuel). do 2 f_equal.
  assert (ceil_div (wordCount text) n = 1) as Hone by (apply ceil_div_spec; lia).
  rewrite Hone in Hlen. destruct gs as [|g [|g' gs]]; simpl in Hlen; try lia.
  simpl in Hcat. rewrite app_nil_r in Hcat. subst g. simpl.
  f_equal. apply join_split_ws.
Qed.

Lemma chunkText_short_text_one_chunk_witness :
  IndexJs.chunkText 4 (Some three_words) 500 = Ok [replace_ws three_words].
Proof.
  apply (chunkText_short_text_one_chunk three_words 500 4).
  - vm_compute. discriminate.
  - vm_compute. lia.
Defined.

(** ** What the scrapers return *)

Lemma Part000_scrapeWebPage_run (env : Env) (url : jsstring) (w : world) :
  Part000.scrapeWebPage env url w
  = match load env url with
    | LoadError e => (Throw e, log w [PageLoad url])
    | Loaded head body =>
        (Ok {| pg_head := head; pg_body := trim (replace_ws body) |}, log w [PageLoad url])
    end.
Proof.
  unfold Part000.scrapeWebPage, page_load. destruct (load env url); run_monad; reflexivity.
Qed.

Lemma too_short_false (body : jsstring) : too_short body = false → trim body ≠ [].
Proof.
  unfold too_short. intros H. apply orb_false_iff in H as [_ H].
  apply Nat.ltb_ge in H. intros Heq. rewrite Heq in H. simpl in H. lia.
Qed.

(** X3: The body [scrapeWebPage] returns, in [index.js] and in [part_000], is in
    normal form: collapsing its white space or trimming it changes nothing,
    it is its words joined with single spaces, and when it is not empty its
    words are words indeed (not empty, without white space).  In [index.js]
    it is never empty. *)
Theorem scrapeWebPage_body_normalized (env : Env) (url : jsstring) (w : world) (p : page) :
  (IndexJs.scrapeWebPage env url w).1 = Ok p ∨ (Part000.scrapeWebPage env url w).1 = Ok p →
  replace_ws (pg_body p) = pg_body p
  ∧ trim (pg_body p) = pg_body p
  ∧ join [SPACE] (split_ws (pg_body p)) = pg_body p
  ∧ (pg_body p ≠ [] → Forall is_word (split_ws (pg_body p)))
  ∧ ((IndexJs.scrapeWebPage env url w).1 = Ok p → pg_body p ≠ []).
Proof.
  intros Hp.
  assert (∃ body, pg_body p = trim (replace_ws body)) as [body Hbody].
  { destruct Hp as [Hp|Hp].
    - rewrite scrapeWebPage_outcome in Hp. unfold scraped in Hp.
      destruct (load env url) as [e|head body]; [discriminate|].
      destruct (too_short body); [discriminate|]. injection Hp as <-. eauto.
    - rewrite Part000_scrapeWebPage_run in Hp.
      destruct (load env url) as [e|head body]; [discriminate|].
      injection Hp as <-. eauto. }
  destruct (normalize_fixed body) as [Hfix Htrim]. rewrite <- Hbody in Hfix, Htrim.
  split; [exact Hfix|split; [exact Htrim|split; [|split]]].
  - rewrite join_split_ws. exact Hfix.
  - intros Hne. apply split_ws_trimmed; [exact Hne|rewrite Hbody; apply trim_clean..].
  - intros Hidx. rewrite scrapeWebPage_outcome in Hidx. unfold scraped in Hidx.
    destruct (load env url) as [e|head body']; [discriminate|].
    destruct (too_short body') eqn:Hshort; [discriminate|]. injection Hidx as <-.
    simpl. apply normalize_nonempty, too_short_false. exact Hshort.
Qed.

Lemma scrapeWebPage_body_normalized_witness :
  replace_ws sample_body = sample_body
  ∧ trim sample_body = sample_body
  ∧ join [SPACE] (split_ws sample_body) = sample_body
  ∧ (sample_body ≠ [] → Forall is_word (split_ws sample_body))
  ∧ ((IndexJs.scrapeWebPage sample_env (str "https://example.com") empty_world).1
     = Ok {| pg_head := str "Title"; pg_body := sample_body |} → sample_body ≠ []).
Proof.
  apply (scrapeWebPage_body_normalized sample_env (str "https://example.com") empty_world
           {| pg_head := str "Title"; pg_body := sample_body |}).
  left. vm_compute. reflexivity.
Defined.

(** The check of [index.js] is on the text before its white space is
    collapsed: the body returned can be shorter than 50 code units. *)
Example scrapeWebPage_returns_short_body :
  (IndexJs.scrapeWebPage
     {| load := λ _, Loaded [] (str "a" ++ replicate 60 SPACE ++ str "b");
        embedContent := λ _, None;
        query := λ _ _ _, None;
        generateContent := λ _, [] |} [] empty_world).1
  = Ok {| pg_head := []; pg_body := str "a b" |}.
Proof. vm_compute. reflexivity. Qed.

(** ** [ingest] in [part_000] *)

Lemma Part000_ingest_loop_run (env : Env) (url head : jsstring) (n : nat)
    (rest : list jsstring) :
  ∀ (i : nat) (w : world),
    Part000.ingest_loop env url head n i rest w
    = (Ok tt,
       {| store := loop_writes env url head i rest ∪ store w;
          trace := trace w ++ Part000_loop_events env url head n i rest |}).
Proof.
  induction rest as [|chunk rest IH]; intros i w.
  - simpl. unfold ret. rewrite (left_id_L ∅ (∪)), app_nil_r. destruct w; reflexivity.
  - cbn [Part000.ingest_loop loop_writes Part000_loop_events].
    unfold bind at 1. rewrite emit_run. unfold bind at 1.
    destruct (generateVectorEmbeddings_run env chunk
                (log w [Console (LogEmbeddingChunk (i + 1) n)])) as (_ & -> & _).
    unfold bind at 1. unfold Part000.insertIntoDB, chunk_metadata.
    destruct (empty_embedding (embedding_of env chunk)).
    + rewrite emit_run, IH. unfold log. simpl.
      rewrite (right_id_L ∅ (∪)), <- !app_assoc. reflexivity.
    + unfold collection_add. rewrite IH. unfold log. simpl.
      rewrite insert_union_singleton_l, (assoc_L (∪)), <- !app_assoc. reflexivity.
Qed.

Lemma Part000_ingest_run (fuel : nat) (env : Env) (url : jsstring) (w : world) :
  Part000.ingest fuel env url w
  = match load env url with
    | LoadError e =>
        (Ok tt, log w [Console (LogIngesting url); PageLoad url; Console (LogIngestFailed url)])
    | Loaded head body =>
        match Part000.chunkText fuel (Some (trim (replace_ws body))) 1000 with
        | Ok chunks =>
            (Ok tt,
             {| store := loop_writes env url head 0 chunks ∪ store w;
                trace := trace w
                         ++ [Console (LogIngesting url); PageLoad url;
                             Console (LogFoundChunks (length chunks))]
                         ++ Part000_loop_events env url head (length chunks) 0 chunks
                         ++ [Console (LogIngested url)] |})
        | Throw e =>
            (Ok tt,
             log w [Console (LogIngesting url); PageLoad url; Console (LogIngestFailed url)])
        | OutOfFuel => (OutOfFuel, log w [Console (LogIngesting url); PageLoad url])
        end
    end.
Proof.
  unfold Part000.ingest. unfold bind at 1. rewrite emit_run.
  unfold try_catch. unfold bind at 1. rewrite Part000_scrapeWebPage_run.
  destruct (load env url) as [e|head body].
  - rewrite emit_run, !log_log. reflexivity.
  - unfold bind at 1. unfold lift. cbn [pg_body pg_head].
    destruct (Part000.chunkText fuel (Some (trim (replace_ws body))) 1000) as [chunks|e|].
    + unfold bind at 1. rewrite emit_run. unfold bind at 1.
      rewrite Part000_ingest_loop_run, emit_run.
      unfold log. simpl. rewrite <- !app_assoc. reflexivity.
    + rewrite emit_run, !log_log. reflexivity.
    + rewrite !log_log. reflexivity.
Qed.

Lemma replace_go_all_ws (s : jsstring) : all_ws s → ∀ b, all_ws (replace_go b s).
Proof.
  induction 1 as [|c s Hc Hs IH]; intros b; simpl; [constructor|].
  rewrite Hc. destruct b; [apply IH|]. constructor; [reflexivity|apply IH].
Qed.

(** X4: In [part_000] the scraper accepts any page; a page whose body is empty
    or white space only is stopped by the check of [chunkText]: [ingest]
    reports the failure of the URL without a call to the embedding model,
    and leaves the store as it was. *)
Theorem Part000_ingest_blank_page (fuel : nat) (env : Env) (url head body : jsstring)
    (w : world) :
  load env url = Loaded head body → all_ws body →
  Part000.ingest fuel env url w
  = (Ok tt, log w [Console (LogIngesting url); PageLoad url; Console (LogIngestFailed url)]).
Proof.
  intros Hload Hws. rewrite Part000_ingest_run, Hload.
  assert (trim (replace_ws body) = []) as ->.
  { apply trim_empty_iff, replace_go_all_ws. exact Hws. }
  reflexivity.
Qed.

Lemma Part000_ingest_blank_page_witness :
  Part000.ingest 20 blank_page_env (str "https://example.com") empty_world
  = (Ok tt,
     log empty_world
       [Console (LogIngesting (str "https://example.com"));
        PageLoad (str "https://example.com");
        Console (LogIngestFailed (str "https://example.com"))]).
Proof.
  apply (Part000_ingest_blank_page 20 blank_page_env (str "https://example.com")
           (str "Title") (str "   ") empty_world).
  - reflexivity.
  - unfold all_ws. vm_compute. repeat constructor.
Defined.

(** In [part_001], which neither trims the body nor checks its length, the
    same page is ingested as one blank chunk. *)
Example Part001_ingest_blank_page :
  List.filter is_add
    (trace (Part001.ingest 20 blank_page_env (str "https://example.com") empty_world).2)
  = [CollectionAdd (str "https://example.com") [1%float]
       (chunk_metadata (str "https://example.com") (str "Title") [SPACE])].
Proof. vm_compute. reflexivity. Qed.

(** ** The writes of [ingest] *)

Lemma adds_Part000_loop_events (env : Env) (url head : jsstring) (n : nat)
    (rest : list jsstring) :
  ∀ i, List.filter is_add (Part000_loop_events env url head n i rest)
       = omap id (imap (λ j, chunk_write env url head (i + j)) rest).
Proof.
  induction rest as [|chunk rest IH]; intros i; [reflexivity|].
  cbn [Part000_loop_events imap omap].
  rewrite !List.filter_app, adds_embed_events, IH. rewrite Nat.add_0_r. cbn [app id].
  assert (imap (λ j, chunk_write env url head (S i + j)) rest
          = imap ((λ j, chunk_write env url head (i + j)) ∘ S) rest) as ->.
  { apply imap_ext. intros j x _. simpl. f_equal. lia. }
  generalize (imap ((λ j, chunk_write env url head (i + j)) ∘ S) rest). intros L.
  unfold chunk_write, chunkId.
  destruct (empty_embedding (embedding_of env chunk)); reflexivity.
Qed.

(** X5: In [part_000] as in [index.js]: when the page loads and the chunker
    returns its chunks, [ingest] returns; its writes are, in the order of
    the chunks, one for each chunk with an embedding, under the id
    [url + "-chunk-" + i]; the store then holds the chunk's record under
    that id; and ingesting the same page again leaves the store equal. *)
Theorem Part000_ingest_chunk_ids (fuel : nat) (env : Env) (url head body : jsstring)
    (w : world) (chunks : list jsstring) :
  load env url = Loaded head body →
  Part000.chunkText fuel (Some (trim (replace_ws body))) 1000 = Ok chunks →
  let w1 := (Part000.ingest fuel env url w).2 in
  let w2 := (Part000.ingest fuel env url w1).2 in
  (Part000.ingest fuel env url w).1 = Ok tt
  ∧ List.filter is_add (trace w1)
    = List.filter is_add (trace w) ++ omap id (imap (chunk_write env url head) chunks)
  ∧ (∀ (i : nat) (chunk : jsstring),
       chunks !! i = Some chunk → embedding_of env chunk ≠ [] →
       store w1 !! (url ++ str "-chunk-" ++ number_toString i)
       = Some (chunk_record env url head chunk))
  ∧ store w2 = store w1.
Proof.
  intros Hload Hchunks w1 w2. subst w1 w2.
  rewrite !Part000_ingest_run, Hload, Hchunks. cbn [fst snd store trace].
  split; [reflexivity|split; [|split]].
  - rewrite !List.filter_app, adds_Part000_loop_events. cbn [List.filter is_add app].
    rewrite app_nil_r. reflexivity.
  - intros i chunk Hi Hemb. apply lookup_union_Some_l.
    apply (loop_writes_lookup env url head chunks 0 i chunk Hi Hemb).
  - rewrite (assoc_L (∪)), (idemp_L (∪)). reflexivity.
Qed.

Lemma Part000_ingest_chunk_ids_witness :
  let w1 := (Part000.ingest 20 sample_env (str "https://example.com") empty_world).2 in
  let w2 := (Part000.ingest 20 sample_env (str "https://example.com") w1).2 in
  (Part000.ingest 20 sample_env (str "https://example.com") empty_world).1 = Ok tt
  ∧ List.filter is_add (trace w1)
    = List.filter is_add (trace empty_world)
      ++ omap id (imap (chunk_write sample_env (str "https://example.com") (str "Title"))
                    [sample_body])
  ∧ (∀ (i : nat) (chunk : jsstring),
       [sample_body] !! i = Some chunk → embedding_of sample_env chunk ≠ [] →
       store w1 !! (str "https://example.com" ++ str "-chunk-" ++ number_toString i)
       = Some (chunk_record sample_env (str "https://example.com") (str "Title") chunk))
  ∧ store w2 = store w1.
Proof.
  apply (Part000_ingest_chunk_ids 20 sample_env (str "https://example.com") (str "Title")
           sample_body empty_world [sample_body]).
  - reflexivity.
  - vm_compute. reflexivity.
Defined.






Lemma loop_events_add_inv (env : Env) (url head : jsstring) (rest : list jsstring)
    (id : jsstring) (emb : list float) (md : metadata) :
  ∀ i, CollectionAdd id emb md ∈ loop_events env url head i rest →
       ∃ j chunk, rest !! j = Some chunk ∧ id = chunkId url (i + j)
                  ∧ emb = embedding_of env chunk ∧ emb ≠ []
                  ∧ md = chunk_metadata url head chunk.
Proof.
  induction rest as [|chunk rest IH]; intros i Hin; [inversion Hin|].
  cbn [loop_events] in Hin. rewrite !elem_of_app in Hin. destruct Hin as [Hin|[Hin|Hin]].
  - unfold embed_events in Hin. destruct (embedContent env chunk);
      repeat (apply elem_of_cons in Hin as [Hin|Hin]; [discriminate|]); inversion Hin.
  - unfold chunk_write in Hin.
    destruct (empty_embedding (embedding_of env chunk)) eqn:He; [inversion Hin|].
    apply list_elem_of_singleton in Hin. injection Hin as -> -> ->.
    exists 0%nat, chunk. rewrite Nat.add_0_r. repeat split.
    intros Hnil. apply empty_embedding_nil in Hnil. congruence.
  - destruct (IH (S i) Hin) as (j & c & Hj & -> & -> & Hne & ->).
    exists (S j), c. replace (i + S j)%nat with (S i + j)%nat by lia. auto.
Qed.

(** The chunks of a text that is not empty and neither starts nor ends with
    white space are not blank, whatever the fuel the chunker returned with. *)
Lemma chunkText_chunks_nonblank (fuel : nat) (text : jsstring) (n : Z)
    (chunks : list jsstring) :
  0 < n → text ≠ [] → starts_clean text → ends_clean text →
  IndexJs.chunkText fuel (Some text) n = Ok chunks → Forall nonblank chunks.
Proof.
  intros Hn Hne Hstart Hend Hrun. unfold IndexJs.chunkText in Hrun.
  destruct (chunkText_loop_exact (split_ws text) n Hn
              (fuel + S (length (split_ws text))) 0 [])
    as (gs & Hrun' & Hcat & Hall & _); [rewrite length_drop; lia|].
  rewrite drop_0 in Hcat. change (Z.of_nat 0) with 0 in Hrun'. cbn [app] in Hrun'.
  rewrite (chunkText_loop_fuel_mono _ _ fuel (fuel + S (length (split_ws text)))
             ltac:(lia) _ _ _ Hrun) in Hrun'.
  injection Hrun' as ->.
  assert (Forall (Forall is_word) gs) as Hwords.
  { apply Forall_concat_inv. rewrite Hcat. apply split_ws_trimmed; assumption. }
  apply Forall_fmap, Forall_forall. intros g Hg.
  rewrite Forall_forall in Hall, Hwords. destruct (Hall g Hg) as [Hgne _].
  apply join_words_nonblank; auto.
Qed.

(** X7: Every write [ingest] of [index.js] makes to the collection is for this
    URL, under one of its chunk ids, with an embedding that is not empty and
    a body that is not blank: the store gets no blank body from it. *)
Theorem ingest_writes_nonblank_bodies (fuel : nat) (env : Env) (url : jsstring) (w : world)
    (id : jsstring) (emb : list float) (md : metadata) :
  CollectionAdd id emb md ∈ trace (IndexJs.ingest fuel env url w).2 →
  CollectionAdd id emb md ∈ trace w
  ∨ (md_url md = url ∧ emb ≠ [] ∧ nonblank (md_body md) ∧ ∃ i, id = chunkId url i).
Proof.
  rewrite IndexJs_ingest_run. unfold scraped.
  destruct (load env url) as [e|head body] eqn:Hload.
  { simpl. rewrite elem_of_app. intros [Hin|Hin]; [auto|].
    repeat (apply elem_of_cons in Hin as [Hin|Hin]; [discriminate|]). inversion Hin. }
  destruct (too_short body) eqn:Hshort.
  { simpl. rewrite elem_of_app. intros [Hin|Hin]; [auto|].
    repeat (apply elem_of_cons in Hin as [Hin|Hin]; [discriminate|]). inversion Hin. }
  cbn [pg_body pg_head].
  destruct (IndexJs.chunkText fuel (Some (trim (replace_ws body))) 500)
    as [chunks|e|] eqn:Hchunks.
  - cbn [snd trace]. rewrite !elem_of_app. intros [Hin|[Hin|[Hin|Hin]]]; [auto|..].
    + repeat (apply elem_of_cons in Hin as [Hin|Hin]; [discriminate|]). inversion Hin.
    + right. destruct (loop_events_add_inv _ _ _ _ _ _ _ _ Hin)
        as (j & chunk & Hj & -> & -> & Hne & ->).
      split; [reflexivity|split; [exact Hne|split; [|eauto]]].
      assert (Forall nonblank chunks) as Hnb.
      { apply (chunkText_chunks_nonblank fuel (trim (replace_ws body)) 500);
          [lia| |apply trim_clean..|exact Hchunks].
        apply normalize_nonempty, too_short_false. exact Hshort. }
      rewrite Forall_forall in Hnb. apply Hnb. eapply list_elem_of_lookup_2. exact Hj.
    + apply list_elem_of_singleton in Hin. discriminate.
  - simpl. rewrite elem_of_app. intros [Hin|Hin]; [auto|].
    repeat (apply elem_of_cons in Hin as [Hin|Hin]; [discriminate|]). inversion Hin.
  - simpl. rewrite elem_of_app. intros [Hin|Hin]; [auto|].
    repeat (apply elem_of_cons in Hin as [Hin|Hin]; [discriminate|]). inversion Hin.
Qed.

Lemma ingest_writes_nonblank_bodies_witness :
  CollectionAdd (chunkId (str "u") 0) [1%float; 0%float]
    (chunk_metadata (str "u") (str "Title") sample_body) ∈ trace empty_world
  ∨ (md_url (chunk_metadata (str "u") (str "Title") sample_body) = str "u"
     ∧ [1%float; 0%float] ≠ []
     ∧ nonblank (md_body (chunk_metadata (str "u") (str "Title") sample_body))
     ∧ ∃ i, chunkId (str "u") 0 = chunkId (str "u") i).
Proof.
  apply (ingest_writes_nonblank_bodies 20 sample_env (str "u") empty_world).
  vm_compute. repeat constructor.
Defined.

(** ** What [ingest] leaves alone *)

Section IngestKeeps.
Context (P : gmap jsstring stored → Prop) (env : Env) (url : jsstring).

(** A property of the store that the writes under the chunk ids of [url]
    keep is kept by [ingest] of [index.js] and of [part_000]. *)
Hypothesis chunk_writes_keep :
  ∀ i embedding md, preserves P (collection_add (chunkId url i) embedding md).

Lemma IndexJs_ingest_keeps_under (fuel : nat) : preserves P (IndexJs.ingest fuel env url).
Proof.
  unfold IndexJs.ingest.
  apply preserves_bind; [auto with preserves|intros _].
  apply preserves_try_catch; [|auto with preserves].
  apply preserves_bind; [apply IndexJs_scrapeWebPage_keeps|intros p].
  apply preserves_bind; [auto with preserves|intros chunks].
  apply preserves_bind; [|auto with preserves].
  generalize 0%nat. induction chunks as [|chunk rest IH]; intros i; simpl;
    [auto with preserves|].
  apply preserves_bind; [apply generateVectorEmbeddings_keeps|intros emb].
  apply preserves_bind; [|intros _; apply IH].
  unfold IndexJs.insertIntoDB. destruct (empty_embedding emb); auto with preserves.
Qed.

Lemma Part000_ingest_keeps_under (fuel : nat) : preserves P (Part000.ingest fuel env url).
Proof.
  unfold Part000.ingest.
  apply preserves_bind; [auto with preserves|intros _].
  apply preserves_try_catch; [|auto with preserves].
  apply preserves_bind; [apply HttpScraper_keeps|intros p].
  apply preserves_bind; [auto with preserves|intros chunks].
  apply preserves_bind; [auto with preserves|intros _].
  apply preserves_bind; [|auto with preserves].
  generalize 0%nat (length chunks).
  induction chunks as [|chunk rest IH]; intros i n; simpl; [auto with preserves|].
  apply preserves_bind; [auto with preserves|intros _].
  apply preserves_bind; [apply generateVectorEmbeddings_keeps|intros emb].
  apply preserves_bind; [|intros _; apply IH].
  unfold Part000.insertIntoDB. destruct (empty_embedding emb); auto with preserves.
Qed.

End IngestKeeps.

(** The same for [part_001], whose writes are all under the id [url]. *)
Lemma Part001_ingest_keeps_under (P : gmap jsstring stored → Prop) (env : Env)
    (url : jsstring) (fuel : nat) :
  (∀ embedding md, preserves P (collection_add url embedding md)) →
  preserves P (Part001.ingest fuel env url).
Proof.
  intros Hadd. unfold Part001.ingest.
  apply preserves_bind; [auto with preserves|intros _].
  apply preserves_bind; [apply HttpScraper_keeps|intros p].
  apply preserves_bind; [auto with preserves|intros chunks].
  apply preserves_bind; [|auto with preserves].
  induction chunks as [|chunk rest IH]; simpl; [auto with preserves|].
  apply preserves_bind; [apply generateVectorEmbeddings_keeps|intros emb].
  apply preserves_bind; [|intros _; apply IH].
  unfold Part001.insertIntoDB. destruct (empty_embedding emb); auto with preserves.
Qed.

Lemma collection_add_other (id id' : jsstring) (v : option stored)
    (embedding : list float) (md : metadata) :
  id ≠ id' → preserves (λ s, s !! id = v) (collection_add id' embedding md).
Proof. intros Hne w Hw. simpl. rewrite lookup_insert_ne by congruence. exact Hw. Qed.

Lemma collection_add_grows (id id' : jsstring) (embedding : list float) (md : metadata) :
  preserves (λ s, is_Some (s !! id)) (collection_add id' embedding md).
Proof.
  intros w Hw. simpl. destruct (decide (id' = id)) as [->|Hne].
  - rewrite lookup_insert_eq. eauto.
  - rewrite lookup_insert_ne by assumption. exact Hw.
Qed.

(** X8: [ingest] touches the records of its URL only: a record under an id that
    is no chunk id of the URL (in [part_001]: that is not the URL) is after
    [ingest] what it was before, or as absent as before. *)
Theorem ingest_leaves_other_ids (fuel : nat) (env : Env) (url id : jsstring) (w : world) :
  ((∀ i, id ≠ chunkId url i) →
     store (IndexJs.ingest fuel env url w).2 !! id = store w !! id
     ∧ store (Part000.ingest fuel env url w).2 !! id = store w !! id)
  ∧ (id ≠ url → store (Part001.ingest fuel env url w).2 !! id = store w !! id).
Proof.
  split.
  - intros Hid. split.
    + apply (IndexJs_ingest_keeps_under (λ s, s !! id = store w !! id)); [|reflexivity].
      intros i emb md. apply collection_add_other. apply Hid.
    + apply (Part000_ingest_keeps_under (λ s, s !! id = store w !! id)); [|reflexivity].
      intros i emb md. apply collection_add_other. apply Hid.
  - intros Hid.
    apply (Part001_ingest_keeps_under (λ s, s !! id = store w !! id)); [|reflexivity].
    intros emb md. apply collection_add_other. exact Hid.
Qed.

Lemma ingest_leaves_other_ids_witness :
  (store (IndexJs.ingest 20 sample_env (str "https://example.com") stocked_world).2
     !! str "https://example.org"
   = store stocked_world !! str "https://example.org"
   ∧ store (Part000.ingest 20 sample_env (str "https://example.com") stocked_world).2
       !! str "https://example.org"
     = store stocked_world !! str "https://example.org")
  ∧ store (Part001.ingest 20 sample_env (str "https://example.com") stocked_world).2
      !! str "https://example.org"
    = store stocked_world !! str "https://example.org".
Proof.
  split.
  - apply (ingest_leaves_other_ids 20 sample_env (str "https://example.com")
             (str "https://example.org") stocked_world).
    intros i Heq. apply (f_equal (take 19)) in Heq. vm_compute in Heq. discriminate.
  - apply (ingest_leaves_other_ids 20 sample_env (str "https://example.com")
             (str "https://example.org") stocked_world).
    vm_compute. discriminate.
Defined.

(** X9: [ingest] deletes nothing: the ids the store held before are ids of the
    store after, in each of the three versions. *)
Theorem ingest_deletes_nothing (fuel : nat) (env : Env) (url : jsstring) (w : world) :
  dom (store w) ⊆ dom (store (IndexJs.ingest fuel env url w).2)
  ∧ dom (store w) ⊆ dom (store (Part000.ingest fuel env url w).2)
  ∧ dom (store w) ⊆ dom (store (Part001.ingest fuel env url w).2).
Proof.
  repeat split; intros id Hid; apply elem_of_dom; apply elem_of_dom in Hid.
  - apply (IndexJs_ingest_keeps_under (λ s, is_Some (s !! id))); [|exact Hid].
    intros i emb md. apply collection_add_grows.
  - apply (Part000_ingest_keeps_under (λ s, is_Some (s !! id))); [|exact Hid].
    intros i emb md. apply collection_add_grows.
  - apply (Part001_ingest_keeps_under (λ s, is_Some (s !! id))); [|exact Hid].
    intros emb md. apply collection_add_grows.
Qed.

Lemma loop_writes_lookup_after (env : Env) (url head : jsstring) (rest : list jsstring) :
  ∀ i k, (i + length rest ≤ k)%nat → loop_writes env url head i rest !! chunkId url k = None.
Proof.
  induction rest as [|chunk rest IH]; intros i k Hk; cbn [loop_writes].
  - apply lookup_empty.
  - simpl in Hk. apply lookup_union_None. split; [apply IH; lia|].
    destruct (empty_embedding _); [apply lookup_empty|].
    apply lookup_singleton_ne. intros Heq. apply chunkId_inj in Heq. lia.
Qed.

(** X10: When a page has fewer chunks than the store holds for its URL,
    [ingest] (of [index.js] and of [part_000]) leaves the records of the
    higher indexes as they are: the chunks of the former, longer page stay
    in the store. *)
Theorem ingest_keeps_stale_chunks (fuel : nat) (env : Env) (url head body : jsstring)
    (w : world) (chunks : list jsstring) (k : nat) :
  load env url = Loaded head body →
  IndexJs.chunkText fuel (Some (trim (replace_ws body))) 500 = Ok chunks →
  (length chunks ≤ k)%nat →
  store (IndexJs.ingest fuel env url w).2 !! chunkId url k = store w !! chunkId url k
  ∧ (∀ chunks', Part000.chunkText fuel (Some (trim (replace_ws body))) 1000 = Ok chunks' →
       (length chunks' ≤ k)%nat →
       store (Part000.ingest fuel env url w).2 !! chunkId url k = store w !! chunkId url k).
Proof.
  intros Hload Hchunks Hk. split.
  - rewrite IndexJs_ingest_run. unfold scraped. rewrite Hload.
    destruct (too_short body); [reflexivity|]. cbn [pg_body pg_head]. rewrite Hchunks.
    cbn [snd store]. apply lookup_union_r. apply loop_writes_lookup_after. simpl. lia.
  - intros chunks' Hchunks' Hk'. rewrite Part000_ingest_run, Hload, Hchunks'.
    cbn [snd store]. apply lookup_union_r. apply loop_writes_lookup_after. simpl. lia.
Qed.

(** The store holds the second chunk of a former version of the page [u],
    which now has one chunk: the record is there after [ingest] as before. *)
Lemma ingest_keeps_stale_chunks_witness :
  store stale_world !! chunkId (str "u") 1 = Some stale_record
  ∧ store (IndexJs.ingest 20 sample_env (str "u") stale_world).2 !! chunkId (str "u") 1
    = Some stale_record
  ∧ store (Part000.ingest 20 sample_env (str "u") stale_world).2 !! chunkId (str "u") 1
    = Some stale_record
  ∧ IndexJs.chunkText 20 (Some (trim (replace_ws sample_body))) 500 = Ok [sample_body]
  ∧ store (IndexJs.ingest 20 sample_env (str "u") stale_world).2 !! chunkId (str "u") 0
    = Some (chunk_record sample_env (str "u") (str "Title") sample_body).
Proof.
  assert (store stale_world !! chunkId (str "u") 1 = Some stale_record) as Hstale.
  { unfold stale_world. cbn [store]. apply lookup_singleton_eq. }
  assert (IndexJs.chunkText 20 (Some (trim (replace_ws sample_body))) 500
          = Ok [sample_body]) as Hchunks.
  { vm_compute. reflexivity. }
  assert (Part000.chunkText 20 (Some (trim (replace_ws sample_body))) 1000
          = Ok [sample_body]) as Hchunks'.
  { vm_compute. reflexivity. }
  destruct (ingest_keeps_stale_chunks 20 sample_env (str "u") (str "Title") sample_body
              stale_world [sample_body] 1 eq_refl Hchunks (le_n 1)) as [Hidx H000].
  specialize (H000 [sample_body] Hchunks' (le_n 1)).
  split; [exact Hstale|].
  split; [rewrite Hidx; exact Hstale|].
  split; [rewrite H000; exact Hstale|].
  split; [exact Hchunks|].
  rewrite IndexJs_ingest_run. vm_compute. reflexivity.
Defined.

(** ** One id for a URL, in [part_001] *)




(** Two chunks, one record: the second chunk takes the place of the first. *)
Example Part001_second_chunk_overwrites :
  store (Part001.ingest_loop sample_env (str "u") (str "Title")
           [str "one two"; str "three"] empty_world).2
  = {[ str "u" := chunk_record sample_env (str "u") (str "Title") (str "three") ]}.
Proof. vm_compute. reflexivity. Qed.

(** ** What [chat] does and does not *)

(** X12: [chat] changes nothing in the store, in each of the three versions and
    whatever the collaborators answer. *)
Theorem chat_leaves_store (env : Env) (question : jsstring) (w : world) :
  store (IndexJs.chat env question w).2 = store w
  ∧ store (Part000.chat env question w).2 = store w
  ∧ store (Part001.chat env question w).2 = store w.
Proof.
  destruct (chat_keeps (λ s, s = store w) env question) as (H1 & H2 & H3).
  repeat split; [apply H1|apply H2|apply H3]; reflexivity.
Qed.

Lemma embed_calls_app (t1 t2 : list event) :
  embed_calls (t1 ++ t2) = (embed_calls t1 + embed_calls t2)%nat.
Proof. unfold embed_calls. rewrite List.filter_app, length_app. reflexivity. Qed.

Lemma embed_calls_embed_events (env : Env) (text : jsstring) :
  embed_calls (embed_events env text) = 1%nat.
Proof. unfold embed_events. destruct (embedContent env text); reflexivity. Qed.

(** X13: When the reply of the store holds metadata, [chat] of [index.js]
    returns normally, after one call to the embedding model, one query of
    the store (for 3 results, with the embedding it got) and one call to
    the generative model, with the prompt built from the question, the URLs
    (each once) and the bodies that are not empty; the last line it logs is
    the model's answer, as the model gave it. *)
Theorem chat_with_context_answers (env : Env) (question : jsstring) (w : world)
    (md : metadata) (mds : list metadata) :
  query env (store w) 3 (embedding_of env question) = Some (md :: mds) →
  ∃ t : list event,
    IndexJs.chat env question w = (Ok tt, log w t)
    ∧ embed_calls t = 1%nat
    ∧ List.filter is_query t = [CollectionQuery 3 (embedding_of env question)]
    ∧ List.filter is_generate t
      = [GenerateContent
           (PromptText (IndexJs.build_prompt question
                          (IndexJs.extract_urls (md :: mds))
                          (IndexJs.extract_bodies (md :: mds))))]
    ∧ last t
      = Some (Console (LogAnswer
                (generateContent env
                   (PromptText (IndexJs.build_prompt question
                                  (IndexJs.extract_urls (md :: mds))
                                  (IndexJs.extract_bodies (md :: mds))))))).
Proof.
  intros Hq. eexists. rewrite IndexJs_chat_run, Hq. cbn [metadatas_or_empty].
  split; [reflexivity|]. split; [|split; [|split]].
  - rewrite !embed_calls_app, embed_calls_embed_events. reflexivity.
  - rewrite !List.filter_app, queries_embed_events. reflexivity.
  - rewrite !List.filter_app.
    assert (List.filter is_generate (embed_events env question) = []) as ->.
    { unfold embed_events. destruct (embedContent env question); reflexivity. }
    reflexivity.
  - cbv zeta. rewrite !app_assoc.
    match goal with |- last (?l ++ [?a; ?b]) = _ =>
      change (l ++ [a; b]) with (l ++ [a] ++ [b]); rewrite (app_assoc l [a] [b]) end.
    apply last_snoc.
Qed.

Lemma chat_with_context_answers_witness :
  ∃ t : list event,
    IndexJs.chat sample_env (str "What is a fox?") stocked_world = (Ok tt, log stocked_world t)
    ∧ embed_calls t = 1%nat
    ∧ List.filter is_query t
      = [CollectionQuery 3 (embedding_of sample_env (str "What is a fox?"))]
    ∧ List.filter is_generate t
      = [GenerateContent
           (PromptText (IndexJs.build_prompt (str "What is a fox?")
                          (IndexJs.extract_urls
                             [chunk_metadata (str "https://example.com") (str "Title")
                                sample_body])
                          (IndexJs.extract_bodies
                             [chunk_metadata (str "https://example.com") (str "Title")
                                sample_body])))]
    ∧ last t
      = Some (Console (LogAnswer
                (generateContent sample_env
                   (PromptText (IndexJs.build_prompt (str "What is a fox?")
                                  (IndexJs.extract_urls
                                     [chunk_metadata (str "https://example.com")
                                        (str "Title") sample_body])
                                  (IndexJs.extract_bodies
                                     [chunk_metadata (str "https://example.com")
                                        (str "Title") sample_body])))))).
Proof.
  apply (chat_with_context_answers sample_env (str "What is a fox?") stocked_world).
  vm_compute. reflexivity.
Defined.

Lemma Part001_chat_run (env : Env) (question : jsstring) (w : world) :
  Part001.chat env question w
  = match query env (store w) 3 (embedding_of env question) with
    | None =>
        (Throw TypeError,
         log w ([Console (LogQuery question)] ++ embed_events env question
                ++ [CollectionQuery 3 (embedding_of env question)]))
    | Some metadatas =>
        let p := PromptMessages
                   (Part001.build_messages question (Part001.extract_urls metadatas)
                      (Part001.extract_bodies metadatas)) in
        (Ok tt,
         log w ([Console (LogQuery question)] ++ embed_events env question
                ++ [CollectionQuery 3 (embedding_of env question);
                    Console (LogTopUrls (Part001.extract_urls metadatas));
                    GenerateContent p; Console (LogAnswer (generateContent env p))]))
    end.
Proof.
  unfold Part001.chat. unfold bind at 1. rewrite emit_run. unfold bind at 1.
  destruct (generateVectorEmbeddings_run env question (log w [Console (LogQuery question)]))
    as (_ & _ & ->).
  unfold bind at 1. unfold collection_query. cbn [store log].
  destruct (query env (store w) 3 (embedding_of env question)) as [mds|].
  - run_monad. reflexivity.
  - unfold throw, log. cbn [store trace]. rewrite <- !app_assoc. reflexivity.
Qed.

(** X14: When the reply of the store holds no [metadatas[0]], [chat] of
    [index.js] and of [part_000] take it for an empty result and return,
    while [chat] of [part_001] throws a [TypeError]; none of them calls the
    generative model.  With any list in the reply, the empty one too,
    [chat] of [part_001] calls the model once and returns. *)
Theorem chat_missing_metadatas (env : Env) (question : jsstring) (w : world) :
  (query env (store w) 3 (embedding_of env question) = None →
     ∃ t t1 : list event,
       IndexJs.chat env question w = (Ok tt, log w t)
       ∧ Part000.chat env question w = (Ok tt, log w t)
       ∧ Part001.chat env question w = (Throw TypeError, log w t1)
       ∧ model_calls t = 0%nat ∧ model_calls t1 = 0%nat)
  ∧ (∀ mds, query env (store w) 3 (embedding_of env question) = Some mds →
       ∃ t1 : list event,
         Part001.chat env question w = (Ok tt, log w t1) ∧ model_calls t1 = 1%nat).
Proof.
  split.
  - intros Hq. eexists _, _.
    rewrite IndexJs_chat_run, Part000_chat_run, Part001_chat_run, Hq.
    cbn [metadatas_or_empty].
    split; [reflexivity|split; [reflexivity|split; [reflexivity|]]].
    rewrite !model_calls_app, model_calls_embed_events. split; reflexivity.
  - intros mds Hq. eexists. rewrite Part001_chat_run, Hq. split; [reflexivity|].
    rewrite !model_calls_app, model_calls_embed_events. reflexivity.
Qed.

Lemma chat_missing_metadatas_witness :
  (∃ t t1 : list event,
     IndexJs.chat no_reply_env (str "q") empty_world = (Ok tt, log empty_world t)
     ∧ Part000.chat no_reply_env (str "q") empty_world = (Ok tt, log empty_world t)
     ∧ Part001.chat no_reply_env (str "q") empty_world = (Throw TypeError, log empty_world t1)
     ∧ model_calls t = 0%nat ∧ model_calls t1 = 0%nat)
  ∧ (∃ t1 : list event,
       Part001.chat sample_env (str "q") empty_world = (Ok tt, log empty_world t1)
       ∧ model_calls t1 = 1%nat).
Proof.
  split.
  - apply (chat_missing_metadatas no_reply_env (str "q") empty_world). reflexivity.
  - apply (proj2 (chat_missing_metadatas sample_env (str "q") empty_world) []).
    vm_compute. reflexivity.
Defined.

(** X15: [generateVectorEmbeddings] never throws, and does not touch the store:
    it returns the vector of the embedding model, and the empty vector when
    the call to the model throws; so it returns the empty vector exactly
    when the call throws or gives an empty vector. *)
Theorem generateVectorEmbeddings_absorbs_failure (env : Env) (text : jsstring) (w : world) :
  ∃ (values : list float) (t : list event),
    IndexJs.generateVectorEmbeddings env text w = (Ok values, log w t)
    ∧ Part000.generateVectorEmbeddings env text w = (Ok values, log w t)
    ∧ Part001.generateVectorEmbeddings env text w = (Ok values, log w t)
    ∧ embed_calls t = 1%nat
    ∧ (values = [] ↔ embedContent env text = None ∨ embedContent env text = Some [])
    ∧ (∀ v, embedContent env text = Some v → values = v).
Proof.
  exists (embedding_of env text), (embed_events env text).
  destruct (generateVectorEmbeddings_run env text w) as (-> & -> & ->).
  repeat split; try apply embed_calls_embed_events.
  - unfold embedding_of. destruct (embedContent env text); [intros ->|]; auto.
  - apply embedding_of_empty.
  - unfold embedding_of. intros v ->. reflexivity.
Qed.

(** ** The lists [chat] extracts, across the versions *)

Lemma first_seen_filter (P : jsstring → Prop) `{∀ x, Decision (P x)} (l : list jsstring) :
  first_seen (filter P l) = filter P (first_seen l).
Proof.
  induction l as [|x l IH]; [reflexivity|]. cbn [first_seen].
  destruct (decide (P x)) as [HP|HP].
  - rewrite !filter_cons_True by assumption. cbn [first_seen]. f_equal.
    rewrite IH, !list_filter_filter. apply list_filter_iff. intros y. tauto.
  - rewrite !filter_cons_False by assumption. rewrite IH, list_filter_filter.
    apply list_filter_iff. intros y. split; [|tauto].
    intros Hy. split; [assumption|]. intros ->. tauto.
Qed.

(** The bodies [filter(Boolean)] keeps are the bodies of the results whose
    body is not empty, one for each such result. *)
Lemma extract_bodies_of_results (metadatas : list metadata) :
  IndexJs.extract_bodies metadatas
  = md_body <$> filter (λ md, md_body md ≠ []) metadatas.
Proof.
  unfold IndexJs.extract_bodies.
  induction metadatas as [|md mds IH]; [reflexivity|].
  rewrite fmap_cons. destruct (decide (md_body md = [])) as [He|Hne].
  - rewrite !filter_cons_False by (unfold truthy; tauto). exact IH.
  - rewrite !filter_cons_True by assumption. rewrite fmap_cons, IH. reflexivity.
Qed.

(** X16: From the metadata of a reply, [chat] of [index.js] (and of [part_000])
    takes the bodies in the order of the results, leaving out exactly the
    empty ones (one body for each result whose body is not empty, as often
    as it occurs), and the URLs in the order of their first occurrence, each
    once. *)
Theorem chat_extraction (metadatas : list metadata) :
  IndexJs.extract_bodies metadatas
  = md_body <$> filter (λ md, md_body md ≠ []) metadatas
  ∧ IndexJs.extract_bodies metadatas `sublist_of` (md_body <$> metadatas)
  ∧ (∀ b, b ∈ IndexJs.extract_bodies metadatas ↔ b ∈ md_body <$> metadatas ∧ b ≠ [])
  ∧ IndexJs.extract_urls metadatas `sublist_of` (md_url <$> metadatas)
  ∧ NoDup (IndexJs.extract_urls metadatas)
  ∧ (∀ u, u ∈ IndexJs.extract_urls metadatas ↔ u ∈ md_url <$> metadatas)
  ∧ IndexJs.extract_urls metadatas = first_seen (md_url <$> metadatas)
  ∧ Part000.extract_bodies metadatas = IndexJs.extract_bodies metadatas
  ∧ Part000.extract_urls metadatas = IndexJs.extract_urls metadatas.
Proof.
  split; [apply extract_bodies_of_results|].
  unfold IndexJs.extract_bodies, IndexJs.extract_urls, Part000.extract_bodies,
    Part000.extract_urls.
  rewrite new_Set_first_seen.
  split; [apply sublist_filter|].
  split; [intros b; rewrite list_elem_of_filter; unfold truthy; tauto|].
  split.
  { induction (md_url <$> metadatas) as [|u l IH]; [constructor|]. cbn [first_seen].
    apply sublist_skip. etransitivity; [apply sublist_filter|exact IH]. }
  split; [apply first_seen_NoDup|].
  split; [intros u; apply first_seen_elem_of|].
  repeat split.
Qed.

(** A body that occurs twice is taken twice, and an empty one not at all. *)
Example chat_extraction_repeated_body :
  IndexJs.extract_bodies
    [ {| md_url := str "a"; md_head := []; md_body := str "x" |};
      {| md_url := str "b"; md_head := []; md_body := [] |};
      {| md_url := str "a"; md_head := []; md_body := str "x" |} ]
  = [str "x"; str "x"]
  ∧ IndexJs.extract_urls
      [ {| md_url := str "a"; md_head := []; md_body := str "x" |};
        {| md_url := str "b"; md_head := []; md_body := [] |};
        {| md_url := str "a"; md_head := []; md_body := str "x" |} ]
    = [str "a"; str "b"].
Proof. vm_compute. split; reflexivity. Qed.

(** X17: The lists of [part_001] against those of [index.js]: its bodies are the
    bodies of [index.js] without the blank ones, and its URLs, once their
    repetitions are removed, are the URLs of [index.js] without the blank
    ones. *)
Theorem chat_extraction_part_001 (metadatas : list metadata) :
  Part001.extract_bodies metadatas = filter nonblank (IndexJs.extract_bodies metadatas)
  ∧ new_Set (Part001.extract_urls metadatas)
    = filter nonblank (IndexJs.extract_urls metadatas)
  ∧ (Forall nonblank (md_url <$> metadatas) →
     Part001.extract_urls metadatas = md_url <$> metadatas).
Proof.
  unfold Part001.extract_bodies, Part001.extract_urls, IndexJs.extract_bodies,
    IndexJs.extract_urls.
  rewrite !new_Set_first_seen. split; [|split].
  - rewrite list_filter_filter. apply list_filter_iff. intros b. unfold nonblank. tauto.
  - apply first_seen_filter.
  - intros Hall. induction Hall as [|u l Hu Hl IH]; [reflexivity|].
    rewrite filter_cons_True by assumption. f_equal. exact IH.
Qed.

Lemma chat_extraction_part_001_witness :
  Part001.extract_bodies [blank_metadata; blank_metadata]
  = filter nonblank (IndexJs.extract_bodies [blank_metadata; blank_metadata])
  ∧ new_Set (Part001.extract_urls [blank_metadata; blank_metadata])
    = filter nonblank (IndexJs.extract_urls [blank_metadata; blank_metadata])
  ∧ Part001.extract_urls [blank_metadata; blank_metadata]
    = md_url <$> [blank_metadata; blank_metadata].
Proof.
  destruct (chat_extraction_part_001 [blank_metadata; blank_metadata])
    as (H1 & H2 & H3).
  split; [exact H1|split; [exact H2|]].
  apply H3.
  assert (nonblank (md_url blank_metadata)) as Hu by (split; vm_compute; discriminate).
  constructor; [exact Hu|constructor; [exact Hu|constructor]].
Defined.

(** ** The links of a page *)

Lemma elem_of_Set_add (s : list jsstring) (x y : jsstring) :
  y ∈ Set_add s x ↔ y ∈ s ∨ y = x.
Proof.
  unfold Set_add. destruct (bool_decide_reflect (x ∈ s)) as [Hin|Hnotin].
  - split; [auto|]. intros [?| ->]; assumption.
  - rewrite elem_of_app, list_elem_of_singleton. reflexivity.
Qed.

Lemma NoDup_Set_add (s : list jsstring) (x : jsstring) : NoDup s → NoDup (Set_add s x).
Proof.
  intros Hs. unfold Set_add. destruct (bool_decide_reflect (x ∈ s)) as [Hin|Hnotin];
    [assumption|].
  apply NoDup_app. repeat split; [assumption| |apply NoDup_singleton].
  intros y Hy Hy'. apply list_elem_of_singleton in Hy'. congruence.
Qed.

Lemma startsWith_app (s p q : jsstring) :
  startsWith s (p ++ q) = true → startsWith s p = true.
Proof.
  revert s. induction p as [|c p IH]; intros s; [intros _; reflexivity|].
  simpl. destruct s as [|c' s]; [discriminate|].
  intros H. apply andb_true_iff in H as [Hc H]. rewrite Hc. simpl. exact (IH _ H).
Qed.

(** The second test of the scraper adds nothing to the first. *)
Lemma startsWith_http_or_https (link : jsstring) :
  startsWith link (str "http") || startsWith link (str "https")
  = startsWith link (str "http").
Proof.
  destruct (startsWith link (str "https")) eqn:H'; [|apply orb_false_r].
  change (str "https") with (str "http" ++ str "s") in H'.
  apply startsWith_app in H'. rewrite H'. reflexivity.
Qed.

Lemma add_link_NoDup (acc : links) (href : option jsstring) :
  NoDup (internalLinks acc) → NoDup (externalLinks acc) →
  NoDup (internalLinks (add_link acc href)) ∧ NoDup (externalLinks (add_link acc href)).
Proof.
  intros Hi He. unfold add_link. destruct href as [link|]; [|auto].
  destruct (_ || _); [auto|]. destruct (_ || _); cbn [internalLinks externalLinks];
    split; auto using NoDup_Set_add.
Qed.

Lemma add_link_external (acc : links) (href : option jsstring) (l : jsstring) :
  l ∈ externalLinks (add_link acc href)
  ↔ l ∈ externalLinks acc ∨ (href = Some l ∧ startsWith l (str "http") = true).
Proof.
  unfold add_link. destruct href as [link|]; [|split; [auto|intros [?|[? _]]; [auto|discriminate]]].
  destruct (bool_decide_reflect (link = [])) as [->|Hnil]; cbn [orb].
  { split; [auto|]. intros [?|[Heq Hs]]; [auto|]. injection Heq as <-. discriminate. }
  destruct (bool_decide_reflect (link = str "/")) as [->|Hslash].
  { split; [auto|]. intros [?|[Heq Hs]]; [auto|]. injection Heq as <-. discriminate. }
  rewrite startsWith_http_or_https.
  destruct (startsWith link (str "http")) eqn:Hhttp; cbn [externalLinks].
  - rewrite elem_of_Set_add. split.
    + intros [?| ->]; auto.
    + intros [?|[Heq _]]; [auto|]. injection Heq as <-. auto.
  - split; [auto|]. intros [?|[Heq Hs]]; [auto|]. injection Heq as <-. congruence.
Qed.

Lemma add_link_internal (acc : links) (href : option jsstring) (l : jsstring) :
  l ∈ internalLinks (add_link acc href)
  ↔ l ∈ internalLinks acc
    ∨ (href = Some l ∧ l ≠ [] ∧ l ≠ str "/" ∧ startsWith l (str "http") = false).
Proof.
  unfold add_link. destruct href as [link|]; [|split; [auto|intros [?|[? _]]; [auto|discriminate]]].
  destruct (bool_decide_reflect (link = [])) as [->|Hnil]; cbn [orb].
  { split; [auto|]. intros [?|(Heq & Hl & _)]; [auto|]. injection Heq as <-. congruence. }
  destruct (bool_decide_reflect (link = str "/")) as [->|Hslash].
  { split; [auto|]. intros [?|(Heq & _ & Hl & _)]; [auto|]. injection Heq as <-. congruence. }
  rewrite startsWith_http_or_https.
  destruct (startsWith link (str "http")) eqn:Hhttp; cbn [internalLinks].
  - split; [auto|]. intros [?|(Heq & _ & _ & Hs)]; [auto|]. injection Heq as <-. congruence.
  - rewrite elem_of_Set_add. split.
    + intros [?| ->]; auto.
    + intros [?|[Heq _]]; [auto|]. injection Heq as <-. auto.
Qed.

(** X18: The links [scrapeWebPage] of [part_000] and [part_001] returns: an href
    is among the external links exactly when it starts with [http], and
    among the internal links exactly when it is not empty, is not [/] and
    does not start with [http]; anchors without an href give nothing; no
    link is listed twice, nor in both lists. *)
Theorem collect_links_partition (hrefs : list (option jsstring)) :
  NoDup (internalLinks (collect_links hrefs))
  ∧ NoDup (externalLinks (collect_links hrefs))
  ∧ (∀ link, link ∈ externalLinks (collect_links hrefs)
             ↔ Some link ∈ hrefs ∧ startsWith link (str "http") = true)
  ∧ (∀ link, link ∈ internalLinks (collect_links hrefs)
             ↔ Some link ∈ hrefs ∧ link ≠ [] ∧ link ≠ str "/"
               ∧ startsWith link (str "http") = false)
  ∧ (∀ link, link ∈ internalLinks (collect_links hrefs)
             → link ∉ externalLinks (collect_links hrefs)).
Proof.
  assert (NoDup (internalLinks (collect_links hrefs))
          ∧ NoDup (externalLinks (collect_links hrefs))
          ∧ (∀ link, link ∈ externalLinks (collect_links hrefs)
                     ↔ Some link ∈ hrefs ∧ startsWith link (str "http") = true)
          ∧ (∀ link, link ∈ internalLinks (collect_links hrefs)
                     ↔ Some link ∈ hrefs ∧ link ≠ [] ∧ link ≠ str "/"
                       ∧ startsWith link (str "http") = false)) as (Hi & He & Hext & Hint).
  { unfold collect_links. induction hrefs as [|h hrefs IH] using rev_ind.
    - simpl. split; [constructor|split; [constructor|split]]; intros link; split;
        first [intros [Hin _]; inversion Hin|intros Hin; inversion Hin].
    - rewrite foldl_app. cbn [foldl].
      destruct IH as (Hi & He & Hext & Hint).
      destruct (add_link_NoDup _ h Hi He) as [Hi' He'].
      split; [exact Hi'|split; [exact He'|split]]; intros l.
      + rewrite add_link_external, Hext, elem_of_app, list_elem_of_singleton.
        split.
        * intros [[? ?]|[-> ?]]; auto.
        * intros [[?|Heq] Hs]; [auto|]. right. split; [congruence|assumption].
      + rewrite add_link_internal, Hint, elem_of_app, list_elem_of_singleton.
        split.
        * intros [(? & ?)|(-> & ?)]; auto.
        * intros [[?|Heq] Hs]; [auto|]. right. split; [congruence|assumption]. }
  split; [exact Hi|split; [exact He|split; [exact Hext|split; [exact Hint|]]]].
  intros link Hin Hex. apply Hint in Hin. apply Hext in Hex.
  destruct Hin as (_ & _ & _ & Hin). destruct Hex as [_ Hex]. congruence.
Qed.

Example collect_links_sample :
  collect_links [Some (str "/about"); None; Some (str "https://example.org");
                 Some (str "/"); Some (str "/about"); Some []; Some (str "mailto:a@b.c");
                 Some (str "HTTP://EXAMPLE.ORG")]
  = {| internalLinks := [str "/about"; str "mailto:a@b.c"; str "HTTP://EXAMPLE.ORG"];
       externalLinks := [str "https://example.org"] |}.
Proof. vm_compute. reflexivity. Qed.

(** ** Chunk ids never collide *)

Lemma uint_digits (d : Decimal.uint) :
  Forall (λ c, (48 ≤ c ≤ 57)%N) (str (NilEmpty.string_of_uint d)).
Proof.
  induction d; simpl; constructor; try assumption; vm_compute; split; discriminate.
Qed.

Lemma number_toString_no_hyphen (n : nat) : 45%N ∉ number_toString n.
Proof.
  unfold number_toString. intros Hin.
  pose proof (uint_digits (Nat.to_uint n)) as Hd. rewrite Forall_forall in Hd.
  specialize (Hd _ Hin). lia.
Qed.

Lemma first_occurrence {A} (x : A) (a b c d : list A) :
  x ∉ a → x ∉ b → a ++ x :: c = b ++ x :: d → a = b ∧ c = d.
Proof.
  revert b. induction a as [|y a IH]; intros b Ha Hb Heq.
  - destruct b as [|z b]; [injection Heq as ->; auto|].
    injection Heq as -> _. exfalso. apply Hb. left.
  - destruct b as [|z b].
    + injection Heq as -> _. exfalso. apply Ha. left.
    + injection Heq as -> Heq. apply not_elem_of_cons in Ha as [_ Ha].
      apply not_elem_of_cons in Hb as [_ Hb].
      destruct (IH b Ha Hb Heq) as [-> ->]. auto.
Qed.

Lemma last_occurrence {A} (x : A) (a b c d : list A) :
  x ∉ c → x ∉ d → a ++ x :: c = b ++ x :: d → a = b ∧ c = d.
Proof.
  intros Hc Hd Heq. apply (f_equal reverse) in Heq.
  rewrite !reverse_app, !reverse_cons, <- !app_assoc in Heq. cbn [app] in Heq.
  apply first_occurrence in Heq as [H1 H2];
    [|rewrite elem_of_reverse; assumption..].
  split; [apply (inj reverse); exact H2|apply (inj reverse); exact H1].
Qed.

(** X19: Two chunks have the same storage id only when they are the chunks of
    the same index of the same URL: the ids of different URLs, or of
    different indexes, never collide, whatever the URLs hold. *)
Theorem chunkId_collision_free (url1 url2 : jsstring) (i j : nat) :
  chunkId url1 i = chunkId url2 j ↔ url1 = url2 ∧ i = j.
Proof.
  split; [|intros [-> ->]; reflexivity].
  unfold chunkId. intros Heq.
  change (str "-chunk-") with (str "-chunk" ++ [45%N]) in Heq.
  rewrite <- !(app_assoc (str "-chunk")), !(app_assoc url1), !(app_assoc url2) in Heq.
  cbn [app] in Heq.
  apply last_occurrence in Heq as [Hurl Hnum]; [|apply number_toString_no_hyphen..].
  apply app_inv_tail in Hurl. apply number_toString_inj in Hnum. auto.
Qed.

(** A URL that ends like a chunk id shares no id with the URL it looks like. *)
Example chunkId_of_lookalike :
  chunkId (str "https://example.com") 10 ≠ chunkId (str "https://example.com-chunk-1") 0
  ∧ chunkId (str "https://example.com-chunk-1") 0
    = str "https://example.com-chunk-1-chunk-0".
Proof.
  split; [|vm_compute; reflexivity].
  intros Heq. vm_compute in Heq. discriminate.
Qed.

(** ** The chunker when the array is full *)

(** With a positive chunk size the loop pushes at most one chunk for each
    word it has passed: when the words fit an array, so do the chunks, and
    the limit plays no part. *)
Lemma Bounded_chunkText_loop_agrees (capacity : Z) (words : list jsstring) (n : Z) :
  0 < n → Z.of_nat (length words) ≤ capacity →
  ∀ fuel i chunks, Z.of_nat (length chunks) ≤ i →
    Bounded.chunkText_loop capacity fuel words n i chunks
    = chunkText_loop fuel words n i chunks.
Proof.
  intros Hn Hcap. induction fuel as [|fuel IH]; intros i chunks Hi; [reflexivity|].
  cbn [Bounded.chunkText_loop chunkText_loop].
  destruct (Z.ltb_spec i (Z.of_nat (length words))); [|reflexivity].
  destruct (Z.ltb_spec (Z.of_nat (length chunks)) capacity); [|lia].
  apply IH. rewrite length_app. simpl length. lia.
Qed.

Lemma Bounded_chunkText_agrees (capacity : Z) (fuel : nat) (text : jsstring) (n : Z) :
  0 < n → wordCount text ≤ capacity →
  Bounded.IndexJs_chunkText capacity fuel (Some text) n = IndexJs.chunkText fuel (Some text) n
  ∧ Bounded.Part000_chunkText capacity fuel (Some text) n
    = Part000.chunkText fuel (Some text) n.
Proof.
  intros Hn Hcap.
  unfold Bounded.IndexJs_chunkText, Bounded.Part000_chunkText, IndexJs.chunkText,
    Part000.chunkText.
  rewrite Bounded_chunkText_loop_agrees by (assumption || (simpl; lia)).
  split; reflexivity.
Qed.

(** With a chunk size that is not positive the index never reaches the
    length of [words], which holds at least one piece: every round pushes a
    chunk, and the round that finds the array full throws. *)
Lemma Bounded_chunkText_loop_full (capacity : Z) (words : list jsstring) (n : Z) :
  words ≠ [] → n ≤ 0 →
  ∀ fuel i chunks,
    i ≤ 0 → Z.max 0 (capacity - Z.of_nat (length chunks)) < Z.of_nat fuel →
    Bounded.chunkText_loop capacity fuel words n i chunks = Throw RangeError.
Proof.
  intros Hw Hn. induction fuel as [|fuel IH]; intros i chunks Hi Hfuel; [lia|].
  cbn [Bounded.chunkText_loop].
  destruct (Z.ltb_spec i (Z.of_nat (length words))) as [_|Hlen].
  - destruct (Z.ltb_spec (Z.of_nat (length chunks)) capacity); [|reflexivity].
    apply IH; [lia|]. rewrite length_app. simpl length. lia.
  - destruct words; [congruence|]. simpl in Hlen. lia.
Qed.

(** And no round returns. *)
Lemma Bounded_chunkText_loop_no_chunks (capacity : Z) (words : list jsstring) (n : Z) :
  words ≠ [] → n ≤ 0 →
  ∀ fuel i chunks r,
    i ≤ 0 → Bounded.chunkText_loop capacity fuel words n i chunks ≠ Ok r.
Proof.
  intros Hw Hn. induction fuel as [|fuel IH]; intros i chunks r Hi; [discriminate|].
  cbn [Bounded.chunkText_loop].
  destruct (Z.ltb_spec i (Z.of_nat (length words))) as [_|Hlen].
  - destruct (Z.of_nat (length chunks) <? capacity); [apply IH; lia|discriminate].
  - destruct words; [congruence|]. simpl in Hlen. lia.
Qed.

(** C10, as the program has it: with a positive chunk size [chunkText]
    returns its chunks on every text, from some amount of fuel on (in
    [index.js]; in [part_000] it returns or throws), and the limit on the
    length of an array plays no part when the words of the text fit one.
    With a chunk size that is not positive the loop of [index.js] never
    leaves through its condition, yet the call ends: it pushes a chunk each
    round until the array is full and throws [RangeError]; it returns
    chunks for no amount of fuel. *)
Theorem chunkText_terminates_when_positive (capacity : Z) (text : jsstring)
    (chunkSize : Z) :
  0 ≤ capacity →
  (0 < chunkSize →
     ∃ fuel0 : nat, ∀ fuel, (fuel0 ≤ fuel)%nat →
       (∃ chunks,
          IndexJs.chunkText fuel (Some text) chunkSize = Ok chunks
          ∧ (wordCount text ≤ capacity →
             Bounded.IndexJs_chunkText capacity fuel (Some text) chunkSize = Ok chunks))
       ∧ Part000.chunkText fuel (Some text) chunkSize ≠ OutOfFuel)
  ∧ (chunkSize ≤ 0 →
     (∃ fuel0 : nat, ∀ fuel, (fuel0 ≤ fuel)%nat →
        Bounded.IndexJs_chunkText capacity fuel (Some text) chunkSize = Throw RangeError)
     ∧ (∀ fuel chunks,
          Bounded.IndexJs_chunkText capacity fuel (Some text) chunkSize ≠ Ok chunks)).
Proof.
  intros Hcap. split.
  - intros Hn. destruct (chunkText_windows text chunkSize Hn) as (gs & Hrun & _).
    exists (S (length (split_ws text))). intros fuel Hfuel.
    assert (IndexJs.chunkText fuel (Some text) chunkSize = Ok (join [SPACE] <$> gs)) as Hidx.
    { apply Hrun. lia. }
    split.
    + exists (join [SPACE] <$> gs). split; [exact Hidx|]. intros Hfit.
      destruct (Bounded_chunkText_agrees capacity fuel text chunkSize Hn Hfit) as [-> _].
      exact Hidx.
    + destruct text as [|c text].
      * unfold Part000.chunkText. simpl. discriminate.
      * destruct (chunkText_versions_agree fuel (c :: text) chunkSize) as [-> _];
          [discriminate|assumption|].
        rewrite Hidx. discriminate.
  - intros Hn. split.
    + exists (S (Z.to_nat capacity)). intros fuel Hfuel.
      apply Bounded_chunkText_loop_full;
        [apply split_ws_nonempty|assumption|lia|simpl length; lia].
    + intros fuel chunks.
      apply Bounded_chunkText_loop_no_chunks; [apply split_ws_nonempty|assumption|lia].
Qed.

Lemma chunkText_terminates_when_positive_witness :
  (∃ fuel0 : nat, ∀ fuel, (fuel0 ≤ fuel)%nat →
     (∃ chunks,
        IndexJs.chunkText fuel (Some (str "a b c")) 2 = Ok chunks
        ∧ (wordCount (str "a b c") ≤ MAX_ARRAY_LENGTH →
           Bounded.IndexJs_chunkText MAX_ARRAY_LENGTH fuel (Some (str "a b c")) 2
           = Ok chunks))
     ∧ Part000.chunkText fuel (Some (str "a b c")) 2 ≠ OutOfFuel)
  ∧ (∃ fuel0 : nat, ∀ fuel, (fuel0 ≤ fuel)%nat →
       Bounded.IndexJs_chunkText MAX_ARRAY_LENGTH fuel (Some (str "a b c")) 0
       = Throw RangeError)
  ∧ (∀ fuel chunks,
       Bounded.IndexJs_chunkText MAX_ARRAY_LENGTH fuel (Some (str "a b c")) 0 ≠ Ok chunks).
Proof.
  assert (0 ≤ MAX_ARRAY_LENGTH) as Hcap by (unfold MAX_ARRAY_LENGTH; lia).
  split.
  - apply (chunkText_terminates_when_positive MAX_ARRAY_LENGTH (str "a b c") 2 Hcap). lia.
  - apply (chunkText_terminates_when_positive MAX_ARRAY_LENGTH (str "a b c") 0 Hcap). lia.
Defined.

(** C10, as the claim has it, fails: with the chunk size 0 the call of
    [chunkText] of [index.js] ends, for an array of the largest length
    there is; it throws [RangeError]. *)
Lemma chunkText_zero_size_ends :
  ∃ fuel : nat,
    Bounded.IndexJs_chunkText MAX_ARRAY_LENGTH fuel (Some (str "a b")) 0 = Throw RangeError.
Proof.
  exists (S (Z.to_nat MAX_ARRAY_LENGTH)).
  apply Bounded_chunkText_loop_full; [apply split_ws_nonempty|lia|lia|].
  unfold MAX_ARRAY_LENGTH. simpl length. lia.
Qed.

(** The same with a small array, run: three chunks are pushed, the fourth
    push throws. *)
Example chunkText_zero_size_small_array :
  Bounded.IndexJs_chunkText 3 4 (Some (str "a b")) 0 = Throw RangeError
  ∧ Bounded.IndexJs_chunkText 3 3 (Some (str "a b")) 0 = OutOfFuel
  ∧ Bounded.IndexJs_chunkText 3 4 (Some (str "a b")) (-1) = Throw RangeError
  ∧ Bounded.IndexJs_chunkText 3 4 (Some (str "a b")) 1 = Ok [str "a"; str "b"].
Proof. vm_compute. repeat split; reflexivity. Qed.

(** ** The check of the arguments of [chunkText] *)

(** The loop throws nothing but the error of the full array. *)
Lemma Bounded_chunkText_loop_throws (capacity : Z) (words : list jsstring) (n : Z) :
  ∀ fuel i chunks e,
    Bounded.chunkText_loop capacity fuel words n i chunks = Throw e → e = RangeError.
Proof.
  induction fuel as [|fuel IH]; intros i chunks e; [discriminate|].
  cbn [Bounded.chunkText_loop].
  destruct (i <? Z.of_nat (length words)); [|discriminate].
  destruct (Z.of_nat (length chunks) <? capacity); [apply IH|congruence].
Qed.

(** The empty text splits into one empty piece, which makes one empty
    chunk. *)
Lemma chunkText_loop_empty_text (capacity : Z) (fuel : nat) (n : Z) :
  0 < n → 0 < capacity → (2 ≤ fuel)%nat →
  Bounded.chunkText_loop capacity fuel (split_ws []) n 0 [] = Ok [[]]
  ∧ chunkText_loop fuel (split_ws []) n 0 [] = Ok [[]].
Proof.
  intros Hn Hcap Hfuel. destruct fuel as [|[|fuel]]; [lia|lia|].
  change (split_ws []) with [[] : jsstring].
  cbn [Bounded.chunkText_loop chunkText_loop length]. change (Z.of_nat 0) with 0.
  change (Z.of_nat 1) with 1.
  destruct (Z.ltb_spec 0 1); [|lia].
  destruct (Z.ltb_spec 0 capacity); [|lia].
  destruct (Z.ltb_spec (0 + n) 1); [lia|].
  change 0 with (Z.of_nat 0) at 1 3. rewrite slice_take_drop by (simpl; lia).
  rewrite drop_0, take_ge by (simpl; lia). split; reflexivity.
Qed.

(** The scraper of [index.js] returns no empty body. *)
Lemma scrapeWebPage_body_nonempty (env : Env) (url : jsstring) (w : world) (p : page) :
  (IndexJs.scrapeWebPage env url w).1 = Ok p → pg_body p ≠ [].
Proof.
  rewrite scrapeWebPage_outcome. unfold scraped.
  destruct (load env url) as [e|head body]; [discriminate|].
  destruct (too_short body) eqn:Hshort; [discriminate|].
  intros [= <-]. cbn [pg_body]. apply normalize_nonempty, too_short_false. exact Hshort.
Qed.

(** C2, as the program has it: the check of the arguments is in [part_000]
    and [part_001], whose [chunkText] throws [Error("Invalid input text")]
    before its loop when the text is empty or absent or the chunk size is
    not positive, so that no chunk is produced.  [chunkText] of [index.js]
    has no check, and never throws that error: it throws [TypeError] on an
    absent text, returns one empty chunk on the empty text (with a positive
    chunk size), and with a chunk size that is not positive it fills the
    array and throws [RangeError].  Its one call, in [ingest], passes 500
    and the body of a scraped page, which is never empty. *)
Theorem chunkText_invalid_input (capacity : Z) (fuel : nat) (text : option jsstring)
    (chunkSize : Z) :
  falsy_text text = true ∨ chunkSize ≤ 0 →
  Part000.chunkText fuel text chunkSize = Throw (Error (str "Invalid input text"))
  ∧ Part001.chunkText fuel text chunkSize = Throw (Error (str "Invalid input text"))
  ∧ Bounded.Part000_chunkText capacity fuel text chunkSize
    = Throw (Error (str "Invalid input text"))
  ∧ Bounded.IndexJs_chunkText capacity fuel text chunkSize
    ≠ Throw (Error (str "Invalid input text"))
  ∧ (text = None →
     Bounded.IndexJs_chunkText capacity fuel text chunkSize = Throw TypeError
     ∧ IndexJs.chunkText fuel text chunkSize = Throw TypeError)
  ∧ (text = Some [] → 0 < chunkSize → 0 < capacity → (2 ≤ fuel)%nat →
     Bounded.IndexJs_chunkText capacity fuel text chunkSize = Ok [[]]
     ∧ IndexJs.chunkText fuel text chunkSize = Ok [[]])
  ∧ (text ≠ None → chunkSize ≤ 0 → 0 ≤ capacity → capacity < Z.of_nat fuel →
     Bounded.IndexJs_chunkText capacity fuel text chunkSize = Throw RangeError)
  ∧ (∀ env url w p,
       (IndexJs.scrapeWebPage env url w).1 = Ok p → falsy_text (Some (pg_body p)) = false).
Proof.
  intros H.
  destruct (Part000_chunkText_invalid_input fuel text chunkSize H) as [H000 H001].
  split; [exact H000|split; [exact H001|split; [|split; [|split; [|split; [|split]]]]]].
  - unfold Bounded.Part000_chunkText.
    assert (falsy_text text || (chunkSize <=? 0) = true) as ->; [|reflexivity].
    destruct H as [->|H]; [reflexivity|].
    apply orb_true_iff. right. apply Z.leb_le. exact H.
  - unfold Bounded.IndexJs_chunkText. destruct text as [t|]; [|discriminate].
    intros Hthrow. apply Bounded_chunkText_loop_throws in Hthrow. discriminate.
  - intros ->. split; reflexivity.
  - intros -> Hn Hcap Hfuel. apply chunkText_loop_empty_text; assumption.
  - intros Ht Hn Hcap Hfuel. destruct text as [t|]; [|congruence].
    apply Bounded_chunkText_loop_full;
      [apply split_ws_nonempty|assumption|lia|simpl length; lia].
  - intros env url w p Hp. apply falsy_text_Some.
    exact (scrapeWebPage_body_nonempty env url w p Hp).
Qed.

Lemma chunkText_invalid_input_witness :
  (Part000.chunkText 2 (Some []) 500 = Throw (Error (str "Invalid input text"))
   ∧ Part001.chunkText 2 (Some []) 500 = Throw (Error (str "Invalid input text"))
   ∧ Bounded.IndexJs_chunkText MAX_ARRAY_LENGTH 2 (Some []) 500 = Ok [[]]
   ∧ IndexJs.chunkText 2 (Some []) 500 = Ok [[]])
  ∧ (Part000.chunkText 4 (Some (str "a b")) 0 = Throw (Error (str "Invalid input text"))
     ∧ Part001.chunkText 4 (Some (str "a b")) 0 = Throw (Error (str "Invalid input text"))
     ∧ Bounded.IndexJs_chunkText 3 4 (Some (str "a b")) 0 = Throw RangeError).
Proof.
  split.
  - destruct (chunkText_invalid_input MAX_ARRAY_LENGTH 2 (Some []) 500 (or_introl eq_refl))
      as (H000 & H001 & _ & _ & _ & Hempty & _).
    split; [exact H000|split; [exact H001|]].
    apply Hempty; [reflexivity|lia|unfold MAX_ARRAY_LENGTH; lia|lia].
  - destruct (chunkText_invalid_input 3 4 (Some (str "a b")) 0 (or_intror (Z.le_refl 0)))
      as (H000 & H001 & _ & _ & _ & _ & Hfull & _).
    split; [exact H000|split; [exact H001|]].
    apply Hfull; [discriminate|lia|lia|lia].
Defined.

(** C2, as the claim has it, fails on [index.js]: its [chunkText] returns
    one empty chunk for the empty text, and for an absent text the error is
    the [TypeError] of [text.split]. *)
Lemma IndexJs_chunkText_unchecked :
  IndexJs.chunkText 2 (Some []) 500 = Ok [[]]
  ∧ Bounded.IndexJs_chunkText MAX_ARRAY_LENGTH 2 (Some []) 500 = Ok [[]]
  ∧ IndexJs.chunkText 2 None 500 = Throw TypeError
  ∧ Part000.chunkText 2 (Some []) 500 = Throw (Error (str "Invalid input text")).
Proof. vm_compute. repeat split; reflexivity. Qed.

(** ** Words and pieces *)

Lemma countWords_le (text : jsstring) : countWords text ≤ wordCount text.
Proof.
  unfold countWords, wordCount.
  pose proof (length_filter (λ piece : jsstring, piece ≠ []) (split_ws text)). lia.
Qed.

Lemma filter_words (g : list jsstring) :
  Forall is_word g → filter (λ piece : jsstring, piece ≠ []) g = g.
Proof.
  induction 1 as [|x g [Hx _] _ IH]; [reflexivity|].
  rewrite filter_cons_True by assumption. f_equal. exact IH.
Qed.

(** Only the first and the last piece of a split can be empty: inside a
    text every piece lies between two runs of white space. *)
Lemma split_go_empty_pieces (s : jsstring) :
  (length (split_go true [] s)
   ≤ 1 + length (filter (λ piece : jsstring, piece ≠ []) (split_go true [] s)))%nat
  ∧ ∀ acc, acc ≠ [] →
      (length (split_go false acc s)
       ≤ 1 + length (filter (λ piece : jsstring, piece ≠ []) (split_go false acc s)))%nat.
Proof.
  induction s as [|c s [IHsep IHword]]; cbn [split_go].
  - split; [simpl; lia|]. intros acc Hacc. rewrite filter_cons_True by assumption.
    simpl. lia.
  - destruct (is_ws c).
    + split; [exact IHsep|]. intros acc Hacc. rewrite filter_cons_True by assumption.
      simpl length. lia.
    + split.
      * apply IHword. discriminate.
      * intros acc Hacc. apply IHword. destruct acc; discriminate.
Qed.

Lemma wordCount_le (text : jsstring) : wordCount text ≤ countWords text + 2.
Proof.
  unfold wordCount, countWords, split_ws. destruct text as [|c text]; [simpl; lia|].
  cbn [split_go]. destruct (split_go_empty_pieces text) as [Hsep Hword].
  destruct (is_ws c).
  - rewrite filter_cons_False by tauto. simpl length. lia.
  - specialize (Hword [c] ltac:(discriminate)). simpl app. lia.
Qed.

(** C1, as the program has it: for a text that is not empty and a chunk
    size [n > 0], [chunkText] (in each of the three versions, given fuel for
    its loop) returns [ceil (p / n)] chunks, where [p] is the number of
    pieces of [text.split(/\s+/)]: the words of the text, and an empty piece
    for white space at its start and one for white space at its end.  Every
    chunk reads back as at most [n] pieces, so holds at most [n] words, and
    the chunks joined with single spaces are the text with every run of
    white space collapsed to one space.  For a text that neither starts nor
    ends with white space the pieces are the words: the chunks are
    [ceil (countWords text / n)], and each holds between 1 and [n] words. *)
Theorem chunkText_count_size_rejoin (text : jsstring) (n : Z) :
  text ≠ [] → 0 < n →
  ∃ chunks : list jsstring,
    (∀ fuel, (length (split_ws text) < fuel)%nat →
       IndexJs.chunkText fuel (Some text) n = Ok chunks
       ∧ Part000.chunkText fuel (Some text) n = Ok chunks
       ∧ Part001.chunkText fuel (Some text) n = Ok chunks)
    ∧ Z.of_nat (length chunks) = ceil_div (wordCount text) n
    ∧ countWords text ≤ wordCount text ≤ countWords text + 2
    ∧ Forall (λ chunk, countWords chunk ≤ wordCount chunk ≤ n) chunks
    ∧ join [SPACE] chunks = replace_ws text
    ∧ (starts_clean text → ends_clean text →
       wordCount text = countWords text
       ∧ Z.of_nat (length chunks) = ceil_div (countWords text) n
       ∧ Forall (λ chunk, 1 ≤ countWords chunk ≤ n) chunks).
Proof.
  intros Ht Hn.
  destruct (chunkText_windows text n Hn) as (gs & Hrun & Hcat & Hall & Hlen).
  exists (join [SPACE] <$> gs).
  assert (Forall (λ chunk, wordCount chunk ≤ n) (join [SPACE] <$> gs)) as Hsize.
  { pose proof (split_ws_pieces_ws_free text) as Hfree. rewrite <- Hcat in Hfree.
    apply Forall_concat_inv in Hfree. apply Forall_fmap.
    rewrite Forall_forall in Hall, Hfree. apply Forall_forall. intros g Hg.
    destruct (Hall g Hg) as [Hgne Hgn]. unfold compose, wordCount, split_ws.
    pose proof (split_go_join_length g Hgne (Hfree g Hg) false []). lia. }
  split; [|split; [|split; [|split; [|split]]]].
  - intros fuel Hfuel.
    destruct (chunkText_versions_agree fuel text n Ht Hn) as [-> ->].
    unfold IndexJs.chunkText. rewrite (Hrun fuel Hfuel). auto.
  - rewrite length_fmap. exact Hlen.
  - split; [apply countWords_le|apply wordCount_le].
  - eapply Forall_impl; [exact Hsize|]. intros chunk Hchunk. cbv beta in *.
    pose proof (countWords_le chunk). lia.
  - rewrite join_groups.
    + rewrite Hcat. apply join_split_ws.
    + eapply Forall_impl; [exact Hall|]. intros g [Hg _]. exact Hg.
  - intros Hstart Hend.
    pose proof (split_ws_trimmed text Ht Hstart Hend) as Hwords.
    assert (wordCount text = countWords text) as Hsame.
    { unfold countWords, wordCount. rewrite filter_words by exact Hwords. reflexivity. }
    split; [exact Hsame|split].
    + rewrite length_fmap, <- Hsame. exact Hlen.
    + rewrite <- Hcat in Hwords. apply Forall_concat_inv in Hwords.
      apply Forall_fmap. rewrite Forall_forall in Hall, Hwords. apply Forall_forall.
      intros g Hg. destruct (Hall g Hg) as [Hgne Hgn]. unfold compose, countWords.
      rewrite split_join_words by auto. rewrite filter_words by auto.
      destruct g; [congruence|]. simpl length in *. lia.
Qed.

Lemma chunkText_count_size_rejoin_witness :
  ∃ chunks : list jsstring,
    (∀ fuel, (length (split_ws (str "to be  or not to be")) < fuel)%nat →
       IndexJs.chunkText fuel (Some (str "to be  or not to be")) 4 = Ok chunks
       ∧ Part000.chunkText fuel (Some (str "to be  or not to be")) 4 = Ok chunks
       ∧ Part001.chunkText fuel (Some (str "to be  or not to be")) 4 = Ok chunks)
    ∧ Z.of_nat (length chunks) = ceil_div (wordCount (str "to be  or not to be")) 4
    ∧ countWords (str "to be  or not to be") ≤ wordCount (str "to be  or not to be")
      ≤ countWords (str "to be  or not to be") + 2
    ∧ Forall (λ chunk, countWords chunk ≤ wordCount chunk ≤ 4) chunks
    ∧ join [SPACE] chunks = replace_ws (str "to be  or not to be")
    ∧ (starts_clean (str "to be  or not to be") → ends_clean (str "to be  or not to be") →
       wordCount (str "to be  or not to be") = countWords (str "to be  or not to be")
       ∧ Z.of_nat (length chunks) = ceil_div (countWords (str "to be  or not to be")) 4
       ∧ Forall (λ chunk, 1 ≤ countWords chunk ≤ 4) chunks).
Proof.
  apply (chunkText_count_size_rejoin (str "to be  or not to be") 4).
  - vm_compute. discriminate.
  - lia.
Defined.

(** C1, as the claim has it, fails: this text has one word, and with the
    chunk size 1 it gives two chunks, the first of them empty (in each of
    the three versions; the scraper of [part_001] does not trim the body it
    passes on). *)
Lemma chunkText_leading_space_extra_chunk :
  IndexJs.chunkText 3 (Some (str " a")) 1 = Ok [[]; str "a"]
  ∧ Part000.chunkText 3 (Some (str " a")) 1 = Ok [[]; str "a"]
  ∧ Part001.chunkText 3 (Some (str " a")) 1 = Ok [[]; str "a"]
  ∧ countWords (str " a") = 1
  ∧ ceil_div (countWords (str " a")) 1 = 1
  ∧ wordCount (str " a") = 2.
Proof. vm_compute. repeat split; reflexivity. Qed.

(** ** [ingest] over a store that may reject a write *)

(** What [first_rejected] finds: the first chunk with a vector whose id the
    store rejects. *)
Lemma first_rejected_Some (rejects : jsstring → option exn) (env : Env) (url : jsstring)
    (rest : list jsstring) :
  ∀ (i j : nat) (chunk : jsstring) (e : exn),
    first_rejected rejects env url i rest = Some (j, chunk, e) →
    rest !! j = Some chunk
    ∧ embedded env chunk
    ∧ rejects (chunkId url (i + j)) = Some e
    ∧ first_rejected rejects env url i (take j rest) = None.
Proof.
  induction rest as [|c rest IH]; intros i j chunk e; [discriminate|].
  cbn [first_rejected].
  destruct (empty_embedding (embedding_of env c)) eqn:He.
  - destruct (first_rejected rejects env url (S i) rest) as [[[j' c'] e']|] eqn:Hrest;
      [|discriminate].
    intros [= <- <- <-]. destruct (IH _ _ _ _ Hrest) as (Hl & Hemb & Hrej & Hbefore).
    split; [exact Hl|split; [exact Hemb|split]].
    + rewrite <- Hrej. f_equal. f_equal. lia.
    + cbn [take first_rejected]. rewrite He, Hbefore. reflexivity.
  - destruct (rejects (chunkId url i)) as [e0|] eqn:Hrej0.
    + intros [= <- <- <-]. split; [reflexivity|split; [|split]].
      * unfold embedded. intros Hnil. apply empty_embedding_nil in Hnil. congruence.
      * rewrite Nat.add_0_r. exact Hrej0.
      * reflexivity.
    + destruct (first_rejected rejects env url (S i) rest) as [[[j' c'] e']|] eqn:Hrest;
        [|discriminate].
      intros [= <- <- <-]. destruct (IH _ _ _ _ Hrest) as (Hl & Hemb & Hrej & Hbefore).
      split; [exact Hl|split; [exact Hemb|split]].
      * rewrite <- Hrej. f_equal. f_equal. lia.
      * cbn [take first_rejected]. rewrite He, Hrej0, Hbefore. reflexivity.
Qed.

Lemma first_rejected_None (rejects : jsstring → option exn) (env : Env) (url : jsstring)
    (rest : list jsstring) :
  ∀ i : nat,
    first_rejected rejects env url i rest = None
    ↔ ∀ j chunk, rest !! j = Some chunk → embedded env chunk →
        rejects (chunkId url (i + j)) = None.
Proof.
  induction rest as [|c rest IH]; intros i.
  - split; [intros _ j chunk Hj; discriminate|reflexivity].
  - cbn [first_rejected]. split.
    + intros Hnone [|j] chunk Hj Hemb.
      * injection Hj as ->. rewrite Nat.add_0_r.
        destruct (empty_embedding (embedding_of env chunk)) eqn:He.
        { apply empty_embedding_nil in He. contradiction. }
        destruct (rejects (chunkId url i)); [discriminate|reflexivity].
      * replace (i + S j)%nat with (S i + j)%nat by lia.
        refine (proj1 (IH (S i)) _ j chunk Hj Hemb).
        destruct (if empty_embedding (embedding_of env c) then None
                  else rejects (chunkId url i)); [discriminate|].
        destruct (first_rejected rejects env url (S i) rest) as [[[? ?] ?]|];
          [discriminate|reflexivity].
    + intros Hall.
      assert (first_rejected rejects env url (S i) rest = None) as ->.
      { apply IH. intros j chunk Hj Hemb.
        replace (S i + j)%nat with (i + S j)%nat by lia.
        exact (Hall (S j) chunk Hj Hemb). }
      destruct (empty_embedding (embedding_of env c)) eqn:He; [reflexivity|].
      rewrite <- (Nat.add_0_r i). rewrite (Hall 0%nat c eq_refl); [reflexivity|].
      unfold embedded. intros Hnil. apply empty_embedding_nil in Hnil. congruence.
Qed.

(** The loop of [ingest]: it handles the chunks up to the first write the
    store rejects, and throws there, after the embedding call for that
    chunk; without a rejected write it runs as [IndexJs.ingest_loop]. *)
Lemma Rejecting_ingest_loop_run (rejects : jsstring → option exn) (env : Env)
    (url head : jsstring) (rest : list jsstring) :
  ∀ (i : nat) (w : world),
    Rejecting.ingest_loop rejects env url head i rest w
    = match first_rejected rejects env url i rest with
      | None =>
          (Ok tt,
           {| store := loop_writes env url head i rest ∪ store w;
              trace := trace w ++ loop_events env url head i rest |})
      | Some (j, chunk, e) =>
          (Throw e,
           {| store := loop_writes env url head i (take j rest) ∪ store w;
              trace := trace w ++ loop_events env url head i (take j rest)
                       ++ embed_events env chunk |})
      end.
Proof.
  induction rest as [|chunk rest IH]; intros i w.
  - simpl. unfold ret. rewrite (left_id_L ∅ (∪)), app_nil_r. destruct w; reflexivity.
  - cbn [Rejecting.ingest_loop first_rejected]. unfold bind at 1.
    destruct (generateVectorEmbeddings_run env chunk w) as [-> _].
    unfold bind at 1. unfold Rejecting.insertIntoDB.
    destruct (empty_embedding (embedding_of env chunk)) eqn:He.
    + unfold ret. rewrite IH.
      destruct (first_rejected rejects env url (S i) rest) as [[[j c] e]|].
      * cbn [take loop_writes loop_events]. unfold chunk_write. rewrite He.
        cbn [log store trace option_list app].
        rewrite (right_id_L ∅ (∪)), <- !app_assoc. reflexivity.
      * cbn [loop_writes loop_events]. unfold chunk_write. rewrite He.
        cbn [log store trace option_list app].
        rewrite (right_id_L ∅ (∪)), <- !app_assoc. reflexivity.
    + unfold collection_add_or_reject.
      destruct (rejects (chunkId url i)) as [e0|].
      * unfold throw. cbn [take loop_writes loop_events app].
        rewrite (left_id_L ∅ (∪)). reflexivity.
      * unfold collection_add. rewrite IH.
        destruct (first_rejected rejects env url (S i) rest) as [[[j c] e]|].
        -- cbn [take loop_writes loop_events]. unfold chunk_write. rewrite He.
           cbn [log store trace option_list app].
           rewrite insert_union_singleton_l, (assoc_L (∪)), <- !app_assoc. reflexivity.
        -- cbn [loop_writes loop_events]. unfold chunk_write. rewrite He.
           cbn [log store trace option_list app].
           rewrite insert_union_singleton_l, (assoc_L (∪)), <- !app_assoc. reflexivity.
Qed.

Lemma Rejecting_ingest_run (rejects : jsstring → option exn) (fuel : nat) (env : Env)
    (url : jsstring) (w : world) :
  Rejecting.ingest rejects fuel env url w
  = match scraped env url with
    | inl e =>
        (Ok tt,
         log w [Console (LogIngesting url); Console (LogScraping url); PageLoad url;
                Console (LogScrapeError e); Console (LogIngestFailed url)])
    | inr p =>
        match IndexJs.chunkText fuel (Some (pg_body p)) 500 with
        | Ok chunks =>
            match first_rejected rejects env url 0 chunks with
            | None =>
                (Ok tt,
                 {| store := loop_writes env url (pg_head p) 0 chunks ∪ store w;
                    trace := trace w
                             ++ [Console (LogIngesting url); Console (LogScraping url);
                                 PageLoad url; Console LogScrapeSuccess]
                             ++ loop_events env url (pg_head p) 0 chunks
                             ++ [Console (LogIngested url)] |})
            | Some (j, chunk, e) =>
                (Ok tt,
                 {| store := loop_writes env url (pg_head p) 0 (take j chunks) ∪ store w;
                    trace := trace w
                             ++ [Console (LogIngesting url); Console (LogScraping url);
                                 PageLoad url; Console LogScrapeSuccess]
                             ++ loop_events env url (pg_head p) 0 (take j chunks)
                             ++ embed_events env chunk
                             ++ [Console (LogIngestFailed url)] |})
            end
        | Throw e =>
            (Ok tt,
             log w [Console (LogIngesting url); Console (LogScraping url); PageLoad url;
                    Console LogScrapeSuccess; Console (LogIngestFailed url)])
        | OutOfFuel =>
            (OutOfFuel,
             log w [Console (LogIngesting url); Console (LogScraping url); PageLoad url;
                    Console LogScrapeSuccess])
        end
    end.
Proof.
  unfold Rejecting.ingest. unfold bind at 1. rewrite emit_run.
  unfold try_catch. unfold bind at 1. rewrite scrapeWebPage_run.
  destruct (scraped env url) as [e|p].
  - rewrite emit_run, !log_log. reflexivity.
  - unfold bind at 1. unfold lift.
    destruct (IndexJs.chunkText fuel (Some (pg_body p)) 500) as [chunks|e|].
    + unfold bind at 1. rewrite Rejecting_ingest_loop_run.
      destruct (first_rejected rejects env url 0 chunks) as [[[j chunk] e]|].
      * rewrite emit_run. unfold log. simpl. rewrite <- !app_assoc. reflexivity.
      * rewrite emit_run. unfold log. simpl. rewrite <- !app_assoc. reflexivity.
    + rewrite emit_run, !log_log. reflexivity.
    + rewrite !log_log. reflexivity.
Qed.

(** Over a store that takes every write this is [ingest] as above. *)
Lemma Rejecting_ingest_accepts_all (fuel : nat) (env : Env) (url : jsstring) (w : world) :
  Rejecting.ingest accepts_all fuel env url w = IndexJs.ingest fuel env url w.
Proof.
  rewrite Rejecting_ingest_run, IndexJs_ingest_run.
  destruct (scraped env url) as [e|p]; [reflexivity|].
  destruct (IndexJs.chunkText fuel (Some (pg_body p)) 500) as [chunks|e|]; try reflexivity.
  assert (first_rejected accepts_all env url 0 chunks = None) as ->; [|reflexivity].
  apply first_rejected_None. reflexivity.
Qed.

Lemma reports_loop_events_take (env : Env) (url head : jsstring) (chunks : list jsstring)
    (j : nat) (chunk : jsstring) :
  reports (loop_events env url head 0 (take j chunks) ++ embed_events env chunk) = [].
Proof. rewrite reports_app, reports_loop_events, reports_embed_events. reflexivity. Qed.

(** C8, as the program has it: [ingest] of [index.js] returns normally
    whatever happens (given fuel for the chunker), so that the [ingest] of
    another URL that follows it runs, from the world it left.  It reports
    success when the scraper returned a page and the store took every
    write: then every chunk was embedded, in order, and every chunk with a
    vector written, whatever the embedding model answered for the others.
    It reports failure when the scraper threw (the page did not load, or its
    body was too short), with the store untouched, and also when the store
    rejected a write: then the chunks before that one were handled, and
    their records stay in the store. *)
Theorem ingest_reports_failure_of_fetch_or_store (rejects : jsstring → option exn)
    (env : Env) (url : jsstring) (w : world) :
  ∃ fuel0 : nat, ∀ fuel, (fuel0 ≤ fuel)%nat →
    ∃ (w' : world) (t : list event),
      Rejecting.ingest rejects fuel env url w = (Ok tt, w')
      ∧ since w w' t
      ∧ match (IndexJs.scrapeWebPage env url w).1 with
        | Ok p =>
            ∃ chunks,
              IndexJs.chunkText fuel (Some (pg_body p)) 500 = Ok chunks
              ∧ match first_rejected rejects env url 0 chunks with
                | None =>
                    (∀ j chunk, chunks !! j = Some chunk → embedded env chunk →
                       rejects (chunkId url j) = None)
                    ∧ t = [Console (LogIngesting url); Console (LogScraping url);
                           PageLoad url; Console LogScrapeSuccess]
                          ++ loop_events env url (pg_head p) 0 chunks
                          ++ [Console (LogIngested url)]
                    ∧ store w' = loop_writes env url (pg_head p) 0 chunks ∪ store w
                    ∧ reports t = [Console (LogIngested url)]
                | Some (j, chunk, e) =>
                    chunks !! j = Some chunk
                    ∧ embedded env chunk
                    ∧ rejects (chunkId url j) = Some e
                    ∧ t = [Console (LogIngesting url); Console (LogScraping url);
                           PageLoad url; Console LogScrapeSuccess]
                          ++ loop_events env url (pg_head p) 0 (take j chunks)
                          ++ embed_events env chunk
                          ++ [Console (LogIngestFailed url)]
                    ∧ store w' = loop_writes env url (pg_head p) 0 (take j chunks) ∪ store w
                    ∧ reports t = [Console (LogIngestFailed url)]
                end
        | Throw e =>
            t = [Console (LogIngesting url); Console (LogScraping url); PageLoad url;
                 Console (LogScrapeError e); Console (LogIngestFailed url)]
            ∧ store w' = store w
            ∧ reports t = [Console (LogIngestFailed url)]
        | OutOfFuel => False
        end
      ∧ (∀ rejects' url',
           (Rejecting.ingest rejects fuel env url ;;; Rejecting.ingest rejects' fuel env url') w
           = Rejecting.ingest rejects' fuel env url' w')
      ∧ (∀ url', rejects = accepts_all →
           (IndexJs.ingest fuel env url ;;; IndexJs.ingest fuel env url') w
           = IndexJs.ingest fuel env url' w').
Proof.
  assert (∀ fuel w', Rejecting.ingest rejects fuel env url w = (Ok tt, w') →
            (∀ rejects' url',
               (Rejecting.ingest rejects fuel env url ;;;
                Rejecting.ingest rejects' fuel env url') w
               = Rejecting.ingest rejects' fuel env url' w')
            ∧ (∀ url', rejects = accepts_all →
                 (IndexJs.ingest fuel env url ;;; IndexJs.ingest fuel env url') w
                 = IndexJs.ingest fuel env url' w')) as Hseq.
  { intros fuel w' Hrun. split.
    - intros rejects' url'. unfold bind. rewrite Hrun. reflexivity.
    - intros url' ->. rewrite Rejecting_ingest_accepts_all in Hrun.
      unfold bind. rewrite Hrun. reflexivity. }
  rewrite scrapeWebPage_outcome.
  destruct (scraped env url) as [e|p] eqn:Hscr.
  - exists 0%nat. intros fuel _.
    eexists _, _. split; [|split; [apply since_log|split]].
    + rewrite Rejecting_ingest_run, Hscr. reflexivity.
    + repeat split.
    + apply Hseq. rewrite Rejecting_ingest_run, Hscr. reflexivity.
  - destruct (IndexJs_chunkText_returns (pg_body p) 500 ltac:(lia)) as [chunks Hchunks].
    exists (S (length (split_ws (pg_body p)))). intros fuel Hfuel.
    specialize (Hchunks fuel ltac:(lia)).
    pose proof (Rejecting_ingest_run rejects fuel env url w) as Hrun.
    rewrite Hscr, Hchunks in Hrun.
    destruct (first_rejected rejects env url 0 chunks) as [[[j chunk] e]|] eqn:Hrej.
    + eexists _, _. split; [exact Hrun|split; [reflexivity|split]].
      * exists chunks. split; [exact Hchunks|]. rewrite Hrej.
        destruct (first_rejected_Some _ _ _ _ _ _ _ _ Hrej) as (Hj & Hemb & He & _).
        split; [exact Hj|split; [exact Hemb|split; [exact He|split; [reflexivity|split]]]].
        -- reflexivity.
        -- rewrite !reports_app, reports_loop_events, reports_embed_events. reflexivity.
      * apply Hseq. exact Hrun.
    + eexists _, _. split; [exact Hrun|split; [reflexivity|split]].
      * exists chunks. split; [exact Hchunks|]. rewrite Hrej.
        split; [exact (proj1 (first_rejected_None _ _ _ _ 0%nat) Hrej)|].
        split; [reflexivity|split; [reflexivity|]].
        rewrite !reports_app, reports_loop_events. reflexivity.
      * apply Hseq. exact Hrun.
Qed.

(** C8, as the claim has it, fails: the page loads and the scraper returns
    it, the store is down, and [ingest] reports failure. *)
Lemma ingest_reports_store_failure :
  (IndexJs.scrapeWebPage sample_env (str "https://example.com") empty_world).1
  = Ok {| pg_head := str "Title"; pg_body := sample_body |}
  ∧ Rejecting.ingest store_down 20 sample_env (str "https://example.com") empty_world
    = (Ok tt,
       log empty_world
         [Console (LogIngesting (str "https://example.com"));
          Console (LogScraping (str "https://example.com"));
          PageLoad (str "https://example.com"); Console LogScrapeSuccess;
          EmbedContent sample_body;
          Console (LogIngestFailed (str "https://example.com"))]).
Proof. vm_compute. split; reflexivity. Qed.

(** The store is down for the first URL only: failure is reported for it,
    and the next URL is ingested all the same. *)
Example ingest_store_down_then_next :
  reports (trace ((Rejecting.ingest store_down 20 sample_env (str "a") ;;;
                   Rejecting.ingest accepts_all 20 sample_env (str "b")) empty_world).2)
  = [Console (LogIngestFailed (str "a")); Console (LogIngested (str "b"))].
Proof. vm_compute. reflexivity. Qed.
